(** * bitchat World View: the ingestion and aggregation core

    A shallow embedding of the TypeScript sources

    - [lib/applesauce.ts] (the last part of [src/src/pages/MapView.tsx]):
      [getTagValue];
    - [src/src/App.tsx]: the [events] pipeline, [chatrooms] and
      [filteredEvents];
    - [components/LeafletMap.tsx] ([src/unnamed/part_000]): [decodeGeohash]
      and [mapPoints];

    followed by the properties the specification states about them.

    Conventions.  A JavaScript [number] that only ever holds a counter is a
    [nat]; the coordinates of the geohash decoder are IEEE 754 binary64
    values, modelled by Rocq's primitive [float] (the same format and the
    same round-to-nearest-even operations).  [undefined] and [null] are
    [None].  A string is a Rocq [string]; the strings the decoder accepts
    consist of alphabet characters, for which bytes and UTF-16 code units
    coincide.  Arrays that are only read are [list]s; where the code copies
    or mutates an array, the heap of arrays is explicit ([Module Heap]). *)

From Stdlib Require Import ZArith QArith Qpower Lia Lqa List Ascii String PrimFloat.
From Stdlib Require SpecFloat FloatOps FloatAxioms.
From stdpp Require Import gmap strings list sorting.

Open Scope Z_scope.
Open Scope nat_scope.
Open Scope string_scope.
Open Scope list_scope.

(** ** Events and tags *)

(** [interface NostrEvent] of [App.tsx]. *)
Record NostrEvent := {
  id : string;
  pubkey : string;
  created_at : Z;
  content : string;
  tags : list (list string)
}.

(** [interface Chatroom] of [App.tsx]. *)
Record Chatroom := {
  geohash : string;
  name : string;
  messageCount : nat
}.

#[global] Instance NostrEvent_eq_dec : EqDecision NostrEvent.
Proof. solve_decision. Defined.

#[global] Instance Chatroom_eq_dec : EqDecision Chatroom.
Proof. solve_decision. Defined.

(** The callback [(t) => t?.[0] === tag] of [getTagValue]: an empty inner
    array has [t[0] === undefined], which is never [=== tag]. *)
Definition tagNamed (tag : string) (t : list string) : bool :=
  match t with
  | [] => false
  | n :: _ => String.eqb n tag
  end.

(** [ev?.tags?.find((t) => t?.[0] === tag)?.[1]]: the second element of the
    first inner array whose first element is [tag]; [undefined] when there
    is no such array or when it has no second element. *)
Definition getTagValue (ev : NostrEvent) (tag : string) : option string :=
  match List.find (tagNamed tag) (tags ev) with
  | Some t => t !! 1
  | None => None
  end.

(** JavaScript truthiness of a [string | undefined | null]. *)
Definition truthy (v : option string) : bool :=
  match v with
  | Some s => negb (String.eqb s "")
  | None => false
  end.

(** [v === s] for [v : string | undefined] and a string [s]. *)
Definition strictEq (v : option string) (s : string) : bool :=
  match v with
  | Some x => String.eqb x s
  | None => false
  end.

(** ** An insertion-ordered [Map<string, V>]

    A JavaScript [Map] iterates in insertion order and [set] on a present key
    keeps the key's position, so the model is an association list. *)
Module JsMap.
Section Ops.
Context {V : Type}.

Definition t := list (string * V).

Definition empty : t := [].

Fixpoint has (k : string) (m : t) : bool :=
  match m with
  | [] => false
  | (k', _) :: m' => if String.eqb k' k then true else has k m'
  end.

Fixpoint set (k : string) (v : V) (m : t) : t :=
  match m with
  | [] => [(k, v)]
  | (k', v') :: m' =>
      if String.eqb k' k then (k', v) :: m' else (k', v') :: set k v m'
  end.

(** [m.get(k)!.field++] and the like: the object stored under [k] is
    mutated in place; the map keeps its keys and their order. *)
Fixpoint mutate (f : V -> V) (k : string) (m : t) : t :=
  match m with
  | [] => []
  | (k', v) :: m' =>
      if String.eqb k' k then (k', f v) :: m' else (k', v) :: mutate f k m'
  end.

Definition values (m : t) : list V := map snd m.
End Ops.
Arguments t : clear implicits.
End JsMap.

(** ** [Array.prototype.sort(compareFn)]

    ECMAScript requires the sort to be stable and, for a consistent
    comparator, to order [a] after [b] when [compareFn(a, b) > 0].  The
    engine's algorithm is not part of the repository; a stable insertion sort
    stands for it (the result of a stable sort is unique). *)
Section ArraySort.
Context {A : Type} (compareFn : A -> A -> Z).

Fixpoint sortInsert (x : A) (l : list A) : list A :=
  match l with
  | [] => [x]
  | y :: l' =>
      if (0 <? compareFn x y)%Z then y :: sortInsert x l' else x :: y :: l'
  end.

Fixpoint arraySort (l : list A) : list A :=
  match l with
  | [] => []
  | x :: l' => sortInsert x (arraySort l')
  end.
End ArraySort.

(** ** The Chatroom Aggregator ([chatrooms] in [App.tsx]) *)

Definition incrementCount (r : Chatroom) : Chatroom :=
  {| geohash := geohash r; name := name r; messageCount := S (messageCount r) |}.

(** The body of [events.forEach((event) => { ... })]. *)
Definition chatroomsStep (roomMap : JsMap.t Chatroom) (event : NostrEvent)
  : JsMap.t Chatroom :=
  let g := getTagValue event "g" in
  if truthy g then
    match g with
    | Some gh =>
        let roomMap1 :=
          if negb (JsMap.has gh roomMap)
          then JsMap.set gh {| geohash := gh; name := "#" ++ gh; messageCount := 0 |} roomMap
          else roomMap in
        JsMap.mutate incrementCount gh roomMap1
    | None => roomMap
    end
  else roomMap.

(** [(a, b) => b.messageCount - a.messageCount]. *)
Definition byCountDesc (a b : Chatroom) : Z :=
  (Z.of_nat (messageCount b) - Z.of_nat (messageCount a))%Z.

Definition roomMapOf (events : list NostrEvent) : JsMap.t Chatroom :=
  fold_left chatroomsStep events JsMap.empty.

(** [chatrooms]: [events] is [undefined] until the observable first emits. *)
Definition chatrooms (events : option (list NostrEvent)) : list Chatroom :=
  match events with
  | None => []
  | Some evs => arraySort byCountDesc (JsMap.values (roomMapOf evs))
  end.

(** ** The Filter View ([filteredEvents] in [App.tsx]) *)

(** [if (!events || !selectedChatroom) return events;
     return events.filter((event) => getTagValue(event, "g") === selectedChatroom);] *)
Definition filteredEvents (events : option (list NostrEvent))
    (selectedChatroom : option string) : option (list NostrEvent) :=
  match events with
  | None => None
  | Some evs =>
      if negb (truthy selectedChatroom) then Some evs
      else
        match selectedChatroom with
        | Some s => Some (List.filter (fun event => strictEq (getTagValue event "g") s) evs)
        | None => Some evs
        end
  end.

(** ** The Geocell Decoder ([decodeGeohash] in [LeafletMap.tsx])

    The decoder is written once over the arithmetic it uses, and read twice:
    over binary64 ([decodeGeohash], what the code computes) and over the
    rationals ([decodeGeohashExact], the recurrence without rounding). *)

Definition base32 : string := "0123456789bcdefghjkmnpqrstuvwxyz".

(** [s.indexOf(c)] for a one-character [c]: first position, or [-1]. *)
Fixpoint indexOfFrom (i : Z) (c : ascii) (s : string) : Z :=
  match s with
  | EmptyString => (-1)%Z
  | String d s' => if Ascii.eqb d c then i else indexOfFrom (i + 1)%Z c s'
  end.

Definition indexOf (s : string) (c : ascii) : Z := indexOfFrom 0%Z c s.

Record LatLng (N : Type) := { lat : N; lng : N }.
Arguments lat {N} _.
Arguments lng {N} _.
Arguments Build_LatLng {N} _ _.

(** The local variables of [decodeGeohash]. *)
Module Dec.
Record state (N : Type) := {
  lat : N;
  lng : N;
  latErr : N;
  lngErr : N;
  isEven : bool
}.
Arguments lat {N} _.
Arguments lng {N} _.
Arguments latErr {N} _.
Arguments lngErr {N} _.
Arguments isEven {N} _.
Arguments Build_state {N} _ _ _ _ _.
End Dec.

Section Decoder.
Context {N : Type}.
(** The literals [0], [90], [180] and the operations [x / 2], [x + y],
    [x - y] on [number]. *)
Context (zero ninety oneEighty : N) (half : N -> N) (add sub : N -> N -> N).

Definition decodeInit : Dec.state N :=
  {| Dec.lat := zero; Dec.lng := zero;
     Dec.latErr := ninety; Dec.lngErr := oneEighty; Dec.isEven := true |}.

(** The body of [for (let j = 4; j >= 0; j--)]. *)
Definition bitStep (cd : Z) (st : Dec.state N) (j : Z) : Dec.state N :=
  let mask := Z.shiftl 1 j in
  if Dec.isEven st then
    let lngErr := half (Dec.lngErr st) in
    {| Dec.lat := Dec.lat st;
       Dec.lng := if (Z.land cd mask =? 0)%Z
                  then sub (Dec.lng st) lngErr else add (Dec.lng st) lngErr;
       Dec.latErr := Dec.latErr st;
       Dec.lngErr := lngErr;
       Dec.isEven := negb (Dec.isEven st) |}
  else
    let latErr := half (Dec.latErr st) in
    {| Dec.lat := if (Z.land cd mask =? 0)%Z
                  then sub (Dec.lat st) latErr else add (Dec.lat st) latErr;
       Dec.lng := Dec.lng st;
       Dec.latErr := latErr;
       Dec.lngErr := Dec.lngErr st;
       Dec.isEven := negb (Dec.isEven st) |}.

Definition charStep (cd : Z) (st : Dec.state N) : Dec.state N :=
  fold_left (bitStep cd) [4; 3; 2; 1; 0]%Z st.

(** The body of [for (let i = 0; i < geohash.length; i++)]; [None] is the
    early [return null]. *)
Fixpoint decodeLoop (geohash : string) (st : Dec.state N) : option (Dec.state N) :=
  match geohash with
  | EmptyString => Some st
  | String c rest =>
      let cd := indexOf base32 c in
      if (cd =? -1)%Z then None else decodeLoop rest (charStep cd st)
  end.

Definition decodeWith (geohash : string) : option (LatLng N) :=
  match decodeLoop geohash decodeInit with
  | Some st => Some {| lat := Dec.lat st; lng := Dec.lng st |}
  | None => None
  end.
End Decoder.

(** [decodeGeohash] as the code runs it: binary64 arithmetic. *)
Definition decodeGeohash : string -> option (LatLng float) :=
  decodeWith 0%float 90%float 180%float
    (fun x => (x / 2)%float) PrimFloat.add PrimFloat.sub.

(** The same recurrence over the rationals, where no operation rounds. *)
Definition decodeGeohashExact : string -> option (LatLng Q) :=
  decodeWith 0%Q 90%Q 180%Q (fun x => (x / 2)%Q) Qplus Qminus.

(** ** [mapPoints] in [LeafletMap.tsx] *)

(** [{ ...room, lat: coords.lat, lng: coords.lng }]. *)
Record MapPoint := {
  point_geohash : string;
  point_name : string;
  point_messageCount : nat;
  point_lat : float;
  point_lng : float
}.

(** The callback of [chatrooms.map(...)]: [None] is [null]. *)
Definition toMapPoint (room : Chatroom) : option MapPoint :=
  match decodeGeohash (geohash room) with
  | None => None
  | Some coords =>
      Some {| point_geohash := geohash room;
              point_name := name room;
              point_messageCount := messageCount room;
              point_lat := lat coords;
              point_lng := lng coords |}
  end.

(** [chatrooms.map(...).filter((point) => point !== null)]. *)
Definition mapPoints (rooms : list Chatroom) : list MapPoint :=
  omap toMapPoint rooms.

(** ** Event Store and Timeline Aggregator

    [EventStore], [mapEventsToStore] and [mapEventsToTimeline] come from the
    applesauce packages, whose sources are not part of [src/]; [App.tsx] only
    calls them. *)

(** Modelled from the spec: the Event Store of section 4.2 (applesauce-core's
    [EventStore] is missing from [src/]).  [admitRecord] admits a record only
    if no record with the same [id] is present; a duplicate leaves the store
    unchanged and reports non-admission. *)
Module EventStore.
Abbreviation t := (gmap string NostrEvent).

Definition empty : t := ∅.

Definition contains (i : string) (s : t) : bool :=
  match s !! i with Some _ => true | None => false end.

Definition get (i : string) (s : t) : option NostrEvent := s !! i.

Definition admitRecord (e : NostrEvent) (s : t) : t * bool :=
  if contains (id e) s then (s, false) else (<[id e := e]> s, true).

(** The records held under a given [id]. *)
Definition entries (i : string) (s : t) : t :=
  filter (fun kv => id (snd kv) = i) s.
End EventStore.

(** Modelled from the spec: the Timeline Aggregator of section 4.3
    (applesauce-core's [mapEventsToStore] and [mapEventsToTimeline] are
    missing from [src/]).  Each admission appends the event to the ordered
    sequence; a non-admitted record changes nothing.  [timeline] is thus the
    sequence of the admitted events in the order of their admission; the
    array handed to the components of [App.tsx] is [events], further down. *)
Record Core := {
  store : gmap string NostrEvent;
  timeline : list NostrEvent
}.

Definition coreInit : Core := {| store := EventStore.empty; timeline := [] |}.

(** One record arriving from the relays; the boolean is [admitted]. *)
Definition submit (c : Core) (e : NostrEvent) : Core * bool :=
  let '(s, admitted) := EventStore.admitRecord e (store c) in
  if admitted then ({| store := s; timeline := timeline c ++ [e] |}, true)
  else (c, false).

Definition submitAll (c : Core) (es : list NostrEvent) : Core :=
  fold_left (fun c e => fst (submit c e)) es c.

(** ** The display reversal [map((t) => [...t].reverse())] of [App.tsx]

    [Array.prototype.reverse] reverses its receiver in place and returns it;
    the spread [[...t]] allocates a new array.  Arrays live in a heap and are
    passed by reference. *)
Module Heap.
Abbreviation loc := positive.
Abbreviation t := (gmap positive (list NostrEvent)).

(** [[...a]]: a fresh array holding the elements of [a]. *)
Definition spread (a : loc) (h : t) : option (loc * t) :=
  match h !! a with
  | Some xs => let b := fresh (dom h) in Some (b, <[b := xs]> h)
  | None => None
  end.

(** [a.reverse()]: in place; returns the receiver. *)
Definition reverse (a : loc) (h : t) : option (loc * t) :=
  match h !! a with
  | Some xs => Some (a, <[a := rev xs]> h)
  | None => None
  end.
End Heap.

(** [(t) => [...t].reverse()]. *)
Definition reversedCopy (t : Heap.loc) (h : Heap.t) : option (Heap.loc * Heap.t) :=
  match Heap.spread t h with
  | Some (c, h1) => Heap.reverse c h1
  | None => None
  end.

(** ** The published [events] ([App.tsx], lines 57-72)

    The pipeline hands every admitted event to [mapEventsToTimeline()] and
    publishes [[...t].reverse()] of each array [t] that operator emits.  The
    operator belongs to applesauce-core and is not part of [src/]: it is the
    parameter [agg] below, from the admitted events in the order of their
    admission to the array emitted after the last of them. *)

(** The array published for an emitted array [t]: [t] is put in a heap, the
    callback of [map] runs on its reference, and the returned array is read. *)
Definition publish (t : list NostrEvent) : option (list NostrEvent) :=
  let h : Heap.t := {[ 1%positive := t ]} in
  match reversedCopy 1%positive h with
  | Some (r, h') => h' !! r
  | None => None
  end.

(** [events] after the records [arrivals] have come in from the relays; the
    sequence of admitted events, in the order of admission, is the one the
    modelled core keeps. *)
Definition events (agg : list NostrEvent -> list NostrEvent)
    (arrivals : list NostrEvent) : option (list NostrEvent) :=
  publish (agg (timeline (submitAll coreInit arrivals))).

(** [a] stands before [b] in a sequence with the newest first, respectively
    with the oldest first. *)
Definition notOlder (a b : NostrEvent) : Prop := (created_at b <= created_at a)%Z.




(** ** Sample timelines (the scenarios of the specification) *)

Definition mkEvent (i : string) (createdAt : Z) (ts : list (list string)) : NostrEvent :=
  {| id := i; pubkey := "npub"; created_at := createdAt; content := "hi"; tags := ts |}.

Definition evA : NostrEvent := mkEvent "a" 30 [["n"; "ann"]; ["g"; "u4"]].
Definition evB : NostrEvent := mkEvent "b" 10 [["g"; "u4"]; ["g"; "u5"]].
Definition evC : NostrEvent := mkEvent "c" 20 [["g"; "u5"]].
(** An event whose geocell is the empty string, one without a [g] tag, one
    whose geocell has a character outside the alphabet. *)
Definition evEmpty : NostrEvent := mkEvent "d" 40 [["g"; ""]].
Definition evNoTag : NostrEvent := mkEvent "e" 50 [["n"; "bob"]].
Definition evBad : NostrEvent := mkEvent "f" 60 [["g"; "a"]].

Definition scenarioA : list NostrEvent := [evA; evB; evC].

(** ** Notions used to state the properties *)

(** What ties the aggregator's sequence to the store (invariant I2): the
    timeline has no two events with the same [id], and the store holds
    exactly the events of the timeline, each under its [id]. *)
Definition coreInv (c : Core) : Prop :=
  NoDup (id <$> timeline c) /\
  forall i e, store c !! i = Some e <-> e ∈ timeline c /\ id e = i.

(** The geocell an event is grouped under: its first [g] tag value when that
    value is truthy. *)
Definition geocellOf (e : NostrEvent) : option string :=
  if truthy (getTagValue e "g") then getTagValue e "g" else None.

(** Number of events of a sequence whose first [g] tag value is [g]. *)
Definition countFor (g : string) (evs : list NostrEvent) : nat :=
  length (filter (fun e => getTagValue e "g" = Some g) evs).

(** The map whose keys are [ks], in that order, with [f k] under [k]. *)
Definition tabulate {V : Type} (ks : list string) (f : string -> V) : JsMap.t V :=
  map (fun k => (k, f k)) ks.

(** Geocells in the order the scan first meets them: the key order of
    [roomMap]. *)
Definition seenStep (acc : list string) (e : NostrEvent) : list string :=
  match geocellOf e with
  | Some g => if decide (g ∈ acc) then acc else acc ++ [g]
  | None => acc
  end.

Definition firstSeen (evs : list NostrEvent) : list string :=
  fold_left seenStep evs [].

(** The chatroom of geocell [g] over the timeline [evs]. *)
Definition roomFor (evs : list NostrEvent) (g : string) : Chatroom :=
  {| geohash := g; name := "#" ++ g; messageCount := countFor g evs |}.

(** [precedes l a b]: some occurrence of [a] in [l] comes before some
    occurrence of [b]. *)
Fixpoint precedes {A : Type} (l : list A) (a b : A) : Prop :=
  match l with
  | [] => False
  | x :: l' => (x = a /\ b ∈ l') \/ precedes l' a b
  end.

(** Position in the timeline of the first event whose first [g] tag value is
    [g]. *)
Definition firstIndex (g : string) (evs : list NostrEvent) : option nat :=
  fst <$> list_find (fun e => getTagValue e "g" = Some g) evs.

(** The recurrence without rounding: each bit halves the error of its axis
    and moves the midpoint by the halved error, so the midpoint stays within
    the bound minus the current error. *)
Definition withinErr (st : Dec.state Q) : Prop :=
  (0 < Dec.latErr st /\ 0 < Dec.lngErr st /\
   -90 + Dec.latErr st <= Dec.lat st /\ Dec.lat st <= 90 - Dec.latErr st /\
   -180 + Dec.lngErr st <= Dec.lng st /\ Dec.lng st <= 180 - Dec.lngErr st)%Q.

(** ** Binary64 numbers on a dyadic grid

    [SpecFloat] is the Standard Library's specification of the primitive
    floats ([FloatAxioms] relates the two).  The decoder only ever adds,
    subtracts and halves numbers of the form [z * 2^e]; the definitions below
    name those numbers and the condition under which they are binary64
    numbers. *)

Abbreviation prec := FloatOps.prec.
Abbreviation emax := FloatOps.emax.
Abbreviation Prim2SF := FloatOps.Prim2SF.

Section Binary64Defs.
Import SpecFloat.
Local Open Scope Z_scope.

(** [p * 2^k] on positives. *)
Definition shlN (p : positive) (k : nat) : positive := Nat.iter k xO p.

Definition rec0 (m : Z) : shr_record := {| shr_m := m; shr_r := false; shr_s := false |}.

(** The canonical binary64 form of [+-p * 2^e] when [p] has at most 53
    digits and the result is a normal number. *)
Definition canon (s : bool) (p : positive) (e : Z) : spec_float :=
  S754_finite s (shlN p (Z.to_nat (53 - Zpos (digits2_pos p))))
              (e + Zpos (digits2_pos p) - 53).

Definition fits (p : positive) (e : Z) : Prop :=
  Zpos (digits2_pos p) <= 53 /\ -1000 <= e + Zpos (digits2_pos p) - 53 /\
  e + Zpos (digits2_pos p) <= 1000.

(** The binary64 number [z * 2^e]. *)
Definition normZ (z e : Z) : spec_float := binary_normalize prec emax z e false.

Definition fitsZ (z e : Z) : Prop :=
  match z with
  | Z0 => True
  | Zpos p | Zneg p => fits p e
  end.

Definition signed (s : bool) (p : positive) : Z := cond_Zopp s (Zpos p).

Definition two_sf : spec_float := S754_finite false 4503599627370496 (-51).

(** The float [x] is exactly [z * 2^e]. *)
Definition repr (x : float) (z e : Z) : Prop := Prim2SF x = normZ z e.

(** One axis of the decoder after [k] of its bits: the midpoint is
    [45 * a * 2^(e0 - k)] with [|a| < 2^k], the error is [45 * 2^(e0 - k)]
    ([e0] is 1 for the latitude, 2 for the longitude). *)
Definition axisExact (e0 : Z) (k : nat) (v err : float) : Prop :=
  exists a, repr v (45 * a) (e0 - Z.of_nat k) /\ Z.abs a < 2 ^ Z.of_nat k /\
            repr err 45 (e0 - Z.of_nat k).

(** From the 48th bit of an axis on, sums may round.  In units of
    [2^(e0 - 51)] the bound of the axis is [90 * 2^50]; after [k] bits the
    midpoint is within [90 * 2^50 - 90 * 2^(50 - k)] of zero, plus at most
    23 units for each rounded sum. *)
Definition tailBound (k : nat) : Z :=
  101330991615836160 - 90 * 2 ^ (50 - Z.of_nat k) + 23 * (Z.of_nat k - 47).

Definition axisTail (e0 : Z) (k : nat) (v err : float) : Prop :=
  exists z e, repr v z e /\ fitsZ z e /\ e0 - 51 <= e <= e0 + 10 /\
              Z.abs z * 2 ^ (e - (e0 - 51)) <= tailBound k /\
              repr err 45 (e0 - Z.of_nat k).

(** An axis after [k <= 50] bits: exact up to 47 bits, bounded after. *)
Definition axisOK (e0 : Z) (k : nat) (v err : float) : Prop :=
  (k <= 47)%nat /\ axisExact e0 k v err \/
  (47 <= k <= 50)%nat /\ axisTail e0 k v err.

(** The decoder state after [kl] latitude bits and [kg] longitude bits. *)
Definition stateOK (kl kg : nat) (st : Dec.state float) : Prop :=
  axisOK 1 kl (Dec.lat st) (Dec.latErr st) /\
  axisOK 2 kg (Dec.lng st) (Dec.lngErr st) /\
  (Dec.isEven st = true /\ kg = kl \/ Dec.isEven st = false /\ kg = S kl).
End Binary64Defs.

(** * Further parts of the sources

    - [ChatLine], the view state ([selectedChatroom], [currentView]) with its
      handlers and the main area of [App.tsx];
    - [renderTextWithLinks] of the later [App.tsx] (in [src/src/main.tsx]);
    - [createChatroomIcon], [mapCenter] and the markers of [LeafletMap.tsx];
    - notions for the properties of the decoder: the bits of a geohash, the
      value of a binary64 number, the cell of a geohash. *)

(** ** [ChatLine] in [App.tsx] *)

(** [showGeohash && geohash && <span>#{geohash}</span>]: the text of the
    badge, [None] when nothing is rendered. *)
Definition geohashBadge (showGeohash : bool) (ev : NostrEvent) : option string :=
  let geohash := getTagValue ev "g" in
  if showGeohash && truthy geohash then
    match geohash with
    | Some g => Some ("#" ++ g)%string
    | None => None
    end
  else None.

(** ** The view state of [App] and its handlers *)

Inductive View := ChatView | MapView.

(** The two [useState] cells [selectedChatroom] and [currentView]. *)
Record UiState := {
  selectedChatroom : option string;
  currentView : View
}.

Definition uiInit : UiState := {| selectedChatroom := None; currentView := ChatView |}.

(** [() => setSelectedChatroom(selectedChatroom === room.geohash ? null : room.geohash)]. *)
Definition onRoomClick (st : UiState) (room : Chatroom) : UiState :=
  {| selectedChatroom :=
       if strictEq (selectedChatroom st) (geohash room) then None
       else Some (geohash room);
     currentView := currentView st |}.

(** [() => setCurrentView('map')]. *)
Definition onShowMap (st : UiState) : UiState :=
  {| selectedChatroom := selectedChatroom st; currentView := MapView |}.

(** [onChatroomSelect]: [setSelectedChatroom(geohash); setCurrentView('chat')]. *)
Definition onChatroomSelect (st : UiState) (geohash : string) : UiState :=
  {| selectedChatroom := Some geohash; currentView := ChatView |}.

(** [onBackToChat]: [setSelectedChatroom(null); setCurrentView('chat')]. *)
Definition onBackToChat (st : UiState) : UiState :=
  {| selectedChatroom := None; currentView := ChatView |}.

(** [() => setSelectedChatroom(null)] of the button "Show All Messages". *)
Definition onShowAll (st : UiState) : UiState :=
  {| selectedChatroom := None; currentView := currentView st |}.

(** What the main area of the chat view shows: one of the two notices when
    [!filteredEvents || filteredEvents.length === 0], else a [ChatLine] for
    each event, with [showGeohash={!selectedChatroom}]. *)
Inductive MainArea :=
| NoMessagesIn (room : string)
| WaitingForEvents
| ChatLines (evs : list NostrEvent) (showGeohash : bool).

Definition mainArea (events : option (list NostrEvent))
    (selectedChatroom : option string) : MainArea :=
  let notice :=
    match selectedChatroom with
    | Some s => if truthy selectedChatroom then NoMessagesIn s else WaitingForEvents
    | None => WaitingForEvents
    end in
  match filteredEvents events selectedChatroom with
  | None => notice
  | Some [] => notice
  | Some evs => ChatLines evs (negb (truthy selectedChatroom))
  end.

(** The controls a rendering offers. *)
Inductive Action :=
| RoomClick (room : Chatroom)
| ShowMap
| MarkerClick (point : MapPoint)
| BackToChat
| ShowAll.

Definition handle (st : UiState) (a : Action) : UiState :=
  match a with
  | RoomClick room => onRoomClick st room
  | ShowMap => onShowMap st
  | MarkerClick point => onChatroomSelect st (point_geohash point)
  | BackToChat => onBackToChat st
  | ShowAll => onShowAll st
  end.

(** Which controls are rendered: the room buttons, the map button and
    "Show All Messages" (only [selectedChatroom &&]) in the chat view; the
    markers of [mapPoints] and the back button in the map view. *)
Definition offered (events : option (list NostrEvent)) (st : UiState) (a : Action) : Prop :=
  match a with
  | RoomClick room => currentView st = ChatView /\ room ∈ chatrooms events
  | ShowMap => currentView st = ChatView
  | MarkerClick point => currentView st = MapView /\ point ∈ mapPoints (chatrooms events)
  | BackToChat => currentView st = MapView
  | ShowAll => currentView st = ChatView /\ truthy (selectedChatroom st) = true
  end.

(** The states the interface reaches while the timeline only gains events
    (in any position). *)
Inductive reachable : list NostrEvent -> UiState -> Prop :=
| reach_init : reachable [] uiInit
| reach_grow evs evs' st : reachable evs st -> evs ⊆+ evs' -> reachable evs' st
| reach_step evs st a : reachable evs st -> offered (Some evs) st a -> reachable evs (handle st a).

(** [s] consists of characters of the geohash alphabet. *)
Definition inAlphabet (s : string) : Prop :=
  Forall (fun c => c ∈ list_ascii_of_string base32) (list_ascii_of_string s).


#[global] Instance inAlphabet_dec (s : string) : Decision (inAlphabet s).
Proof. unfold inAlphabet. apply _. Defined.

(** The fields a map point takes over from its room ([...room]). *)
Definition roomOfPoint (p : MapPoint) : Chatroom :=
  {| geohash := point_geohash p; name := point_name p;
     messageCount := point_messageCount p |}.

(** ** [createChatroomIcon] in [LeafletMap.tsx] *)

(** [Math.max(a, b)] on two numbers: [NaN] if either is [NaN]; [+0] counts as
    larger than [-0]. *)
Definition mathMax (a b : float) : float :=
  if is_nan a || is_nan b then nan
  else if (a <? b)%float then b
  else if (b <? a)%float then a
  else if is_zero a && get_sign a then b else a.

(** [Math.min(a, b)]: [NaN] if either is [NaN]; [-0] counts as smaller than
    [+0]. *)
Definition mathMin (a b : float) : float :=
  if is_nan a || is_nan b then nan
  else if (a <? b)%float then a
  else if (b <? a)%float then b
  else if is_zero a && get_sign a then a else b.

(** The numbers [createChatroomIcon] puts into the icon: the diameter
    ([width], [height] and both components of [iconSize]), the font size,
    the anchor and the label. *)
Record ChatroomIcon := {
  icon_size : float;
  icon_fontSize : float;
  icon_anchor : float * float;
  icon_label : float
}.

Definition createChatroomIcon (messageCount : float) : ChatroomIcon :=
  let size := mathMax 20 (mathMin 40 (20 + messageCount / 5)) in
  {| icon_size := size;
     icon_fontSize := mathMax 10 (size / 3);
     icon_anchor := ((size / 2)%float, (size / 2)%float);
     icon_label := messageCount |}.

(** ** [renderTextWithLinks] in [App.tsx] (the version in [src/src/main.tsx])

    The regular expression [/(https?:\/\/[^\s]+)/g] has no [u] flag, so it
    works on the UTF-16 code units of the string: in this part a string is
    the list of its code units. *)

Module UrlRegex.
(** [\s]: the code units of ECMAScript's WhiteSpace and LineTerminator. *)
Definition isWhiteSpace (c : N) : bool :=
  match c with
  | 9 | 10 | 11 | 12 | 13 | 32 | 160 | 5760 | 8232 | 8233 | 8239 | 8287
  | 12288 | 65279 => true
  | _ => (8192 <=? c)%N && (c <=? 8202)%N
  end%N.

(** ["http"], ["s"] and ["://"]. *)
Definition str_http : list N := [104; 116; 116; 112]%N.
Definition chr_s : N := 115%N.
Definition str_colonSlashes : list N := [58; 47; 47]%N.

(** [s] without the prefix [pre], if it starts with it. *)
Fixpoint stripPrefix (pre s : list N) : option (list N) :=
  match pre, s with
  | [], _ => Some s
  | a :: pre', b :: s' => if (a =? b)%N then stripPrefix pre' s' else None
  | _ :: _, [] => None
  end.

(** Length of the longest prefix without white space: what the greedy
    [[^\s]+] consumes. *)
Fixpoint nonSpaceRun (s : list N) : nat :=
  match s with
  | c :: s' => if isWhiteSpace c then 0 else S (nonSpaceRun s')
  | [] => 0
  end.

(** [:\/\/[^\s]+] at the start of [s]: the length of the match. *)
Definition matchRest (s : list N) : option nat :=
  match stripPrefix str_colonSlashes s with
  | Some r => if (nonSpaceRun r =? 0)%nat then None else Some (3 + nonSpaceRun r)
  | None => None
  end.

(** The pattern [https?:\/\/[^\s]+] tried at the start of [s] (as a sticky
    match would): the length of the match.  The greedy [s?] first takes an
    [s]; if the rest then fails, the pattern is tried again without it. *)
Definition matchAt (s : list N) : option nat :=
  match stripPrefix str_http s with
  | None => None
  | Some r =>
      let withS :=
        match r with
        | c :: r' => if (c =? chr_s)%N then matchRest r' else None
        | [] => None
        end in
      match withS with
      | Some n => Some (5 + n)
      | None =>
          match matchRest r with
          | Some n => Some (4 + n)
          | None => None
          end
      end
  end.

(** [str.substring(from, to)] for [from <= to]. *)
Definition substring (from to : nat) (str : list N) : list N :=
  take (to - from) (drop from str).

(** The loop of [RegExp.prototype[Symbol.split]]: [p] is the start of the
    pending part, [q] the position tried next.  A match at [q] ending at [e]
    closes the part [str[p, q)], is followed by the captures (here the one
    group, which is the whole match) and moves [p] and [q] to [e]. *)
Fixpoint splitLoop (fuel : nat) (str : list N) (p q : nat) : list (list N) :=
  match fuel with
  | O => []
  | S fuel' =>
      if (length str <=? q)%nat then [substring p (length str) str]
      else
        match matchAt (drop q str) with
        | None => splitLoop fuel' str p (q + 1)
        | Some n =>
            let e := Nat.min (q + n) (length str) in
            if (e =? p)%nat then splitLoop fuel' str p (q + 1)
            else substring p q str :: substring q (q + n) str :: splitLoop fuel' str e e
        end
  end.

(** [text.split(urlRegex)]; the empty string is split into [[""]] unless the
    pattern matches it. *)
Definition split (str : list N) : list (list N) :=
  if (length str =? 0)%nat then
    match matchAt str with
    | Some _ => []
    | None => [str]
    end
  else splitLoop (S (length str)) str 0 0.

(** The search of [RegExp.prototype.exec] from position [i], where [s] is
    the string from [i] on: the end of the first match. *)
Fixpoint execFrom (i : nat) (s : list N) : option nat :=
  match matchAt s with
  | Some n => Some (i + n)
  | None =>
      match s with
      | [] => None
      | _ :: s' => execFrom (S i) s'
      end
  end.

(** [urlRegex.test(part)] for the global [urlRegex]: the search starts at
    [lastIndex]; a match leaves [lastIndex] at its end, a failure resets it
    to 0.  The result is the answer and the new [lastIndex]. *)
Definition test (lastIndex : nat) (part : list N) : bool * nat :=
  if (length part <? lastIndex)%nat then (false, 0)
  else
    match execFrom lastIndex (drop lastIndex part) with
    | Some e => (true, e)
    | None => (false, 0)
    end.
End UrlRegex.

(** What [renderTextWithLinks] returns for a part: the [<a>] element with
    its key and [href] (which is also its text), or the part itself. *)
Inductive Node :=
| Anchor (key : nat) (href : list N)
| Text (s : list N).

Definition nodeText (n : Node) : list N :=
  match n with
  | Anchor _ href => href
  | Text s => s
  end.

(** [parts.map((part, index) => ...)], with the [lastIndex] of the one
    [urlRegex] object threaded through the calls of [test]. *)
Fixpoint renderParts (lastIndex index : nat) (parts : list (list N)) : list Node :=
  match parts with
  | [] => []
  | part :: rest =>
      let '(isUrl, lastIndex') := UrlRegex.test lastIndex part in
      (if isUrl then Anchor index part else Text part)
        :: renderParts lastIndex' (S index) rest
  end.

Definition renderTextWithLinks (text : list N) : list Node :=
  renderParts 0 0 (UrlRegex.split text).

(** A URL as the pattern sees it: [http://] or [https://] followed by one or
    more code units, none of them white space. *)
Definition isUrl (s : list N) : Prop :=
  exists rest,
    (s = UrlRegex.str_http ++ UrlRegex.str_colonSlashes ++ rest \/
     s = UrlRegex.str_http ++ UrlRegex.chr_s :: UrlRegex.str_colonSlashes ++ rest) /\
    rest <> [] /\ Forall (fun c => UrlRegex.isWhiteSpace c = false) rest.

(** No URL starts anywhere in [s]. *)
Definition noUrl (s : list N) : Prop :=
  forall i, UrlRegex.matchAt (drop i s) = None.


(** The shape of the parts of a split: a part without URL, then
    alternately a URL and a part without URL. *)
Inductive Parts : list (list N) -> Prop :=
| parts_last t : noUrl t -> Parts [t]
| parts_cons t u rest : noUrl t -> isUrl u -> Parts rest -> Parts (t :: u :: rest).

(** ** The bits a geohash stands for *)

(** The test [cd & mask] with [mask = 1 << j]. *)
Definition codeBit (cd j : Z) : bool := negb (Z.land cd (Z.shiftl 1 j) =? 0)%Z.

(** The five bits of a character code, in the order the decoder reads
    them. *)
Definition codeBits (cd : Z) : list bool := map (codeBit cd) [4; 3; 2; 1; 0]%Z.

Fixpoint geohashBits (g : string) : list bool :=
  match g with
  | EmptyString => []
  | String c rest => codeBits (indexOf base32 c) ++ geohashBits rest
  end.

Section Binary64Codes.
Local Open Scope Z_scope.

(** One axis of the decoder after [k] of its bits, without rounding: with
    [B] the binary number the bits spell, the midpoint is
    [45 * (2 * B - 2^k + 1) * 2^(e0 - k)]. *)
Definition axisCode (e0 : Z) (k : nat) (B : Z) (v err : float) : Prop :=
  0 <= B < 2 ^ Z.of_nat k /\
  repr v (45 * (2 * B - 2 ^ Z.of_nat k + 1)) (e0 - Z.of_nat k) /\
  repr err 45 (e0 - Z.of_nat k).

(** The decoder state after the bits [bs]: the longitude has taken the bits
    at even positions, the latitude those at odd positions. *)
Definition stateCode (bs : list bool) (st : Dec.state float) : Prop :=
  exists (kl kg : nat) (Bl Bg : Z),
    axisCode 1 kl Bl (Dec.lat st) (Dec.latErr st) /\
    axisCode 2 kg Bg (Dec.lng st) (Dec.lngErr st) /\
    (kl + kg)%nat = length bs /\
    (Dec.isEven st = true /\ kg = kl \/ Dec.isEven st = false /\ kg = S kl) /\
    forall (i : nat) (b : bool), bs !! i = Some b ->
      b = if Nat.even i then Z.testbit Bg (Z.of_nat (kg - 1 - i / 2))
          else Z.testbit Bl (Z.of_nat (kl - 1 - i / 2)).
End Binary64Codes.

(** The rational a finite binary64 number stands for. *)
Definition SFvalue (x : SpecFloat.spec_float) : option Q :=
  match x with
  | SpecFloat.S754_zero _ => Some 0%Q
  | SpecFloat.S754_finite s m e =>
      Some (inject_Z (SpecFloat.cond_Zopp s (Zpos m)) * 2 ^ e)%Q
  | _ => None
  end.

Definition floatValue (x : float) : option Q := SFvalue (Prim2SF x).

Section RationalCodes.
Local Open Scope Z_scope.

(** One axis of the recurrence over the rationals after [k] bits spelling
    [B]. *)
Definition axisCodeQ (e0 : Z) (k : nat) (B : Z) (v err : Q) : Prop :=
  (v == inject_Z (45 * (2 * B - 2 ^ Z.of_nat k + 1)) * 2 ^ (e0 - Z.of_nat k))%Q /\
  (err == 45 * 2 ^ (e0 - Z.of_nat k))%Q.

(** The binary64 run and the rational run of the decoder side by side. *)
Definition stateBoth (n : nat) (st : Dec.state float) (stQ : Dec.state Q) : Prop :=
  exists (kl kg : nat) (Bl Bg : Z),
    axisCode 1 kl Bl (Dec.lat st) (Dec.latErr st) /\
    axisCode 2 kg Bg (Dec.lng st) (Dec.lngErr st) /\
    axisCodeQ 1 kl Bl (Dec.lat stQ) (Dec.latErr stQ) /\
    axisCodeQ 2 kg Bg (Dec.lng stQ) (Dec.lngErr stQ) /\
    (kl + kg)%nat = n /\ Dec.isEven stQ = Dec.isEven st /\
    (Dec.isEven st = true /\ kg = kl \/ Dec.isEven st = false /\ kg = S kl).
End RationalCodes.

(** ** [mapCenter] and the markers of [LeafletMap.tsx] *)

(** The number that holds a count or an array length [n]: the binary64
    number nearest to [n], which is [n] itself below [2^53]. *)
Definition numberOfNat (n : nat) : float :=
  FloatOps.SF2Prim (normZ (Z.of_nat n) 0).

(** [mapCenter]: [[0, 0]] without points, else the sums of the latitudes and
    of the longitudes ([reduce] from [0], left to right), each divided by
    the number of points. *)
Definition mapCenter (mapPoints : list MapPoint) : float * float :=
  if (length mapPoints =? 0)%nat then (0%float, 0%float)
  else
    let totalLat := fold_left (fun sum point => (sum + point_lat point)%float) mapPoints 0%float in
    let totalLng := fold_left (fun sum point => (sum + point_lng point)%float) mapPoints 0%float in
    ((totalLat / numberOfNat (length mapPoints))%float,
     (totalLng / numberOfNat (length mapPoints))%float).

(** [icon={createChatroomIcon(point.messageCount)}]. *)
Definition markerIcon (point : MapPoint) : ChatroomIcon :=
  createChatroomIcon (numberOfNat (point_messageCount point)).

(** In the rational run: the midpoint of [st'] lies in the cell of [st],
    at least the error of [st'] away from its border. *)
Definition insideCell (st st' : Dec.state Q) : Prop :=
  (0 < Dec.latErr st' /\ 0 < Dec.lngErr st' /\
   Dec.lat st - Dec.latErr st + Dec.latErr st' <= Dec.lat st' /\
   Dec.lat st' <= Dec.lat st + Dec.latErr st - Dec.latErr st' /\
   Dec.lng st - Dec.lngErr st + Dec.lngErr st' <= Dec.lng st' /\
   Dec.lng st' <= Dec.lng st + Dec.lngErr st - Dec.lngErr st')%Q.

(** * Properties *)

(** ** Tags, truthiness and strict equality *)

Lemma truthy_Some (v : option string) :
  truthy v = true <-> exists s, v = Some s /\ s <> "".
Proof.
  destruct v as [s|]; simpl.
  - rewrite negb_true_iff, String.eqb_neq. split.
    + intros H. exists s. auto.
    + intros (s' & [= <-] & H). exact H.
  - split; [discriminate | intros (s & [=] & _)].
Qed.

Lemma strictEq_true (v : option string) (s : string) :
  strictEq v s = true <-> v = Some s.
Proof.
  destruct v as [x|]; simpl.
  - rewrite String.eqb_eq. split; congruence.
  - split; discriminate.
Qed.


Lemma geocellOf_Some (e : NostrEvent) (g : string) :
  geocellOf e = Some g <-> getTagValue e "g" = Some g /\ g <> "".
Proof.
  unfold geocellOf. destruct (truthy (getTagValue e "g")) eqn:Ht.
  - apply truthy_Some in Ht as (s & Hs & Hne). rewrite Hs. split.
    + intros [= <-]. auto.
    + intros [[= <-] _]. reflexivity.
  - split; [discriminate |]. intros [Hg Hne].
    assert (truthy (getTagValue e "g") = true) by (apply truthy_Some; eauto).
    congruence.
Qed.


Lemma countFor_snoc (g : string) (evs : list NostrEvent) (e : NostrEvent) :
  countFor g (evs ++ [e]) =
  (countFor g evs + if decide (getTagValue e "g" = Some g) then 1 else 0)%nat.
Proof.
  unfold countFor. rewrite filter_app, length_app. f_equal.
  rewrite filter_cons, filter_nil. destruct (decide _); reflexivity.
Qed.

Lemma countFor_pos (g : string) (evs : list NostrEvent) :
  (0 < countFor g evs)%nat <-> exists e, e ∈ evs /\ getTagValue e "g" = Some g.
Proof.
  unfold countFor. split.
  - intros H. destruct (filter _ evs) as [|e l] eqn:Hf; [simpl in H; lia |].
    assert (He : e ∈ filter (fun e => getTagValue e "g" = Some g) evs)
      by (rewrite Hf; left).
    apply list_elem_of_filter in He as [Hg Hin]. exists e. auto.
  - intros (e & Hin & Hg).
    assert (He : e ∈ filter (fun e => getTagValue e "g" = Some g) evs)
      by (apply list_elem_of_filter; auto).
    destruct (filter _ evs); [inversion He | simpl; lia].
Qed.

(** ** The insertion-ordered map on a key list *)

Section JsMapFacts.
Context {V : Type}.
Implicit Types (ks : list string) (f : string -> V).


Lemma has_tabulate ks f k :
  JsMap.has k (tabulate ks f) = bool_decide (k ∈ ks).
Proof.
  induction ks as [|k' ks IH]; simpl.
  - reflexivity.
  - destruct (String.eqb_spec k' k) as [-> | Hne].
    + symmetry. apply bool_decide_eq_true. left.
    + rewrite IH. apply bool_decide_ext. rewrite elem_of_cons.
      split; [auto | intros [->|]; [congruence | auto]].
Qed.

Lemma set_tabulate_fresh ks f k v :
  k ∉ ks -> JsMap.set k v (tabulate ks f) = tabulate ks f ++ [(k, v)].
Proof.
  induction ks as [|k' ks IH]; simpl; intros Hk.
  - reflexivity.
  - apply not_elem_of_cons in Hk as [Hne Hk].
    destruct (String.eqb_spec k' k) as [->|_]; [congruence |].
    rewrite IH by assumption. reflexivity.
Qed.

Lemma mutate_tabulate ks f f' h k :
  f' k = h (f k) -> (forall k', k' <> k -> f' k' = f k') ->
  NoDup ks ->
  JsMap.mutate h k (tabulate ks f) = tabulate ks f'.
Proof.
  intros Hk Hother. induction ks as [|k' ks IH]; simpl; intros Hnd.
  - reflexivity.
  - apply NoDup_cons in Hnd as [Hnotin Hnd].
    destruct (String.eqb_spec k' k) as [-> | Hne].
    + rewrite Hk. f_equal. unfold tabulate. apply map_ext_in.
      intros a Ha. rewrite Hother; [reflexivity |].
      intros ->. apply Hnotin. apply list_elem_of_In. exact Ha.
    + rewrite Hother by assumption. f_equal. apply IH. exact Hnd.
Qed.

Lemma tabulate_snoc ks f k : tabulate (ks ++ [k]) f = tabulate ks f ++ [(k, f k)].
Proof. unfold tabulate. rewrite map_app. reflexivity. Qed.

Lemma tabulate_ext ks f f' :
  (forall k, k ∈ ks -> f k = f' k) -> tabulate ks f = tabulate ks f'.
Proof.
  intros H. unfold tabulate. apply map_ext_in. intros k Hk.
  rewrite H; [reflexivity | apply list_elem_of_In; exact Hk].
Qed.
End JsMapFacts.

(** ** The room map in closed form *)




Lemma firstSeen_snoc evs e : firstSeen (evs ++ [e]) = seenStep (firstSeen evs) e.
Proof. unfold firstSeen. rewrite fold_left_app. reflexivity. Qed.

Lemma roomMapOf_snoc evs e :
  roomMapOf (evs ++ [e]) = chatroomsStep (roomMapOf evs) e.
Proof. unfold roomMapOf. rewrite fold_left_app. reflexivity. Qed.

Lemma firstSeen_NoDup evs : NoDup (firstSeen evs).
Proof.
  induction evs as [|e evs IH] using rev_ind.
  - constructor.
  - rewrite firstSeen_snoc. unfold seenStep.
    destruct (geocellOf e) as [g|]; [|exact IH].
    destruct (decide (g ∈ firstSeen evs)) as [|Hnotin]; [exact IH |].
    apply NoDup_app. split; [exact IH |]. split.
    + intros x Hx Hx'. apply list_elem_of_singleton in Hx' as ->. contradiction.
    + apply NoDup_singleton.
Qed.

Lemma elem_of_firstSeen g evs :
  g ∈ firstSeen evs <-> exists e, e ∈ evs /\ geocellOf e = Some g.
Proof.
  induction evs as [|e evs IH] using rev_ind.
  - split; [intros H; inversion H | intros (e & H & _); inversion H].
  - rewrite firstSeen_snoc. unfold seenStep.
    assert (Hsplit : (exists e0, e0 ∈ evs ++ [e] /\ geocellOf e0 = Some g) <->
                     (exists e0, e0 ∈ evs /\ geocellOf e0 = Some g) \/ geocellOf e = Some g).
    { split.
      - intros (e0 & Hin & Hg). apply elem_of_app in Hin as [Hin|Hin].
        + left. eauto.
        + apply list_elem_of_singleton in Hin as ->. right. exact Hg.
      - intros [(e0 & Hin & Hg)|Hg].
        + exists e0. split; [apply elem_of_app; auto | exact Hg].
        + exists e. split; [apply elem_of_app; right; left | exact Hg]. }
    rewrite Hsplit, <- IH. clear Hsplit IH.
    destruct (geocellOf e) as [g'|].
    + destruct (decide (g' ∈ firstSeen evs)) as [Hin|Hnotin].
      * split; [auto |]. intros [H|[= ->]]; assumption.
      * rewrite elem_of_app, list_elem_of_singleton.
        split; (intros [H|H]; [left; exact H | right; congruence]).
    + split; [auto | intros [H|H]; [exact H | discriminate]].
Qed.

Lemma firstSeen_nonempty g evs : g ∈ firstSeen evs -> g <> "".
Proof.
  intros H. apply elem_of_firstSeen in H as (e & _ & Hg).
  apply geocellOf_Some in Hg. tauto.
Qed.

Lemma firstSeen_countFor g evs : g ∈ firstSeen evs <-> g <> "" /\ (0 < countFor g evs)%nat.
Proof.
  rewrite elem_of_firstSeen, countFor_pos. split.
  - intros (e & Hin & Hg). apply geocellOf_Some in Hg as [Hg Hne]. eauto.
  - intros (Hne & e & Hin & Hg). exists e. split; [exact Hin |].
    apply geocellOf_Some. auto.
Qed.

Lemma incrementCount_roomFor evs e g :
  getTagValue e "g" = Some g ->
  roomFor (evs ++ [e]) g = incrementCount (roomFor evs g).
Proof.
  intros Hg. unfold roomFor, incrementCount. simpl. f_equal.
  rewrite countFor_snoc. destruct (decide _); [lia | contradiction].
Qed.

Lemma roomFor_other evs e k :
  getTagValue e "g" <> Some k -> roomFor (evs ++ [e]) k = roomFor evs k.
Proof.
  intros Hg. unfold roomFor. f_equal.
  rewrite countFor_snoc. destruct (decide _); [contradiction | lia].
Qed.

(** After the [forEach], [roomMap] holds, for each geocell met and in the
    order of first encounter, the room with that geocell's count. *)
Lemma roomMapOf_closed evs :
  roomMapOf evs = tabulate (firstSeen evs) (roomFor evs).
Proof.
  induction evs as [|e evs IH] using rev_ind; [reflexivity |].
  rewrite roomMapOf_snoc, firstSeen_snoc, IH. clear IH.
  unfold chatroomsStep, seenStep.
  pose proof (firstSeen_NoDup evs) as Hnd.
  destruct (truthy (getTagValue e "g")) eqn:Ht.
  - apply truthy_Some in Ht as (g & Hg & Hne).
    assert (Hcell : geocellOf e = Some g) by (apply geocellOf_Some; auto).
    rewrite Hcell, Hg, has_tabulate.
    assert (Hrest : forall k', k' <> g -> roomFor (evs ++ [e]) k' = roomFor evs k').
    { intros k' Hk'. apply roomFor_other. rewrite Hg. congruence. }
    destruct (decide (g ∈ firstSeen evs)) as [Hin|Hnotin].
    + rewrite bool_decide_eq_true_2 by assumption. simpl.
      apply mutate_tabulate; auto using incrementCount_roomFor.
    + rewrite bool_decide_eq_false_2 by assumption. simpl.
      rewrite set_tabulate_fresh by assumption.
      set (room0 := {| geohash := g; name := "#" ++ g; messageCount := 0 |}).
      assert (H0 : roomFor evs g = room0).
      { unfold roomFor, room0. f_equal.
        destruct (countFor g evs) eqn:Hc; [reflexivity |].
        exfalso. apply Hnotin, firstSeen_countFor. split; [exact Hne | lia]. }
      rewrite <- H0, <- tabulate_snoc.
      apply mutate_tabulate; auto using incrementCount_roomFor.
      apply NoDup_app. split; [exact Hnd |]. split; [|apply NoDup_singleton].
      intros x Hx Hx'. apply list_elem_of_singleton in Hx' as ->. contradiction.
  - assert (Hcell : geocellOf e = None) by (unfold geocellOf; rewrite Ht; reflexivity).
    rewrite Hcell. apply tabulate_ext. intros k Hk. symmetry.
    apply roomFor_other. intros Hg.
    assert (truthy (getTagValue e "g") = true); [|congruence].
    apply truthy_Some. exists k. split; [exact Hg |].
    eapply firstSeen_nonempty; eauto.
Qed.

Lemma values_tabulate {V} (ks : list string) (f : string -> V) :
  JsMap.values (tabulate ks f) = map f ks.
Proof.
  unfold JsMap.values, tabulate. rewrite map_map. reflexivity.
Qed.

(** ** Relative order inside a list *)


Section Precedes.
Context {A : Type}.
Implicit Types (l r : list A) (a b x : A).

Lemma precedes_lookup l a b :
  precedes l a b <->
  exists i j, (i < j)%nat /\ l !! i = Some a /\ l !! j = Some b.
Proof.
  induction l as [|x l IH]; simpl.
  - split; [tauto | intros (i & j & _ & H & _); discriminate].
  - rewrite IH. clear IH. split.
    + intros [[-> Hb]|(i & j & Hij & Hi & Hj)].
      * apply list_elem_of_lookup in Hb as [j Hj].
        exists 0%nat, (S j). split; [lia | auto].
      * exists (S i), (S j). split; [lia | auto].
    + intros (i & j & Hij & Hi & Hj).
      destruct j as [|j]; [lia |]. simpl in Hj.
      destruct i as [|i]; simpl in Hi.
      * left. split; [congruence |]. apply list_elem_of_lookup. eauto.
      * right. exists i, j. split; [lia | auto].
Qed.

Lemma precedes_app l r a b :
  precedes (l ++ r) a b <->
  precedes l a b \/ (a ∈ l /\ b ∈ r) \/ precedes r a b.
Proof.
  induction l as [|x l IH]; simpl.
  - split; [auto |]. intros [[]|[[H _]|H]]; [inversion H | exact H].
  - rewrite IH, elem_of_app, elem_of_cons. clear IH. split.
    + intros [[-> [Hb|Hb]]|[H|[[Ha Hb]|H]]]; auto 6.
    + intros [[[-> Hb]|H]|[[[->|Ha] Hb]|H]]; auto 6.
Qed.

(** Inserting [x] somewhere adds only the pairs that involve [x]. *)
Lemma precedes_insert l r x a b :
  precedes (l ++ x :: r) a b ->
  precedes (l ++ r) a b \/ (a ∈ l /\ b = x) \/ (a = x /\ b ∈ r).
Proof.
  rewrite !precedes_app. simpl. rewrite elem_of_cons.
  intros [H|[[Ha [->|Hb]]|[[-> Hb]|H]]]; auto 6.
Qed.

Lemma precedes_map {B : Type} (f : A -> B) l (u v : B) :
  precedes (map f l) u v ->
  exists a b, u = f a /\ v = f b /\ precedes l a b.
Proof.
  induction l as [|x l IH]; simpl; [tauto |].
  intros [[<- Hv]|H].
  - apply list_elem_of_fmap in Hv as (b & -> & Hb).
    exists x, b. auto.
  - apply IH in H as (a & b & -> & -> & H). exists a, b. auto.
Qed.
End Precedes.

(** ** The sort is a stable sort by descending key *)

Section SortFacts.
Context {A : Type} (compareFn : A -> A -> Z) (key : A -> nat).
Hypothesis compareFn_key :
  forall a b, compareFn a b = (Z.of_nat (key b) - Z.of_nat (key a))%Z.

Abbreviation descending := (fun a b : A => (key b <= key a)%nat).

(** [sortInsert] walks past the elements with a strictly larger key and
    stops in front of the first one whose key is not larger. *)
Lemma sortInsert_split x s :
  StronglySorted descending s ->
  exists s1 s2, s = s1 ++ s2 /\ sortInsert compareFn x s = s1 ++ x :: s2 /\
    Forall (fun y => (key x < key y)%nat) s1 /\
    Forall (fun y => (key y <= key x)%nat) s2.
Proof.
  induction s as [|y s IH]; simpl; intros Hs.
  - exists [], []. repeat split; constructor.
  - apply StronglySorted_inv in Hs as [Hs Hy].
    rewrite compareFn_key. destruct (Z.ltb_spec 0 (Z.of_nat (key y) - Z.of_nat (key x))) as [Hlt|Hge].
    + destruct (IH Hs) as (s1 & s2 & -> & -> & H1 & H2).
      exists (y :: s1), s2. repeat split; auto.
      constructor; [lia | exact H1].
    + exists [], (y :: s). repeat split; auto.
      constructor; [lia |].
      eapply Forall_impl; [exact Hy |]. simpl. intros z Hz. lia.
Qed.

Lemma arraySort_Permutation l : arraySort compareFn l ≡ₚ l.
Proof.
  induction l as [|x l IH]; simpl; [reflexivity |].
  rewrite <- IH at 2. clear IH.
  induction (arraySort compareFn l) as [|y s IHs]; simpl; [reflexivity |].
  destruct (0 <? compareFn x y)%Z; [|reflexivity].
  rewrite IHs. apply Permutation_swap.
Qed.

Lemma arraySort_sorted l : StronglySorted descending (arraySort compareFn l).
Proof.
  induction l as [|x l IH]; simpl; [constructor |].
  destruct (sortInsert_split x _ IH) as (s1 & s2 & Hs & -> & H1 & H2).
  rewrite Hs in IH. apply StronglySorted_app in IH as (H12 & Hs1 & Hs2).
  apply StronglySorted_app. split; [|split; [exact Hs1 |]].
  - intros a b Ha Hb. apply elem_of_cons in Hb as [->|Hb].
    + rewrite Forall_forall in H1. specialize (H1 a Ha). simpl in H1. lia.
    + apply H12; assumption.
  - constructor; [exact Hs2 | exact H2].
Qed.

(** Stability: two elements end up in the order of their keys, and in
    their original order when the keys are equal. *)
Lemma arraySort_stable l a b :
  precedes (arraySort compareFn l) a b ->
  (key b <= key a)%nat /\ (key a = key b -> precedes l a b).
Proof.
  revert a b. induction l as [|x l IH]; simpl; intros a b; [tauto |].
  destruct (sortInsert_split x _ (arraySort_sorted l)) as (s1 & s2 & Hs & -> & H1 & H2).
  rewrite Forall_forall in H1, H2.
  intros Hp. apply precedes_insert in Hp as [Hp|[[Ha ->]|[-> Hb]]].
  - rewrite <- Hs in Hp. apply IH in Hp as [Hk Hp]. auto.
  - specialize (H1 a Ha). simpl in H1. split; lia.
  - specialize (H2 b Hb). simpl in H2. split; [exact H2 |].
    intros _. left. split; [reflexivity |].
    rewrite <- (arraySort_Permutation l), Hs, elem_of_app. auto.
Qed.
End SortFacts.

(** ** First encounter in the scan *)


Lemma firstIndex_seen g evs :
  g ∈ firstSeen evs -> exists p, firstIndex g evs = Some p /\ (p < length evs)%nat.
Proof.
  intros Hg. apply elem_of_firstSeen in Hg as (e & Hin & Hcell).
  apply geocellOf_Some in Hcell as [Hcell _].
  destruct (list_find_elem_of (fun e => getTagValue e "g" = Some g) evs e Hin Hcell)
    as [[p x] Hp].
  exists p. unfold firstIndex. rewrite Hp. split; [reflexivity |].
  apply list_find_Some in Hp as (Hl & _). eapply lookup_lt_Some; eauto.
Qed.

Lemma firstIndex_app_l g evs l p :
  firstIndex g evs = Some p -> firstIndex g (evs ++ l) = Some p.
Proof.
  unfold firstIndex. intros H.
  destruct (list_find _ evs) as [[i x]|] eqn:Hf; [|discriminate].
  rewrite (list_find_app_l _ _ _ _ _ Hf). exact H.
Qed.

Lemma firstIndex_new g evs e :
  g <> "" -> g ∉ firstSeen evs -> getTagValue e "g" = Some g ->
  firstIndex g (evs ++ [e]) = Some (length evs).
Proof.
  intros Hne Hnotin Hg. unfold firstIndex.
  assert (Hnone : list_find (fun e => getTagValue e "g" = Some g) evs = None).
  { apply list_find_None, Forall_forall. intros x Hx Hgx.
    apply Hnotin, elem_of_firstSeen. exists x. split; [exact Hx |].
    apply geocellOf_Some. auto. }
  rewrite list_find_app_r by exact Hnone. simpl.
  destruct (decide (getTagValue e "g" = Some g)); [reflexivity | contradiction].
Qed.

(** The key order of [roomMap] is the order of first encounter. *)
Lemma firstSeen_precedes evs g1 g2 :
  precedes (firstSeen evs) g1 g2 ->
  exists p1 p2, firstIndex g1 evs = Some p1 /\ firstIndex g2 evs = Some p2 /\
                (p1 < p2)%nat.
Proof.
  induction evs as [|e evs IH] using rev_ind; [intros [] |].
  rewrite firstSeen_snoc. unfold seenStep.
  assert (Hold : precedes (firstSeen evs) g1 g2 ->
    exists p1 p2, firstIndex g1 (evs ++ [e]) = Some p1 /\
                  firstIndex g2 (evs ++ [e]) = Some p2 /\ (p1 < p2)%nat).
  { intros H. destruct (IH H) as (p1 & p2 & H1 & H2 & Hlt).
    exists p1, p2. auto using firstIndex_app_l. }
  destruct (geocellOf e) as [g|] eqn:Hcell; [|exact Hold].
  destruct (decide (g ∈ firstSeen evs)) as [|Hnotin]; [exact Hold |].
  rewrite precedes_app. simpl.
  intros [H|[[H1 H2]|[[_ H]|[]]]]; [auto | | inversion H].
  apply list_elem_of_singleton in H2 as ->.
  apply geocellOf_Some in Hcell as [Hg Hne].
  destruct (firstIndex_seen _ _ H1) as (p1 & Hp1 & Hlt).
  exists p1, (length evs).
  auto using firstIndex_app_l, firstIndex_new.
Qed.

(** ** The chatroom list *)

Lemma chatrooms_closed evs :
  chatrooms (Some evs) = arraySort byCountDesc (map (roomFor evs) (firstSeen evs)).
Proof.
  unfold chatrooms. rewrite roomMapOf_closed, values_tabulate. reflexivity.
Qed.

Lemma elem_of_chatrooms evs room :
  room ∈ chatrooms (Some evs) <->
  exists g, g ∈ firstSeen evs /\ room = roomFor evs g.
Proof.
  rewrite chatrooms_closed.
  rewrite (arraySort_Permutation byCountDesc).
  rewrite list_elem_of_fmap. split; intros (g & H1 & H2); exists g; auto.
Qed.

(** The output depends on the timeline only through the sequence of first
    [g] tag values. *)
Lemma roomMapOf_tags evs evs' :
  map (fun e => getTagValue e "g") evs = map (fun e => getTagValue e "g") evs' ->
  roomMapOf evs = roomMapOf evs'.
Proof.
  unfold roomMapOf. generalize (@JsMap.empty Chatroom).
  revert evs'. induction evs as [|e evs IH]; intros [|e' evs'] m; simpl;
    try discriminate; [reflexivity |].
  intros [= He Hrest]. rewrite (IH evs' _ Hrest). f_equal.
  unfold chatroomsStep. rewrite He. reflexivity.
Qed.

(** C3.  Every chatroom of the aggregator's output has [messageCount] equal
    to the number of timeline events whose first [g] tag value is the
    chatroom's geocell, has the label ["#"] followed by the geocell, and has a
    non-zero [messageCount]; and the output is determined by the timeline
    (indeed by the sequence of first [g] tag values of its events). *)
Theorem chatrooms_counts (evs : list NostrEvent) (room : Chatroom) :
  room ∈ chatrooms (Some evs) ->
  messageCount room =
    length (filter (fun e => getTagValue e "g" = Some (geohash room)) evs) /\
  name room = ("#" ++ geohash room)%string /\
  messageCount room <> 0%nat /\
  (forall evs',
     map (fun e => getTagValue e "g") evs' = map (fun e => getTagValue e "g") evs ->
     chatrooms (Some evs') = chatrooms (Some evs)).
Proof.
  intros Hroom. apply elem_of_chatrooms in Hroom as (g & Hg & ->).
  simpl. repeat split.
  - apply firstSeen_countFor in Hg as [_ Hpos]. lia.
  - intros evs' Htags. unfold chatrooms.
    rewrite (roomMapOf_tags _ _ Htags). reflexivity.
Qed.

(** C7.  The chatroom list is ordered by descending [messageCount], and two
    chatrooms with the same [messageCount] stand in the order in which the
    scan of the timeline first met their geocells. *)
Theorem chatrooms_sorted_stable (evs : list NostrEvent) (i j : nat) (ri rj : Chatroom) :
  (i < j)%nat ->
  chatrooms (Some evs) !! i = Some ri ->
  chatrooms (Some evs) !! j = Some rj ->
  (messageCount rj <= messageCount ri)%nat /\
  (messageCount ri = messageCount rj ->
   exists pi pj, firstIndex (geohash ri) evs = Some pi /\
                 firstIndex (geohash rj) evs = Some pj /\ (pi < pj)%nat).
Proof.
  intros Hij Hi Hj.
  assert (Hp : precedes (chatrooms (Some evs)) ri rj)
    by (apply precedes_lookup; eauto).
  rewrite chatrooms_closed in Hp.
  apply (arraySort_stable byCountDesc messageCount (fun a b => eq_refl)) in Hp
    as [Hle Hstable].
  split; [exact Hle |]. intros Heq.
  apply Hstable, precedes_map in Heq as (gi & gj & -> & -> & Hp).
  simpl. apply firstSeen_precedes. exact Hp.
Qed.

Example chatrooms_scenarioA :
  chatrooms (Some scenarioA) =
  [ {| geohash := "u4"; name := "#u4"; messageCount := 2 |};
    {| geohash := "u5"; name := "#u5"; messageCount := 1 |} ].
Proof. reflexivity. Qed.

Lemma chatrooms_counts_witness :
  let room := {| geohash := "u4"; name := "#u4"; messageCount := 2 |} in
  messageCount room =
    length (filter (fun e => getTagValue e "g" = Some (geohash room)) scenarioA) /\
  name room = ("#" ++ geohash room)%string /\
  messageCount room <> 0%nat /\
  (forall evs',
     map (fun e => getTagValue e "g") evs' = map (fun e => getTagValue e "g") scenarioA ->
     chatrooms (Some evs') = chatrooms (Some scenarioA)).
Proof.
  apply (chatrooms_counts scenarioA). vm_compute. left.
Defined.

(** A tie: [u5] and [u4] both have one message and [u5] was met first. *)
Lemma chatrooms_sorted_stable_witness :
  (1 <= 1)%nat /\
  (1%nat = 1%nat ->
   exists pi pj, firstIndex "u5" [evC; evA; evNoTag] = Some pi /\
                 firstIndex "u4" [evC; evA; evNoTag] = Some pj /\ (pi < pj)%nat).
Proof.
  exact (chatrooms_sorted_stable [evC; evA; evNoTag] 0 1
           {| geohash := "u5"; name := "#u5"; messageCount := 1 |}
           {| geohash := "u4"; name := "#u4"; messageCount := 1 |}
           ltac:(lia) eq_refl eq_refl).
Defined.

(** ** The filter view *)

Lemma filter_strictEq (s : string) (evs : list NostrEvent) :
  List.filter (fun event => strictEq (getTagValue event "g") s) evs =
  filter (fun e => getTagValue e "g" = Some s) evs.
Proof.
  induction evs as [|e evs IH]; [reflexivity |].
  simpl. rewrite filter_cons, IH.
  destruct (strictEq (getTagValue e "g") s) eqn:Heq.
  - apply strictEq_true in Heq. destruct (decide _); [reflexivity | contradiction].
  - destruct (decide (getTagValue e "g" = Some s)) as [Hg|]; [|reflexivity].
    apply strictEq_true in Hg. congruence.
Qed.

(** The claim C4 read literally, with the empty string as selection: the code
    returns the whole timeline, while no event of it has the empty string as
    its first [g] tag value. *)
Lemma filteredEvents_empty_selection_counterexample :
  filteredEvents (Some scenarioA) (Some "") = Some scenarioA /\
  filter (fun e => getTagValue e "g" = Some "") scenarioA = [] /\
  filteredEvents (Some scenarioA) (Some "") <>
    Some (filter (fun e => getTagValue e "g" = Some "") scenarioA).
Proof. repeat split. discriminate. Qed.

(** C4 (amended).  With no selection the filter returns the timeline itself;
    with a selection [s] other than the empty string it returns exactly the
    events whose first [g] tag value is [s], as a subsequence of the timeline
    (relative order kept).  The result is a function of the two inputs. *)
Theorem filteredEvents_correct (evs : list NostrEvent) (sel : option string) :
  sel <> Some "" ->
  exists out, filteredEvents (Some evs) sel = Some out /\
    match sel with
    | None => out = evs
    | Some s =>
        out = filter (fun e => getTagValue e "g" = Some s) evs /\
        out `sublist_of` evs /\
        (forall e, e ∈ out <-> e ∈ evs /\ getTagValue e "g" = Some s)
    end.
Proof.
  intros Hsel. destruct sel as [s|]; simpl.
  - destruct (String.eqb_spec s "") as [-> | Hne]; [congruence |]. simpl.
    eexists. split; [reflexivity |]. rewrite filter_strictEq.
    split; [reflexivity |]. split; [apply sublist_filter |].
    intros e. rewrite list_elem_of_filter. tauto.
  - exists evs. auto.
Qed.

Lemma filteredEvents_correct_witness :
  exists out, filteredEvents (Some [evA; evC; evB]) (Some "u4") = Some out /\
    (out = filter (fun e => getTagValue e "g" = Some "u4") [evA; evC; evB] /\
     out `sublist_of` [evA; evC; evB] /\
     (forall e, e ∈ out <-> e ∈ [evA; evC; evB] /\ getTagValue e "g" = Some "u4")).
Proof.
  apply (filteredEvents_correct [evA; evC; evB] (Some "u4")). discriminate.
Defined.

Example filteredEvents_scenarioC :
  filteredEvents (Some [evA; evC; evB]) (Some "u4") = Some [evA; evB].
Proof. reflexivity. Qed.

(** ** The empty geocell *)

Lemma chatroomsStep_falsy (m : JsMap.t Chatroom) (e : NostrEvent) :
  truthy (getTagValue e "g") = false -> chatroomsStep m e = m.
Proof. intros H. unfold chatroomsStep. rewrite H. reflexivity. Qed.

(** C10.  An event whose first [g] tag value is the empty string contributes
    to no chatroom: the chatroom list is the one of the timeline without the
    event, and no chatroom has the empty geocell.  Filtering with the empty
    string as selection returns the whole timeline, as with no selection. *)
Theorem empty_geocell_is_absent (before after : list NostrEvent) (e : NostrEvent) :
  getTagValue e "g" = Some "" ->
  chatrooms (Some (before ++ e :: after)) = chatrooms (Some (before ++ after)) /\
  (forall room, room ∈ chatrooms (Some (before ++ e :: after)) -> geohash room <> "") /\
  filteredEvents (Some (before ++ e :: after)) (Some "") = Some (before ++ e :: after) /\
  filteredEvents (Some (before ++ e :: after)) (Some "") =
    filteredEvents (Some (before ++ e :: after)) None.
Proof.
  intros Hg. split; [|split; [|split; reflexivity]].
  - unfold chatrooms, roomMapOf. rewrite !fold_left_app. simpl.
    rewrite chatroomsStep_falsy; [reflexivity |]. rewrite Hg. reflexivity.
  - intros room Hroom. apply elem_of_chatrooms in Hroom as (g & Hin & ->).
    simpl. eapply firstSeen_nonempty. exact Hin.
Qed.

Lemma empty_geocell_is_absent_witness :
  chatrooms (Some ([evA] ++ evEmpty :: [evC])) = chatrooms (Some ([evA] ++ [evC])) /\
  (forall room, room ∈ chatrooms (Some ([evA] ++ evEmpty :: [evC])) -> geohash room <> "") /\
  filteredEvents (Some ([evA] ++ evEmpty :: [evC])) (Some "") = Some ([evA] ++ evEmpty :: [evC]) /\
  filteredEvents (Some ([evA] ++ evEmpty :: [evC])) (Some "") =
    filteredEvents (Some ([evA] ++ evEmpty :: [evC])) None.
Proof.
  apply (empty_geocell_is_absent [evA] [evC] evEmpty). reflexivity.
Defined.

(** ** Event Store and Timeline Aggregator *)

Lemma coreInv_init : coreInv coreInit.
Proof.
  split; [constructor |]. intros i e. unfold coreInit, EventStore.empty. simpl.
  rewrite lookup_empty.
  split; [discriminate | intros [H _]; inversion H].
Qed.

Lemma submit_known (c : Core) (e e0 : NostrEvent) :
  store c !! id e = Some e0 -> submit c e = (c, false).
Proof.
  intros H. unfold submit, EventStore.admitRecord, EventStore.contains.
  rewrite H. reflexivity.
Qed.

Lemma submit_new (c : Core) (e : NostrEvent) :
  store c !! id e = None ->
  submit c e = ({| store := <[id e := e]> (store c); timeline := timeline c ++ [e] |}, true).
Proof.
  intros H. unfold submit, EventStore.admitRecord, EventStore.contains.
  rewrite H. reflexivity.
Qed.

Lemma coreInv_submit (c : Core) (e : NostrEvent) :
  coreInv c -> coreInv (fst (submit c e)).
Proof.
  intros [Hnd Hst]. destruct (store c !! id e) as [e0|] eqn:Hlook.
  - rewrite (submit_known _ _ _ Hlook). split; assumption.
  - rewrite (submit_new _ _ Hlook). split; cbn [fst timeline store].
    + rewrite fmap_app. apply NoDup_app. split; [exact Hnd |].
      split; [|apply NoDup_singleton].
      intros i Hi Hi'. apply list_elem_of_singleton in Hi' as ->.
      apply list_elem_of_fmap in Hi as (e' & Heq & Hin).
      assert (store c !! id e = Some e') by (apply Hst; auto). congruence.
    + intros i x. rewrite elem_of_app, list_elem_of_singleton.
      destruct (decide (id e = i)) as [<-|Hne].
      * rewrite lookup_insert_eq. split.
        -- intros [= ->]. auto.
        -- intros [[Hin| ->] Hid]; [|reflexivity].
           assert (store c !! id e = Some x) by (apply Hst; auto). congruence.
      * rewrite lookup_insert_ne by exact Hne. rewrite Hst. split.
        -- intros [Hin Hid]. auto.
        -- intros [[Hin| ->] Hid]; [auto | contradiction].
Qed.

Lemma submitAll_snoc (c : Core) (es : list NostrEvent) (e : NostrEvent) :
  submitAll c (es ++ [e]) = fst (submit (submitAll c es) e).
Proof. unfold submitAll. rewrite fold_left_app. reflexivity. Qed.

Lemma coreInv_submitAll (c : Core) (es : list NostrEvent) :
  coreInv c -> coreInv (submitAll c es).
Proof.
  revert c. induction es as [|e es IH]; intros c Hc; [exact Hc |].
  simpl. apply IH, coreInv_submit, Hc.
Qed.


(** ** The published events *)



Lemma notOlder_trans : Transitive notOlder.
Proof. unfold notOlder. intros a b c. lia. Qed.

















Lemma entries_unique (c : Core) (e : NostrEvent) :
  coreInv c -> store c !! id e = Some e ->
  EventStore.entries (id e) (store c) = {[ id e := e ]}.
Proof.
  intros [_ Hst] Hlook. unfold EventStore.entries. apply map_eq. intros k.
  destruct (decide (k = id e)) as [-> | Hne].
  - rewrite lookup_singleton_eq. apply map_lookup_filter_Some. auto.
  - rewrite lookup_singleton_ne by congruence.
    apply map_lookup_filter_None. right. intros x Hx Hid. simpl in Hid.
    apply Hst in Hx as [_ Hx]. congruence.
Qed.

Lemma filter_id_unique (l : list NostrEvent) (x : NostrEvent) :
  NoDup (id <$> l) -> x ∈ l -> filter (fun y => id y = id x) l = [x].
Proof.
  induction l as [|y l IH]; intros Hnd Hin; [inversion Hin |].
  rewrite fmap_cons in Hnd. apply NoDup_cons in Hnd as [Hy Hnd].
  rewrite filter_cons. destruct (decide (id y = id x)) as [Heq|Hne].
  - assert (Hnone : forall z, z ∈ l -> id z <> id x).
    { intros z Hz Hzx. apply Hy. rewrite Heq, <- Hzx.
      apply list_elem_of_fmap. eauto. }
    apply elem_of_cons in Hin as [->|Hin]; [|exfalso; eapply Hnone; eauto].
    f_equal. clear -Hnone. induction l as [|z l IH]; [reflexivity |].
    rewrite filter_cons. destruct (decide (id z = id y)) as [Hz|_].
    + exfalso. apply (Hnone z); [left | exact Hz].
    + apply IH. intros w Hw. apply Hnone. right. exact Hw.
  - apply elem_of_cons in Hin as [->|Hin]; [contradiction |]. auto.
Qed.

Lemma submit_stored (c : Core) (e : NostrEvent) :
  is_Some (store (fst (submit c e)) !! id e).
Proof.
  destruct (store c !! id e) as [e0|] eqn:Hlook.
  - rewrite (submit_known _ _ _ Hlook). simpl. rewrite Hlook. eauto.
  - rewrite (submit_new _ _ Hlook). simpl. rewrite lookup_insert_eq. eauto.
Qed.

(** C2.  Once a record with the id of [e] has been submitted, the store holds
    exactly one record under that id and the timeline exactly one event with
    it; submitting any record [e'] with the same id again leaves store and
    timeline as they are and reports non-admission (a value, not an error). *)
Theorem duplicate_submission (earlier : list NostrEvent) (e e' : NostrEvent) :
  id e' = id e ->
  let c := submitAll coreInit (earlier ++ [e]) in
  submit c e' = (c, false) /\
  size (EventStore.entries (id e) (store c)) = 1%nat /\
  length (filter (fun x => id x = id e) (timeline c)) = 1%nat /\
  (id e ∉ id <$> earlier -> filter (fun x => id x = id e) (timeline c) = [e]).
Proof.
  intros Hid c.
  assert (Hinv : coreInv c) by apply coreInv_submitAll, coreInv_init.
  assert (Hsome : is_Some (store c !! id e))
    by (unfold c; rewrite submitAll_snoc; apply submit_stored).
  destruct Hsome as [x Hx].
  pose proof Hinv as [Hnd Hst]. pose proof (proj1 (Hst _ _) Hx) as [Hin Hidx].
  split; [apply (submit_known c e' x); rewrite Hid; exact Hx |].
  rewrite <- Hidx in Hx |- *.
  rewrite (entries_unique c x Hinv Hx), (filter_id_unique _ x Hnd Hin).
  split; [apply map_size_singleton |]. split; [reflexivity |].
  intros Hfresh. f_equal. unfold c in Hin. rewrite submitAll_snoc in Hin.
  set (c0 := submitAll coreInit earlier) in *.
  assert (Hinv0 : coreInv c0) by apply coreInv_submitAll, coreInv_init.
  destruct (store c0 !! id e) as [e0|] eqn:Hlook.
  - exfalso. apply Hfresh. apply Hinv0 in Hlook as [He0 Hid0].
    apply list_elem_of_fmap. exists e0. split; [congruence |].
    (* the timeline of [c0] only holds submitted records *)
    clear -He0. unfold c0 in He0. revert He0.
    induction earlier as [|y l IH] using rev_ind; [intros H; inversion H |].
    rewrite submitAll_snoc. intros H.
    destruct (store (submitAll coreInit l) !! id y) as [y0|] eqn:Hy.
    + rewrite (submit_known _ _ _ Hy) in H. apply elem_of_app. left. auto.
    + rewrite (submit_new _ _ Hy) in H. simpl in H.
      apply elem_of_app in H as [H|H]; apply elem_of_app; [left; auto | right; exact H].
  - rewrite (submit_new _ _ Hlook) in Hin. simpl in Hin.
    apply elem_of_app in Hin as [Hin|Hin].
    + exfalso. assert (store c0 !! id x = Some x) by (apply Hinv0; auto). congruence.
    + apply list_elem_of_singleton in Hin. exact Hin.
Qed.

(** Scenario B: [a], [a] again, then [b]. *)
Lemma duplicate_submission_witness :
  let c := submitAll coreInit ([] ++ [evA]) in
  submit c evA = (c, false) /\
  size (EventStore.entries (id evA) (store c)) = 1%nat /\
  length (filter (fun x => id x = id evA) (timeline c)) = 1%nat /\
  (id evA ∉ id <$> [] -> filter (fun x => id x = id evA) (timeline c) = [evA]).
Proof.
  apply (duplicate_submission [] evA evA). reflexivity.
Defined.

Example timeline_scenarioB :
  timeline (submitAll coreInit [evA; evA; evB]) = [evA; evB].
Proof. vm_compute. reflexivity. Qed.

(** ** The display reversal *)

(** C8.  Reversing for display works on a copy: the array the timeline was
    published in keeps its elements in their order, the result is a different
    array holding the reversed sequence, and no other array changes. *)
Theorem reversedCopy_keeps_timeline (h : gmap positive (list NostrEvent))
    (t : positive) (xs : list NostrEvent) :
  h !! t = Some xs ->
  exists r h', reversedCopy t h = Some (r, h') /\
    r <> t /\
    h' !! t = Some xs /\
    h' !! r = Some (rev xs) /\
    (forall a, a <> r -> h' !! a = h !! a).
Proof.
  intros Ht. unfold reversedCopy, Heap.spread, Heap.reverse. rewrite Ht.
  set (b := fresh (dom h)).
  assert (Hb : h !! b = None) by (apply not_elem_of_dom, is_fresh).
  rewrite lookup_insert_eq. exists b, (<[b := rev xs]> (<[b := xs]> h)).
  assert (Hne : b <> t) by congruence.
  split; [reflexivity |]. split; [exact Hne |]. split.
  - rewrite !lookup_insert_ne by exact Hne. exact Ht.
  - split; [apply lookup_insert_eq |].
    intros a Ha. rewrite !lookup_insert_ne by congruence. reflexivity.
Qed.

Lemma reversedCopy_keeps_timeline_witness :
  exists r h', reversedCopy 1%positive {[ 1%positive := scenarioA ]} = Some (r, h') /\
    r <> 1%positive /\
    h' !! 1%positive = Some scenarioA /\
    h' !! r = Some (rev scenarioA) /\
    (forall a, a <> r -> h' !! a = ({[ 1%positive := scenarioA ]} : gmap positive (list NostrEvent)) !! a).
Proof.
  apply (reversedCopy_keeps_timeline {[ 1%positive := scenarioA ]} 1%positive scenarioA).
  apply lookup_singleton_eq.
Defined.

(** ** The geocell decoder: failure *)

Lemma indexOfFrom_spec (s : string) (c : ascii) (i : Z) :
  (indexOfFrom i c s = -1 /\ c ∉ list_ascii_of_string s \/
   i <= indexOfFrom i c s < i + Z.of_nat (String.length s) /\
   c ∈ list_ascii_of_string s)%Z \/ (i < 0)%Z.
Proof.
  destruct (Z.ltb_spec i 0) as [Hneg|Hpos]; [right; exact Hneg | left].
  revert i Hpos. induction s as [|d s IH]; intros i Hpos; simpl.
  - left. split; [reflexivity | apply not_elem_of_nil].
  - destruct (Ascii.eqb_spec d c) as [-> | Hne].
    + right. split; [lia | left].
    + destruct (IH (i + 1)%Z ltac:(lia)) as [[Heq Hnotin]|[Hrange Hin]].
      * left. split; [exact Heq |]. apply not_elem_of_cons. auto.
      * right. split; [lia | right; exact Hin].
Qed.

(** A character is outside the alphabet exactly when [indexOf] is [-1]. *)
Lemma indexOf_base32 (c : ascii) :
  indexOf base32 c = (-1)%Z <-> c ∉ list_ascii_of_string base32.
Proof.
  unfold indexOf. destruct (indexOfFrom_spec base32 c 0) as [[[H1 H2]|[H1 H2]]|H]; [| |lia].
  - tauto.
  - split; [lia | contradiction].
Qed.

Section DecoderFacts.
Context {N : Type}.
Context (zero ninety oneEighty : N) (half : N -> N) (add sub : N -> N -> N).

(** The loop returns [null] exactly on the strings with a character outside
    the alphabet, whatever the arithmetic does. *)
Lemma decodeLoop_None (geohash : string) (st : Dec.state N) :
  decodeLoop half add sub geohash st = None <->
  exists c, c ∈ list_ascii_of_string geohash /\ c ∉ list_ascii_of_string base32.
Proof.
  revert st. induction geohash as [|c rest IH]; intros st; simpl.
  - split; [discriminate | intros (c & H & _); inversion H].
  - destruct (Z.eqb_spec (indexOf base32 c) (-1)) as [Heq|Hne].
    + split; [|reflexivity]. intros _. exists c.
      split; [left | apply indexOf_base32; exact Heq].
    + rewrite IH. split.
      * intros (c' & Hin & Hout). exists c'. split; [right; exact Hin | exact Hout].
      * intros (c' & Hin & Hout). exists c'. split; [|exact Hout].
        apply elem_of_cons in Hin as [->|Hin]; [|exact Hin].
        exfalso. apply Hne, indexOf_base32, Hout.
Qed.

Lemma decodeWith_None (geohash : string) :
  decodeWith zero ninety oneEighty half add sub geohash = None <->
  exists c, c ∈ list_ascii_of_string geohash /\ c ∉ list_ascii_of_string base32.
Proof.
  unfold decodeWith. rewrite <- (decodeLoop_None geohash (decodeInit zero ninety oneEighty)).
  destruct (decodeLoop _ _ _ _ _); split; congruence.
Qed.
End DecoderFacts.

(** C5.  [decodeGeohash ""] is [(0, 0)]; [decodeGeohash "s"] is a point whose
    latitude lies strictly between 0 and 90 and whose longitude lies strictly
    between 0 and 180 (it is [(22.5, 22.5)]); ["a"], and any string with a
    character outside the 32-symbol alphabet, gives [null] and no partial
    result.  The decoder is a function of its input string. *)
Theorem decodeGeohash_P5 :
  decodeGeohash "" = Some {| lat := 0%float; lng := 0%float |} /\
  (exists p, decodeGeohash "s" = Some p /\
     PrimFloat.ltb 0 (lat p) = true /\ PrimFloat.ltb (lat p) 90 = true /\
     PrimFloat.ltb 0 (lng p) = true /\ PrimFloat.ltb (lng p) 180 = true) /\
  decodeGeohash "s" = Some {| lat := 22.5%float; lng := 22.5%float |} /\
  decodeGeohash "a" = None /\
  (forall geohash c,
     c ∈ list_ascii_of_string geohash -> c ∉ list_ascii_of_string base32 ->
     decodeGeohash geohash = None).
Proof.
  split; [reflexivity |]. split.
  { exists {| lat := 22.5%float; lng := 22.5%float |}. repeat split. }
  split; [reflexivity |]. split; [reflexivity |].
  intros geohash c Hin Hout. apply decodeWith_None. eauto.
Qed.

(** ** Events with an undecodable geocell *)

Lemma elem_of_mapPoints (rooms : list Chatroom) (p : MapPoint) :
  p ∈ mapPoints rooms ->
  exists room, room ∈ rooms /\ point_geohash p = geohash room /\
               decodeGeohash (geohash room) <> None.
Proof.
  unfold mapPoints. rewrite list_elem_of_omap. intros (room & Hin & Hp).
  exists room. split; [exact Hin |]. unfold toMapPoint in Hp.
  destruct (decodeGeohash (geohash room)); [|discriminate].
  injection Hp as <-. simpl. split; [reflexivity | discriminate].
Qed.

(** The claim C6 read literally: the event [evBad] carries the geocell ["a"],
    which does not decode, and yet the chatroom list has the chatroom [#a]
    with that event counted; only the map has no point for it. *)
Lemma undecodable_geocell_counterexample :
  getTagValue evBad "g" = Some "a" /\
  decodeGeohash "a" = None /\
  chatrooms (Some [evBad]) = [ {| geohash := "a"; name := "#a"; messageCount := 1 |} ] /\
  mapPoints (chatrooms (Some [evBad])) = [].
Proof. repeat split. Qed.

(** C6 (amended).  An event whose geocell has a character outside the
    alphabet makes [decodeGeohash] return [null]; the event still belongs to
    the chatroom of its geocell in the chatroom list and is counted there,
    but that chatroom has no point on the map; the event stays in the
    timeline as filtered with no selection and with its geocell selected. *)
Theorem undecodable_geocell (evs : list NostrEvent) (e : NostrEvent)
    (g : string) (c : ascii) :
  e ∈ evs -> getTagValue e "g" = Some g ->
  c ∈ list_ascii_of_string g -> c ∉ list_ascii_of_string base32 ->
  decodeGeohash g = None /\
  (exists room, room ∈ chatrooms (Some evs) /\ geohash room = g /\
     messageCount room =
       length (filter (fun x => getTagValue x "g" = Some g) evs) /\
     (1 <= messageCount room)%nat) /\
  (forall p, p ∈ mapPoints (chatrooms (Some evs)) -> point_geohash p <> g) /\
  filteredEvents (Some evs) None = Some evs /\
  (exists out, filteredEvents (Some evs) (Some g) = Some out /\ e ∈ out).
Proof.
  intros Hin Hg Hc Hout.
  assert (Hnull : decodeGeohash g = None) by (apply decodeWith_None; eauto).
  assert (Hne : g <> "") by (intros ->; inversion Hc).
  assert (Hseen : g ∈ firstSeen evs).
  { apply elem_of_firstSeen. exists e. split; [exact Hin |].
    apply geocellOf_Some. auto. }
  split; [exact Hnull |]. split; [|split; [|split; [reflexivity |]]].
  - exists (roomFor evs g). split; [apply elem_of_chatrooms; eauto |].
    simpl. split; [reflexivity |]. split; [reflexivity |].
    apply firstSeen_countFor in Hseen as [_ Hpos]. exact Hpos.
  - intros p Hp Heq. apply elem_of_mapPoints in Hp as (room & _ & Hgeo & Hdec).
    apply Hdec. rewrite <- Hgeo, Heq. exact Hnull.
  - destruct (filteredEvents_correct evs (Some g)) as (out & Hout' & -> & _ & Hmem);
      [congruence |].
    eexists. split; [exact Hout' |]. apply Hmem. auto.
Qed.

Lemma undecodable_geocell_witness :
  decodeGeohash "a" = None /\
  (exists room, room ∈ chatrooms (Some [evA; evBad]) /\ geohash room = "a" /\
     messageCount room =
       length (filter (fun x => getTagValue x "g" = Some "a") [evA; evBad]) /\
     (1 <= messageCount room)%nat) /\
  (forall p, p ∈ mapPoints (chatrooms (Some [evA; evBad])) -> point_geohash p <> "a") /\
  filteredEvents (Some [evA; evBad]) None = Some [evA; evBad] /\
  (exists out, filteredEvents (Some [evA; evBad]) (Some "a") = Some out /\ evBad ∈ out).
Proof.
  apply (undecodable_geocell [evA; evBad] evBad "a" "a"%char).
  - right. left.
  - reflexivity.
  - left.
  - apply (bool_decide_unpack _). vm_compute. exact I.
Defined.

(** ** Binary64 arithmetic without rounding *)

Section Binary64Facts.
Import SpecFloat.
Local Open Scope Z_scope.

Lemma Zpos_shlN p k : Zpos (shlN p k) = Zpos p * 2 ^ Z.of_nat k.
Proof.
  induction k as [|k IH].
  - simpl. lia.
  - change (shlN p (S k)) with (xO (shlN p k)).
    rewrite Pos2Z.inj_xO, IH, Nat2Z.inj_succ, Z.pow_succ_r by lia. lia.
Qed.

Lemma digits_shlN p k :
  Zpos (digits2_pos (shlN p k)) = Zpos (digits2_pos p) + Z.of_nat k.
Proof.
  induction k as [|k IH].
  - simpl. lia.
  - change (shlN p (S k)) with (xO (shlN p k)). simpl digits2_pos.
    rewrite Pos2Z.inj_succ, IH. lia.
Qed.

Lemma shlN_add p a b : shlN (shlN p a) b = shlN p (a + b).
Proof. unfold shlN. rewrite Nat.add_comm. symmetry. apply Nat.iter_add. Qed.

Lemma Pos_iter_xO p n : Pos.iter xO p n = shlN p (Pos.to_nat n).
Proof. unfold shlN. rewrite Pos2Nat.inj_iter. reflexivity. Qed.

Lemma iter_pos_nat {A} (f : A -> A) n x : iter_pos f n x = Nat.iter (Pos.to_nat n) f x.
Proof.
  revert x. induction n as [n IH|n IH|]; intros x; cbn [iter_pos].
  - rewrite !IH, Pos2Nat.inj_xI, <- Nat.iter_add, Nat.iter_succ_r.
    f_equal. lia.
  - rewrite !IH, Pos2Nat.inj_xO, <- Nat.iter_add. f_equal. lia.
  - reflexivity.
Qed.

Lemma shr_1_xO p : shr_1 (rec0 (Zpos p~0)) = rec0 (Zpos p).
Proof. reflexivity. Qed.

Lemma iter_shr_1_shlN p k : Nat.iter k shr_1 (rec0 (Zpos (shlN p k))) = rec0 (Zpos p).
Proof.
  induction k as [|k IH]; [reflexivity |].
  rewrite Nat.iter_succ_r. change (shlN p (S k)) with (xO (shlN p k)).
  rewrite shr_1_xO. exact IH.
Qed.

(** Shifting right by [n >= 0] places a mantissa that ends in [n] zeros. *)
Lemma shr_shlN p k e :
  shr (rec0 (Zpos (shlN p k))) e (Z.of_nat k) = (rec0 (Zpos p), e + Z.of_nat k).
Proof.
  destruct k as [|k]; [simpl; f_equal; lia |].
  change (Z.of_nat (S k)) with (Zpos (Pos.of_succ_nat k)).
  unfold shr. rewrite iter_pos_nat, SuccNat2Pos.id_succ, iter_shr_1_shlN. reflexivity.
Qed.

Lemma fexp_normal x : -1074 <= x - 53 -> fexp prec emax x = x - 53.
Proof. unfold fexp, emin. change prec with 53. change emax with 1024. lia. Qed.

Lemma shl_align_spec mx ex ex' :
  shl_align mx ex ex' =
  if ex' <? ex then (shlN mx (Z.to_nat (ex - ex')), ex') else (mx, ex).
Proof.
  unfold shl_align. destruct (Z.ltb_spec ex' ex) as [Hlt|Hge].
  - destruct (ex' - ex) as [|d|d] eqn:Hd; try lia.
    rewrite Pos_iter_xO. do 2 f_equal. lia.
  - destruct (ex' - ex) as [|d|d] eqn:Hd; try lia; reflexivity.
Qed.

(** A 53-digit mantissa followed by [k] zeros is shifted back exactly. *)
Lemma shr_fexp_exact q k T :
  Zpos (digits2_pos q) = 53 -> -1074 <= T ->
  shr_fexp prec emax (Zpos (shlN q k)) (T - Z.of_nat k) loc_Exact = (rec0 (Zpos q), T).
Proof.
  intros Hq HT. unfold shr_fexp. cbn [Zdigits2 shr_record_of_loc].
  rewrite digits_shlN, Hq, fexp_normal by lia.
  replace (53 + Z.of_nat k + (T - Z.of_nat k) - 53 - (T - Z.of_nat k)) with (Z.of_nat k) by lia.
  fold (rec0 (Zpos (shlN q k))). rewrite shr_shlN. f_equal. lia.
Qed.

Lemma binary_round_aux_canon s q k T :
  Zpos (digits2_pos q) = 53 -> -1074 <= T <= 971 ->
  binary_round_aux prec emax s (Zpos (shlN q k)) (T - Z.of_nat k) loc_Exact =
  S754_finite s q T.
Proof.
  intros Hq HT. unfold binary_round_aux.
  rewrite shr_fexp_exact by lia. cbn [shr_m rec0 loc_of_shr_record round_nearest_even].
  pose proof (shr_fexp_exact q 0 T Hq ltac:(lia)) as H0.
  change (shlN q 0) with q in H0. rewrite Z.sub_0_r in H0. rewrite H0.
  cbn [shr_m rec0]. change (emax - prec) with 971.
  destruct (Z.leb_spec T 971); [reflexivity | lia].
Qed.

Lemma binary_round_shlN s p k e :
  fits p e ->
  binary_round prec emax s (shlN p k) (e - Z.of_nat k) = canon s p e.
Proof.
  intros (Hd & Hlo & Hhi). unfold binary_round, canon.
  set (d := Zpos (digits2_pos p)) in *.
  rewrite digits_shlN. fold d.
  replace (d + Z.of_nat k + (e - Z.of_nat k)) with (d + e) by lia.
  rewrite fexp_normal by lia. rewrite shl_align_spec.
  set (M := shlN p (Z.to_nat (53 - d))).
  assert (HM : Zpos (digits2_pos M) = 53).
  { unfold M. rewrite digits_shlN. fold d. lia. }
  destruct (Z.ltb_spec (d + e - 53) (e - Z.of_nat k)) as [Hlt|Hge].
  - rewrite shlN_add.
    replace (k + Z.to_nat (e - Z.of_nat k - (d + e - 53)))%nat with (Z.to_nat (53 - d)) by lia.
    fold M. pose proof (binary_round_aux_canon s M 0 (d + e - 53) HM ltac:(lia)) as H0.
    change (shlN M 0) with M in H0. rewrite Z.sub_0_r in H0. rewrite H0.
    f_equal. lia.
  - replace (shlN p k) with (shlN M (k - Z.to_nat (53 - d))).
    2:{ unfold M. rewrite shlN_add. f_equal. lia. }
    replace (e - Z.of_nat k) with (d + e - 53 - Z.of_nat (k - Z.to_nat (53 - d))) by lia.
    rewrite binary_round_aux_canon by lia. f_equal. lia.
Qed.

Lemma normZ_pos p e : fits p e -> normZ (Zpos p) e = canon false p e.
Proof.
  intros H. unfold normZ, binary_normalize.
  pose proof (binary_round_shlN false p 0 e H) as H0.
  change (shlN p 0) with p in H0. rewrite Z.sub_0_r in H0. exact H0.
Qed.

Lemma normZ_neg p e : fits p e -> normZ (Zneg p) e = canon true p e.
Proof.
  intros H. unfold normZ, binary_normalize.
  pose proof (binary_round_shlN true p 0 e H) as H0.
  change (shlN p 0) with p in H0. rewrite Z.sub_0_r in H0. exact H0.
Qed.

(** Trailing zeros of the mantissa can be moved into the exponent. *)
Lemma normZ_shift z k e :
  fitsZ z e -> normZ (z * 2 ^ Z.of_nat k) (e - Z.of_nat k) = normZ z e.
Proof.
  destruct z as [|p|p]; intros H; simpl in H.
  - reflexivity.
  - rewrite normZ_pos by exact H. rewrite <- Zpos_shlN.
    apply (binary_round_shlN false p k e H).
  - rewrite normZ_neg by exact H.
    replace (Z.neg p * 2 ^ Z.of_nat k) with (Z.neg (shlN p k))
      by (rewrite <- Pos2Z.opp_pos, Zpos_shlN; lia).
    apply (binary_round_shlN true p k e H).
Qed.

Lemma align_canon p e d' :
  let d := Zpos (digits2_pos p) in
  d <= 53 -> 0 < d' <= 53 ->
  Zpos (fst (shl_align (shlN p (Z.to_nat (53 - d))) (e + d - 53)
                       (Z.min (e + d - 53) (e + d' - 53)))) =
  Zpos p * 2 ^ (53 - Z.min d d').
Proof.
  intros d Hd Hd'. rewrite shl_align_spec.
  destruct (Z.ltb_spec (Z.min (e + d - 53) (e + d' - 53)) (e + d - 53)) as [Hlt|Hge];
    cbn [fst].
  - rewrite shlN_add, Zpos_shlN. do 2 f_equal. lia.
  - rewrite Zpos_shlN. do 2 f_equal. lia.
Qed.

Lemma normZ_signed s p e : fits p e -> normZ (signed s p) e = canon s p e.
Proof. destruct s; [apply normZ_neg | apply normZ_pos]. Qed.

Lemma fitsZ_signed s p e : fitsZ (signed s p) e <-> fits p e.
Proof. destruct s; reflexivity. Qed.

Lemma Z_signed z : z <> 0 -> exists s p, z = signed s p.
Proof.
  destruct z as [|p|p]; [congruence | |]; intros _.
  - exists false, p. reflexivity.
  - exists true, p. reflexivity.
Qed.

Lemma cond_Zopp_mul s a b : cond_Zopp s a * b = cond_Zopp s (a * b).
Proof. destruct s; simpl; lia. Qed.

(** Two binary64 numbers on the same grid add without rounding when the sum
    fits as well. *)
Lemma SFadd_normZ z1 z2 e :
  fitsZ z1 e -> fitsZ z2 e -> fitsZ (z1 + z2) e ->
  SFadd prec emax (normZ z1 e) (normZ z2 e) = normZ (z1 + z2) e.
Proof.
  intros H1 H2 H12.
  destruct (Z.eq_dec z1 0) as [->|Hz1].
  { change (normZ 0 e) with (S754_zero false). rewrite Z.add_0_l.
    destruct z2 as [|p|p]; [reflexivity | |]; simpl in H2.
    - rewrite normZ_pos by exact H2. reflexivity.
    - rewrite normZ_neg by exact H2. reflexivity. }
  destruct (Z.eq_dec z2 0) as [->|Hz2].
  { change (normZ 0 e) with (S754_zero false). rewrite Z.add_0_r.
    destruct z1 as [|p|p]; [reflexivity | |]; simpl in H1.
    - rewrite normZ_pos by exact H1. reflexivity.
    - rewrite normZ_neg by exact H1. reflexivity. }
  destruct (Z_signed z1 Hz1) as (s1 & p1 & ->).
  destruct (Z_signed z2 Hz2) as (s2 & p2 & ->).
  apply fitsZ_signed in H1, H2.
  rewrite !normZ_signed by assumption. unfold canon, SFadd.
  pose proof H1 as (Hd1 & _). pose proof H2 as (Hd2 & _).
  rewrite align_canon by lia.
  rewrite (Z.min_comm (e + Z.pos (digits2_pos p1) - 53)).
  rewrite align_canon by lia.
  set (d1 := Zpos (digits2_pos p1)) in *. set (d2 := Zpos (digits2_pos p2)) in *.
  fold (signed s1 p1) (signed s2 p2).
  replace (Z.min d2 d1) with (Z.min d1 d2) by lia.
  set (c := Z.to_nat (53 - Z.min d1 d2)).
  replace (53 - Z.min d1 d2) with (Z.of_nat c) by lia.
  replace (Z.min (e + d2 - 53) (e + d1 - 53)) with (e - Z.of_nat c) by lia.
  unfold signed at 1 2. rewrite <- !cond_Zopp_mul, <- Z.mul_add_distr_r.
  apply (normZ_shift _ c e H12).
Qed.

Lemma signed_opp s p : - signed s p = signed (negb s) p.
Proof. destruct s; reflexivity. Qed.

Lemma SFsub_normZ z1 z2 e :
  fitsZ z1 e -> fitsZ z2 e -> fitsZ (z1 - z2) e ->
  SFsub prec emax (normZ z1 e) (normZ z2 e) = normZ (z1 - z2) e.
Proof.
  intros H1 H2 H12.
  destruct (Z.eq_dec z2 0) as [->|Hz2].
  { change (normZ 0 e) with (S754_zero false). rewrite Z.sub_0_r.
    destruct z1 as [|p|p]; [reflexivity | |]; simpl in H1.
    - rewrite normZ_pos by exact H1. reflexivity.
    - rewrite normZ_neg by exact H1. reflexivity. }
  destruct (Z_signed z2 Hz2) as (s2 & p2 & ->).
  apply fitsZ_signed in H2.
  destruct (Z.eq_dec z1 0) as [->|Hz1].
  { change (normZ 0 e) with (S754_zero false). rewrite Z.sub_0_l, signed_opp.
    rewrite !normZ_signed by assumption. reflexivity. }
  destruct (Z_signed z1 Hz1) as (s1 & p1 & ->).
  apply fitsZ_signed in H1.
  rewrite !normZ_signed by assumption. unfold canon, SFsub.
  pose proof H1 as (Hd1 & _). pose proof H2 as (Hd2 & _).
  rewrite align_canon by lia.
  rewrite (Z.min_comm (e + Z.pos (digits2_pos p1) - 53)).
  rewrite align_canon by lia.
  set (d1 := Zpos (digits2_pos p1)) in *. set (d2 := Zpos (digits2_pos p2)) in *.
  fold (signed s1 p1) (signed s2 p2).
  replace (Z.min d2 d1) with (Z.min d1 d2) by lia.
  set (c := Z.to_nat (53 - Z.min d1 d2)).
  replace (53 - Z.min d1 d2) with (Z.of_nat c) by lia.
  replace (Z.min (e + d2 - 53) (e + d1 - 53)) with (e - Z.of_nat c) by lia.
  unfold signed at 1 2. rewrite <- !cond_Zopp_mul, <- Z.mul_sub_distr_r.
  apply (normZ_shift _ c e H12).
Qed.

(** ** Halving *)

Lemma div_eucl_mul a b : 0 < b -> Z.div_eucl (a * b) b = (a, 0).
Proof.
  intros Hb. pose proof (Z.div_mul a b ltac:(lia)) as Hq.
  pose proof (Z.mod_mul a b ltac:(lia)) as Hr.
  unfold Z.div, Z.modulo in Hq, Hr.
  destruct (Z.div_eucl (a * b) b) as [q r]. simpl in *. congruence.
Qed.

Lemma SFdiv_two s q T :
  Zpos (digits2_pos q) = 53 -> -1072 <= T <= 971 ->
  SFdiv prec emax (S754_finite s q T) two_sf = S754_finite s q (T - 1).
Proof.
  intros Hq HT. unfold SFdiv, two_sf, SFdiv_core_binary.
  cbn [Zdigits2]. rewrite Hq.
  change (Zpos (digits2_pos 4503599627370496)) with 53.
  replace (53 + T - (53 + -51)) with (T + 51) by lia.
  rewrite fexp_normal by lia.
  replace (Z.min (T + 51 - 53) (T - -51)) with (T - 2) by lia.
  replace (T - -51 - (T - 2)) with 53 by lia.
  cbv iota. rewrite Z.shiftl_mul_pow2 by lia.
  replace (Zpos q * 2 ^ 53) with (Zpos q~0 * 4503599627370496) by lia.
  rewrite div_eucl_mul by lia.
  change (new_location 4503599627370496 0) with loc_Exact.
  rewrite Bool.xorb_false_r.
  change (q~0)%positive with (shlN q 1).
  replace (T - 2) with (T - 1 - Z.of_nat 1) by lia.
  apply binary_round_aux_canon; [exact Hq | lia].
Qed.

Lemma canon_digits s p e : fits p e ->
  exists q, canon s p e = S754_finite s q (e + Zpos (digits2_pos p) - 53) /\
            Zpos (digits2_pos q) = 53.
Proof.
  intros (Hd & _). eexists. split; [reflexivity |].
  rewrite digits_shlN. lia.
Qed.

Lemma canon_pred s p e : canon s p e = match canon s p (e + 1) with
  | S754_finite s' q T => S754_finite s' q (T - 1) | x => x end.
Proof. unfold canon. f_equal. lia. Qed.

Lemma SFdiv_normZ z e :
  fitsZ z e -> fitsZ z (e - 1) ->
  SFdiv prec emax (normZ z e) two_sf = normZ z (e - 1).
Proof.
  destruct z as [|p|p]; intros H H'; simpl in H, H'.
  - reflexivity.
  - rewrite !normZ_pos by assumption. rewrite (canon_pred false p (e - 1)).
    replace (e - 1 + 1) with e by lia.
    destruct (canon_digits false p e H) as (q & -> & Hq).
    apply SFdiv_two; [exact Hq |]. destruct H' as (? & ? & ?), H as (? & ? & ?). lia.
  - rewrite !normZ_neg by assumption. rewrite (canon_pred true p (e - 1)).
    replace (e - 1 + 1) with e by lia.
    destruct (canon_digits true p e H) as (q & -> & Hq).
    apply SFdiv_two; [exact Hq |]. destruct H' as (? & ? & ?), H as (? & ? & ?). lia.
Qed.

(** ** Comparison *)

Lemma digits_bounds p :
  2 ^ (Zpos (digits2_pos p) - 1) <= Zpos p < 2 ^ Zpos (digits2_pos p).
Proof.
  induction p as [p IH|p IH|]; cbn [digits2_pos].
  - rewrite Pos2Z.inj_succ, Pos2Z.inj_xI.
    replace (Z.succ (Zpos (digits2_pos p)) - 1) with (Z.succ (Zpos (digits2_pos p) - 1)) by lia.
    rewrite !Z.pow_succ_r by lia. revert IH.
    generalize (2 ^ (Zpos (digits2_pos p) - 1)), (2 ^ Zpos (digits2_pos p)). lia.
  - rewrite Pos2Z.inj_succ. change (Zpos p~0) with (2 * Zpos p).
    replace (Z.succ (Zpos (digits2_pos p)) - 1) with (Z.succ (Zpos (digits2_pos p) - 1)) by lia.
    rewrite !Z.pow_succ_r by lia. revert IH.
    generalize (2 ^ (Zpos (digits2_pos p) - 1)), (2 ^ Zpos (digits2_pos p)). lia.
  - simpl. lia.
Qed.

Lemma digits_lt p1 p2 :
  Zpos (digits2_pos p1) < Zpos (digits2_pos p2) -> Zpos p1 < Zpos p2.
Proof.
  intros H. pose proof (digits_bounds p1) as [_ H1]. pose proof (digits_bounds p2) as [H2 _].
  assert (2 ^ Zpos (digits2_pos p1) <= 2 ^ (Zpos (digits2_pos p2) - 1))
    by (apply Z.pow_le_mono_r; lia).
  lia.
Qed.

Lemma compare_shlN p1 p2 c : Pos.compare (shlN p1 c) (shlN p2 c) = Pos.compare p1 p2.
Proof.
  induction c as [|c IH]; [reflexivity |].
  change (shlN ?p (S c)) with (xO (shlN p c)). simpl. exact IH.
Qed.

Lemma SFcompare_canon_pos p1 p2 e :
  fits p1 e -> fits p2 e ->
  SFcompare (canon false p1 e) (canon false p2 e) = Some (Pos.compare p1 p2).
Proof.
  intros H1 H2. unfold canon, SFcompare. f_equal.
  destruct (Z.compare_spec (e + Zpos (digits2_pos p1) - 53) (e + Zpos (digits2_pos p2) - 53))
    as [Heq|Hlt|Hgt].
  - replace (Zpos (digits2_pos p2)) with (Zpos (digits2_pos p1)) by lia.
    apply compare_shlN.
  - symmetry. apply Pos.compare_lt_iff. apply Pos2Z.pos_lt_pos, digits_lt. lia.
  - symmetry. apply Pos.compare_gt_iff. apply Pos2Z.pos_lt_pos, digits_lt. lia.
Qed.

Lemma SFcompare_canon_neg p1 p2 e :
  fits p1 e -> fits p2 e ->
  SFcompare (canon true p1 e) (canon true p2 e) = Some (CompOpp (Pos.compare p1 p2)).
Proof.
  intros H1 H2. unfold canon, SFcompare. f_equal.
  destruct (Z.compare_spec (e + Zpos (digits2_pos p1) - 53) (e + Zpos (digits2_pos p2) - 53))
    as [Heq|Hlt|Hgt].
  - replace (Zpos (digits2_pos p2)) with (Zpos (digits2_pos p1)) by lia.
    f_equal. apply compare_shlN.
  - assert (H : (p1 ?= p2)%positive = Lt)
      by (apply Pos.compare_lt_iff, Pos2Z.pos_lt_pos, digits_lt; lia).
    rewrite H. reflexivity.
  - assert (H : (p1 ?= p2)%positive = Gt)
      by (apply Pos.compare_gt_iff, Pos2Z.pos_lt_pos, digits_lt; lia).
    rewrite H. reflexivity.
Qed.

Lemma SFltb_normZ z1 z2 e :
  fitsZ z1 e -> fitsZ z2 e ->
  SFltb (normZ z1 e) (normZ z2 e) = (z1 <? z2).
Proof.
  intros H1 H2. unfold SFltb.
  destruct z1 as [|p1|p1], z2 as [|p2|p2]; simpl in H1, H2;
    rewrite ?normZ_pos, ?normZ_neg by assumption;
    try reflexivity.
  - rewrite SFcompare_canon_pos by assumption. unfold Z.ltb. simpl.
    reflexivity.
  - rewrite SFcompare_canon_neg by assumption. unfold Z.ltb. simpl.
    reflexivity.
Qed.

(** ** Rounding: a mantissa with more than 53 digits *)

Lemma shr_m_shr_1 mrs : 0 <= shr_m mrs -> shr_m (shr_1 mrs) = shr_m mrs / 2.
Proof.
  destruct mrs as [m r s]. cbn [shr_m]. intros Hm.
  rewrite <- Z.div2_div. destruct m as [|[p|p|]|p]; try reflexivity. lia.
Qed.

Lemma shr_m_iter n mrs :
  0 <= shr_m mrs -> shr_m (Nat.iter n shr_1 mrs) = shr_m mrs / 2 ^ Z.of_nat n.
Proof.
  intros Hm. induction n as [|n IH].
  - simpl. rewrite Z.div_1_r. reflexivity.
  - change (Nat.iter (S n) shr_1 mrs) with (shr_1 (Nat.iter n shr_1 mrs)).
    rewrite shr_m_shr_1, IH.
    + rewrite Nat2Z.inj_succ, Z.pow_succ_r, Z.div_div by lia.
      f_equal. lia.
    + rewrite IH. apply Z.div_pos; lia.
Qed.

Lemma round_nearest_even_bounds m l :
  m <= round_nearest_even m l <= m + 1.
Proof.
  destruct l as [|[| |]]; cbn [round_nearest_even]; try lia.
  destruct (Z.even m); lia.
Qed.

Lemma digits_of_bounds p d :
  2 ^ (d - 1) <= Zpos p < 2 ^ d -> 0 < d -> Zpos (digits2_pos p) = d.
Proof.
  intros [Hlo Hhi] Hd. pose proof (digits_bounds p) as [Hlo' Hhi'].
  assert (Zpos (digits2_pos p) - 1 < d) by (apply (Z.pow_lt_mono_r_iff 2); lia).
  assert (d - 1 < Zpos (digits2_pos p)) by (apply (Z.pow_lt_mono_r_iff 2); lia).
  lia.
Qed.

Lemma canon_53 s q e : Zpos (digits2_pos q) = 53 -> canon s q e = S754_finite s q e.
Proof.
  intros Hq. unfold canon. rewrite Hq. change (Z.to_nat (53 - 53)) with 0%nat.
  change (shlN q 0) with q. f_equal. lia.
Qed.

Lemma shr_nat mrs e n :
  (0 < n)%nat -> shr mrs e (Z.of_nat n) = (Nat.iter n shr_1 mrs, e + Z.of_nat n).
Proof.
  destruct n as [|n]; [lia | intros _].
  change (Z.of_nat (S n)) with (Zpos (Pos.of_succ_nat n)).
  unfold shr. rewrite iter_pos_nat, SuccNat2Pos.id_succ. reflexivity.
Qed.

(** A mantissa [P] of [53 + r] digits ([r > 0]) is rounded to 53 digits: the
    result is [q * 2^e'] with [q * 2^(e' - E)] between the truncation of [P]
    to a multiple of [2^r] and the next multiple. *)
Lemma binary_round_excess s P E (r : nat) :
  Zpos (digits2_pos P) = 53 + Z.of_nat r -> (0 < r)%nat ->
  -1000 <= E -> E + Z.of_nat r <= 900 ->
  exists q e', binary_round prec emax s P E = canon s q e' /\ fits q e' /\
    E + Z.of_nat r <= e' <= E + Z.of_nat r + 1 /\
    Zpos P / 2 ^ Z.of_nat r * 2 ^ Z.of_nat r <= Zpos q * 2 ^ (e' - E) <=
    (Zpos P / 2 ^ Z.of_nat r + 1) * 2 ^ Z.of_nat r.
Proof.
  intros HD Hr HE HE'. unfold binary_round.
  rewrite HD, fexp_normal by lia. rewrite shl_align_spec.
  destruct (Z.ltb_spec (53 + Z.of_nat r + E - 53) E) as [Hlt|_]; [lia |].
  unfold binary_round_aux, shr_fexp at 1. cbn [Zdigits2 shr_record_of_loc].
  rewrite HD, fexp_normal by lia.
  replace (53 + Z.of_nat r + E - 53 - E) with (Z.of_nat r) by lia.
  rewrite shr_nat by exact Hr.
  set (n := r) in *. fold (rec0 (Zpos P)).
  set (mrs := Nat.iter n shr_1 (rec0 (Zpos P))).
  assert (Hm : shr_m mrs = Zpos P / 2 ^ Z.of_nat n)
    by (unfold mrs; rewrite shr_m_iter; [reflexivity | simpl; lia]).
  set (m := Zpos P / 2 ^ Z.of_nat n) in *.
  pose proof (digits_bounds P) as [Plo Phi]. rewrite HD in Plo, Phi.
  assert (Hpow : 0 < 2 ^ Z.of_nat n) by (apply Z.pow_pos_nonneg; lia).
  assert (Hmlo : 2 ^ 52 <= m).
  { unfold m. apply Z.div_le_lower_bound; [lia |].
    rewrite <- Z.pow_add_r by lia.
    replace (Z.of_nat n + 52) with (53 + Z.of_nat n - 1) by lia. exact Plo. }
  assert (Hmhi : m < 2 ^ 53).
  { unfold m. apply Z.div_lt_upper_bound; [lia |].
    rewrite <- Z.pow_add_r by lia.
    replace (Z.of_nat n + 53) with (53 + Z.of_nat n) by lia. exact Phi. }
  cbn [fst snd]. rewrite Hm.
  pose proof (round_nearest_even_bounds m (loc_of_shr_record mrs)) as Hrnd.
  set (m1 := round_nearest_even m (loc_of_shr_record mrs)) in *.
  change (2 ^ 52) with 4503599627370496 in Hmlo.
  change (2 ^ 53) with 9007199254740992 in Hmhi.
  destruct m1 as [|q|q] eqn:Hq; try lia.
  destruct (Z.eq_dec (Zpos q) 9007199254740992) as [Heq|Hne].
  - (* the rounding carried into a 54th digit *)
    injection Heq as ->.
    exists 4503599627370496%positive, (E + Z.of_nat n + 1).
    change 9007199254740992%positive with (shlN 4503599627370496 1).
    replace (E + Z.of_nat n) with (E + Z.of_nat n + 1 - Z.of_nat 1) at 1 by lia.
    rewrite shr_fexp_exact by (try reflexivity; lia).
    cbn [shr_m rec0]. change (emax - prec) with 971.
    destruct (Z.leb_spec (E + Z.of_nat n + 1) 971) as [_|?]; [|lia].
    rewrite canon_53 by reflexivity.
    split; [reflexivity |]. split; [unfold fits; simpl; lia |]. split; [lia |].
    replace (E + Z.of_nat n + 1 - E) with (Z.succ (Z.of_nat n)) by lia.
    rewrite Z.pow_succ_r by lia.
    change (shlN 4503599627370496 1) with 9007199254740992%positive in Hrnd. nia.
  - assert (Hd : Zpos (digits2_pos q) = 53).
    { apply digits_of_bounds; [|lia].
      change (2 ^ (53 - 1)) with 4503599627370496. 
      change (2 ^ 53) with 9007199254740992. lia. }
    exists q, (E + Z.of_nat n).
    pose proof (shr_fexp_exact q 0 (E + Z.of_nat n) Hd ltac:(lia)) as H0.
    change (shlN q 0) with q in H0. rewrite Z.sub_0_r in H0. rewrite H0.
    cbn [shr_m rec0]. change (emax - prec) with 971.
    destruct (Z.leb_spec (E + Z.of_nat n) 971) as [_|?]; [|lia].
    rewrite canon_53 by exact Hd.
    split; [reflexivity |]. split; [unfold fits; lia |]. split; [lia |].
    replace (E + Z.of_nat n - E) with (Z.of_nat n) by lia. nia.
Qed.

(** Any mantissa: the result is [q * 2^e'] and exceeds [P0 * 2^E0] by at
    most one unit in the last place, [2^r] on the grid [E0]. *)
Lemma binary_round_faithful s P0 (c : nat) E0 :
  -900 <= E0 - Z.of_nat c -> E0 + Zpos (digits2_pos P0) <= 900 ->
  exists q e' (r : nat),
    binary_round prec emax s (shlN P0 c) (E0 - Z.of_nat c) = canon s q e' /\
    fits q e' /\ E0 <= e' /\
    Zpos q * 2 ^ (e' - E0) <= Zpos P0 + 2 ^ Z.of_nat r /\
    (r = 0%nat \/ 2 ^ (52 + Z.of_nat r) <= Zpos P0).
Proof.
  intros HE HD. set (D0 := Zpos (digits2_pos P0)) in *.
  destruct (Z.le_gt_cases D0 53) as [Hle|Hgt].
  - exists P0, E0, 0%nat. rewrite binary_round_shlN by (unfold fits; fold D0; lia).
    split; [reflexivity |]. split; [unfold fits; fold D0; lia |].
    split; [lia |]. split; [|left; reflexivity].
    rewrite Z.sub_diag. simpl. lia.
  - set (r := Z.to_nat (D0 - 53)).
    destruct (binary_round_excess s (shlN P0 c) (E0 - Z.of_nat c) (r + c))
      as (q & e' & Heq & Hfit & He' & _ & Hhi).
    { rewrite digits_shlN. fold D0. lia. }
    { lia. }
    { lia. }
    { lia. }
    exists q, e', r. split; [exact Heq |]. split; [exact Hfit |]. split; [lia |].
    pose proof (digits_bounds P0) as [Plo _]. fold D0 in Plo.
    replace (D0 - 1) with (52 + Z.of_nat r) in Plo by lia.
    split; [|right; exact Plo].
    assert (Hc : 0 < 2 ^ Z.of_nat c) by (apply Z.pow_pos_nonneg; lia).
    assert (Hr : 0 < 2 ^ Z.of_nat r) by (apply Z.pow_pos_nonneg; lia).
    rewrite Zpos_shlN, Nat2Z.inj_add, Z.pow_add_r in Hhi by lia.
    rewrite Z.div_mul_cancel_r in Hhi by lia.
    replace (e' - (E0 - Z.of_nat c)) with (e' - E0 + Z.of_nat c) in Hhi by lia.
    rewrite Z.pow_add_r in Hhi by lia.
    pose proof (Z.mul_div_le (Zpos P0) (2 ^ Z.of_nat r) Hr) as Hdiv.
    apply (Z.mul_le_mono_pos_r _ _ (2 ^ Z.of_nat c) Hc).
    etransitivity; [rewrite <- Z.mul_assoc; exact Hhi |]. nia.
Qed.

Lemma align_gen p e ez :
  Zpos (digits2_pos p) <= 53 -> ez <= e + Zpos (digits2_pos p) - 53 ->
  Zpos (fst (shl_align (shlN p (Z.to_nat (53 - Zpos (digits2_pos p))))
                       (e + Zpos (digits2_pos p) - 53) ez)) =
  Zpos p * 2 ^ (e - ez).
Proof.
  intros Hd Hez. rewrite shl_align_spec.
  destruct (Z.ltb_spec ez (e + Zpos (digits2_pos p) - 53)) as [Hlt|Hge]; cbn [fst].
  - rewrite shlN_add, Zpos_shlN. do 2 f_equal. lia.
  - rewrite Zpos_shlN. do 2 f_equal. lia.
Qed.

Lemma digits_le p X : Zpos p < 2 ^ X -> 0 <= X -> Zpos (digits2_pos p) <= X.
Proof.
  intros Hp HX. pose proof (digits_bounds p) as [Hlo _].
  assert (Zpos (digits2_pos p) - 1 < X) by (apply (Z.pow_lt_mono_r_iff 2); lia).
  lia.
Qed.

Lemma signed_abs s p : Z.abs (signed s p) = Zpos p.
Proof. destruct s; reflexivity. Qed.

Lemma normalize_signed Z0 c E0 :
  Z0 <> 0 -> exists s P0, Z0 = signed s P0 /\
  binary_normalize prec emax (Z0 * 2 ^ Z.of_nat c) (E0 - Z.of_nat c) false =
  binary_round prec emax s (shlN P0 c) (E0 - Z.of_nat c).
Proof.
  intros HZ. destruct (Z_signed Z0 HZ) as (s & P0 & ->). exists s, P0.
  split; [reflexivity |]. destruct s; unfold signed, cond_Zopp.
  - replace (- Zpos P0 * 2 ^ Z.of_nat c) with (Zneg (shlN P0 c))
      by (rewrite <- Pos2Z.opp_pos, Zpos_shlN; lia).
    reflexivity.
  - rewrite <- Zpos_shlN. reflexivity.
Qed.

Lemma fits_lt p e : fits p e -> Zpos p < 2 ^ 53.
Proof.
  intros (Hd & _). pose proof (digits_bounds p) as [_ Hhi].
  assert (2 ^ Zpos (digits2_pos p) <= 2 ^ 53) by (apply Z.pow_le_mono_r; lia).
  lia.
Qed.

(** The sum of the aligned mantissas, rounded: common part of addition and
    subtraction. *)
Lemma normalize_sum_faithful (z1 z2 : Z) e1 e2 ez :
  Z.abs z1 < 2 ^ 53 -> Z.abs z2 < 2 ^ 53 ->
  -800 <= e1 <= 800 -> -800 <= e2 <= 800 ->
  -900 <= ez -> ez <= Z.min e1 e2 ->
  let E0 := Z.min e1 e2 in
  let Z0 := z1 * 2 ^ (e1 - E0) + z2 * 2 ^ (e2 - E0) in
  exists z' e' (r : nat),
    binary_normalize prec emax (z1 * 2 ^ (e1 - ez) + z2 * 2 ^ (e2 - ez)) ez false =
      normZ z' e' /\
    fitsZ z' e' /\ E0 <= e' /\
    Z.abs z' * 2 ^ (e' - E0) <= Z.abs Z0 + 2 ^ Z.of_nat r /\
    (r = 0%nat \/ 2 ^ (52 + Z.of_nat r) <= Z.abs Z0).
Proof.
  intros H1 H2 He1 He2 Hez Hez' E0 Z0.
  set (c := Z.to_nat (E0 - ez)).
  assert (Hsum : z1 * 2 ^ (e1 - ez) + z2 * 2 ^ (e2 - ez) = Z0 * 2 ^ Z.of_nat c).
  { unfold Z0. rewrite Z.mul_add_distr_r, <- !Z.mul_assoc, <- !Z.pow_add_r by lia.
    do 3 f_equal; lia. }
  rewrite Hsum. clear Hsum.
  assert (Hezc : ez = E0 - Z.of_nat c) by lia. clearbody c. subst ez.
  destruct (Z.eq_dec Z0 0) as [HZ|HZ].
  - rewrite HZ. exists 0, E0, 0%nat. simpl.
    repeat split; lia.
  - destruct (normalize_signed Z0 c E0 HZ) as (s & P0 & HP & ->).
    assert (HD : E0 + Zpos (digits2_pos P0) <= 900).
    { set (M := Z.max e1 e2).
      assert (Hp1 : 2 ^ (e1 - E0) <= 2 ^ (M - E0)) by (apply Z.pow_le_mono_r; lia).
      assert (Hp2 : 2 ^ (e2 - E0) <= 2 ^ (M - E0)) by (apply Z.pow_le_mono_r; lia).
      assert (Hp0 : 0 < 2 ^ (e1 - E0) /\ 0 < 2 ^ (e2 - E0))
        by (split; apply Z.pow_pos_nonneg; lia).
      assert (HP0 : Zpos P0 < 2 ^ (54 + (M - E0))).
      { rewrite Z.pow_add_r by lia. change (2 ^ 54) with (2 * 2 ^ 53).
        rewrite <- (signed_abs s P0), <- HP. unfold Z0.
        eapply Z.le_lt_trans; [apply Z.abs_triangle |].
        rewrite !Z.abs_mul, !(Z.abs_eq (2 ^ _)) by lia. nia. }
      apply digits_le in HP0; lia. }
    destruct (binary_round_faithful s P0 c E0 ltac:(lia) HD)
      as (q & e' & r & -> & Hfit & He' & Hval & Hr).
    exists (signed s q), e', r.
    rewrite normZ_signed by exact Hfit.
    split; [reflexivity |]. split; [apply fitsZ_signed; exact Hfit |].
    split; [exact He' |]. rewrite signed_abs, HP, signed_abs. auto.
Qed.

Lemma fitsZ_abs z e : z <> 0 -> fitsZ z e -> Z.abs z < 2 ^ 53.
Proof.
  destruct z as [|p|p]; [congruence | |]; intros _ H; apply (fits_lt _ _ H).
Qed.

(** Addition rounds to within one unit in the last place. *)
Lemma SFadd_faithful z1 e1 z2 e2 :
  fitsZ z1 e1 -> fitsZ z2 e2 -> -800 <= e1 <= 800 -> -800 <= e2 <= 800 ->
  let E0 := Z.min e1 e2 in
  let Z0 := z1 * 2 ^ (e1 - E0) + z2 * 2 ^ (e2 - E0) in
  exists z' e' (r : nat),
    SFadd prec emax (normZ z1 e1) (normZ z2 e2) = normZ z' e' /\
    fitsZ z' e' /\ E0 <= e' /\
    Z.abs z' * 2 ^ (e' - E0) <= Z.abs Z0 + 2 ^ Z.of_nat r /\
    (r = 0%nat \/ 2 ^ (52 + Z.of_nat r) <= Z.abs Z0).
Proof.
  intros H1 H2 He1 He2 E0 Z0.
  destruct (Z.eq_dec z1 0) as [->|Hz1].
  { exists z2, e2, 0%nat. change (normZ 0 e1) with (S754_zero false).
    split.
    { destruct z2 as [|p|p]; [reflexivity | |]; simpl in H2;
        rewrite ?normZ_pos, ?normZ_neg by exact H2; reflexivity. }
    split; [exact H2 |]. split; [lia |]. split; [|left; reflexivity].
    unfold Z0. rewrite Z.mul_0_l, Z.add_0_l, Z.abs_mul.
    rewrite (Z.abs_eq (2 ^ _)) by (apply Z.pow_nonneg; lia). simpl. lia. }
  destruct (Z.eq_dec z2 0) as [->|Hz2].
  { exists z1, e1, 0%nat. change (normZ 0 e2) with (S754_zero false).
    split.
    { destruct z1 as [|p|p]; [congruence | |]; simpl in H1;
        rewrite ?normZ_pos, ?normZ_neg by exact H1; reflexivity. }
    split; [exact H1 |]. split; [lia |]. split; [|left; reflexivity].
    unfold Z0. rewrite Z.mul_0_l, Z.add_0_r, Z.abs_mul.
    rewrite (Z.abs_eq (2 ^ _)) by (apply Z.pow_nonneg; lia). simpl. lia. }
  pose proof (fitsZ_abs _ _ Hz1 H1) as Ha1. pose proof (fitsZ_abs _ _ Hz2 H2) as Ha2.
  destruct (Z_signed z1 Hz1) as (s1 & p1 & ->).
  destruct (Z_signed z2 Hz2) as (s2 & p2 & ->).
  apply fitsZ_signed in H1, H2.
  rewrite !normZ_signed by assumption. unfold canon, SFadd.
  pose proof H1 as (Hd1 & Hlo1 & _). pose proof H2 as (Hd2 & Hlo2 & _).
  set (ez := Z.min (e1 + Zpos (digits2_pos p1) - 53) (e2 + Zpos (digits2_pos p2) - 53)).
  rewrite !align_gen by (unfold ez; lia).
  rewrite <- !cond_Zopp_mul. fold (signed s1 p1) (signed s2 p2).
  apply normalize_sum_faithful; try assumption; unfold ez; lia.
Qed.

(** Subtraction rounds to within one unit in the last place. *)
Lemma SFsub_faithful z1 e1 z2 e2 :
  fitsZ z1 e1 -> fitsZ z2 e2 -> -800 <= e1 <= 800 -> -800 <= e2 <= 800 ->
  let E0 := Z.min e1 e2 in
  let Z0 := z1 * 2 ^ (e1 - E0) - z2 * 2 ^ (e2 - E0) in
  exists z' e' (r : nat),
    SFsub prec emax (normZ z1 e1) (normZ z2 e2) = normZ z' e' /\
    fitsZ z' e' /\ E0 <= e' /\
    Z.abs z' * 2 ^ (e' - E0) <= Z.abs Z0 + 2 ^ Z.of_nat r /\
    (r = 0%nat \/ 2 ^ (52 + Z.of_nat r) <= Z.abs Z0).
Proof.
  intros H1 H2 He1 He2 E0 Z0.
  destruct (Z.eq_dec z2 0) as [->|Hz2].
  { exists z1, e1, 0%nat. change (normZ 0 e2) with (S754_zero false).
    split.
    { destruct z1 as [|p|p]; [reflexivity | |]; simpl in H1;
        rewrite ?normZ_pos, ?normZ_neg by exact H1; reflexivity. }
    split; [exact H1 |]. split; [lia |]. split; [|left; reflexivity].
    unfold Z0. rewrite Z.mul_0_l, Z.sub_0_r, Z.abs_mul.
    rewrite (Z.abs_eq (2 ^ _)) by (apply Z.pow_nonneg; lia). simpl. lia. }
  pose proof (fitsZ_abs _ _ Hz2 H2) as Ha2.
  destruct (Z_signed z2 Hz2) as (s2 & p2 & ->).
  apply fitsZ_signed in H2.
  destruct (Z.eq_dec z1 0) as [->|Hz1].
  { exists (signed (negb s2) p2), e2, 0%nat.
    change (normZ 0 e1) with (S754_zero false).
    rewrite !normZ_signed by exact H2.
    split; [reflexivity |]. split; [apply fitsZ_signed; exact H2 |].
    split; [lia |]. split; [|left; reflexivity].
    unfold Z0. rewrite Z.mul_0_l, Z.sub_0_l, Z.abs_opp, Z.abs_mul, !signed_abs.
    rewrite (Z.abs_eq (2 ^ _)) by (apply Z.pow_nonneg; lia). simpl. lia. }
  pose proof (fitsZ_abs _ _ Hz1 H1) as Ha1.
  destruct (Z_signed z1 Hz1) as (s1 & p1 & ->).
  apply fitsZ_signed in H1.
  rewrite !normZ_signed by assumption. unfold canon, SFsub.
  pose proof H1 as (Hd1 & Hlo1 & _). pose proof H2 as (Hd2 & Hlo2 & _).
  set (ez := Z.min (e1 + Zpos (digits2_pos p1) - 53) (e2 + Zpos (digits2_pos p2) - 53)).
  rewrite !align_gen by (unfold ez; lia).
  rewrite <- !cond_Zopp_mul. fold (signed s1 p1) (signed s2 p2).
  unfold Z0. rewrite <- !Z.add_opp_r, <- !Z.mul_opp_l.
  apply normalize_sum_faithful; try assumption; try (unfold ez; lia).
Qed.

(** ** Comparison of numbers on different grids *)

(** The canonical forms are ordered like the values. *)
Lemma canon_order p1 e1 p2 e2 g :
  Zpos (digits2_pos p1) <= 53 -> Zpos (digits2_pos p2) <= 53 ->
  g <= e1 -> g <= e2 ->
  Zpos p1 * 2 ^ (e1 - g) < Zpos p2 * 2 ^ (e2 - g) ->
  let T1 := e1 + Zpos (digits2_pos p1) - 53 in
  let T2 := e2 + Zpos (digits2_pos p2) - 53 in
  T1 < T2 \/
  T1 = T2 /\
  (shlN p1 (Z.to_nat (53 - Zpos (digits2_pos p1))) <
   shlN p2 (Z.to_nat (53 - Zpos (digits2_pos p2))))%positive.
Proof.
  intros Hd1 Hd2 Hg1 Hg2 Hv T1 T2. unfold T1, T2.
  set (d1 := Zpos (digits2_pos p1)) in *. set (d2 := Zpos (digits2_pos p2)) in *.
  pose proof (digits_bounds p1) as [Hlo1 Hhi1]. pose proof (digits_bounds p2) as [Hlo2 Hhi2].
  fold d1 in Hlo1, Hhi1. fold d2 in Hlo2, Hhi2.
  assert (Hd1' : 0 < d1) by (unfold d1; lia). assert (Hd2' : 0 < d2) by (unfold d2; lia).
  assert (Hp1 : 0 < 2 ^ (e1 - g)) by (apply Z.pow_pos_nonneg; lia).
  assert (Hp2 : 0 < 2 ^ (e2 - g)) by (apply Z.pow_pos_nonneg; lia).
  destruct (Z.lt_trichotomy (e1 + d1) (e2 + d2)) as [Hlt|[Heq|Hgt]]; [left; lia | right | exfalso].
  - split; [lia |].
    change (Zpos (shlN p1 (Z.to_nat (53 - d1))) < Zpos (shlN p2 (Z.to_nat (53 - d2)))).
    rewrite !Zpos_shlN, !Z2Nat.id by lia.
    destruct (Z.le_gt_cases (e1 + d1 - g) 53) as [Hk|Hk].
    + replace (53 - d1) with (e1 - g + (53 - (e1 + d1 - g))) by lia.
      replace (53 - d2) with (e2 - g + (53 - (e1 + d1 - g))) by lia.
      rewrite !Z.pow_add_r, !Z.mul_assoc by lia.
      apply Z.mul_lt_mono_pos_r; [apply Z.pow_pos_nonneg; lia | exact Hv].
    + apply (Z.mul_lt_mono_pos_r (2 ^ (e1 + d1 - g - 53))); [apply Z.pow_pos_nonneg; lia |].
      rewrite <- !Z.mul_assoc, <- !Z.pow_add_r by lia.
      replace (53 - d1 + (e1 + d1 - g - 53)) with (e1 - g) by lia.
      replace (53 - d2 + (e1 + d1 - g - 53)) with (e2 - g) by lia.
      exact Hv.
  - assert (H1 : 2 ^ (e1 + d1 - g - 1) <= Zpos p1 * 2 ^ (e1 - g)).
    { replace (e1 + d1 - g - 1) with (d1 - 1 + (e1 - g)) by lia.
      rewrite Z.pow_add_r by lia. apply Z.mul_le_mono_nonneg_r; lia. }
    assert (H2 : Zpos p2 * 2 ^ (e2 - g) < 2 ^ (e2 + d2 - g)).
    { replace (e2 + d2 - g) with (d2 + (e2 - g)) by lia.
      rewrite Z.pow_add_r by lia. apply Z.mul_lt_mono_pos_r; lia. }
    assert (H3 : 2 ^ (e2 + d2 - g) <= 2 ^ (e1 + d1 - g - 1))
      by (apply Z.pow_le_mono_r; lia).
    lia.
Qed.

Lemma SFltb_canon_pos p1 e1 p2 e2 g :
  fits p1 e1 -> fits p2 e2 -> g <= e1 -> g <= e2 ->
  Zpos p1 * 2 ^ (e1 - g) < Zpos p2 * 2 ^ (e2 - g) ->
  SFltb (canon false p1 e1) (canon false p2 e2) = true.
Proof.
  intros (Hd1 & _) (Hd2 & _) Hg1 Hg2 Hv. unfold SFltb, canon, SFcompare.
  destruct (canon_order p1 e1 p2 e2 g Hd1 Hd2 Hg1 Hg2 Hv) as [Hlt|[Heq Hm]].
  - apply Z.compare_lt_iff in Hlt. rewrite Hlt. reflexivity.
  - rewrite Heq, Z.compare_refl.
    change (Pos.compare_cont Eq ?a ?b) with (Pos.compare a b).
    apply Pos.compare_lt_iff in Hm. rewrite Hm. reflexivity.
Qed.

Lemma SFltb_canon_neg p1 e1 p2 e2 g :
  fits p1 e1 -> fits p2 e2 -> g <= e1 -> g <= e2 ->
  Zpos p2 * 2 ^ (e2 - g) < Zpos p1 * 2 ^ (e1 - g) ->
  SFltb (canon true p1 e1) (canon true p2 e2) = true.
Proof.
  intros (Hd1 & _) (Hd2 & _) Hg1 Hg2 Hv. unfold SFltb, canon, SFcompare.
  destruct (canon_order p2 e2 p1 e1 g Hd2 Hd1 Hg2 Hg1 Hv) as [Hlt|[Heq Hm]].
  - apply Z.compare_gt_iff in Hlt. rewrite Hlt. reflexivity.
  - rewrite Heq, Z.compare_refl.
    change (Pos.compare_cont Eq ?a ?b) with (Pos.compare a b).
    apply Pos.compare_gt_iff in Hm. rewrite Hm. reflexivity.
Qed.

(** Two binary64 numbers compare like their values. *)
Lemma SFltb_value z1 e1 z2 e2 g :
  fitsZ z1 e1 -> fitsZ z2 e2 -> g <= e1 -> g <= e2 ->
  z1 * 2 ^ (e1 - g) < z2 * 2 ^ (e2 - g) ->
  SFltb (normZ z1 e1) (normZ z2 e2) = true.
Proof.
  intros H1 H2 Hg1 Hg2 Hv.
  assert (Hp1 : 0 < 2 ^ (e1 - g)) by (apply Z.pow_pos_nonneg; lia).
  assert (Hp2 : 0 < 2 ^ (e2 - g)) by (apply Z.pow_pos_nonneg; lia).
  destruct z1 as [|p1|p1], z2 as [|p2|p2]; simpl in H1, H2;
    rewrite ?normZ_pos, ?normZ_neg by assumption; try reflexivity; try nia.
  - apply (SFltb_canon_pos p1 e1 p2 e2 g); assumption.
  - apply (SFltb_canon_neg p1 e1 p2 e2 g); try assumption.
    rewrite <- !Pos2Z.opp_pos in Hv. lia.
Qed.
End Binary64Facts.

(** ** The decoder on short strings computes without rounding *)

Section DecoderExact.
Import SpecFloat.
Local Open Scope Z_scope.

Lemma fitsZ_small z e : Z.abs z < 2 ^ 53 -> -900 <= e <= 900 -> fitsZ z e.
Proof.
  intros Hz He.
  assert (Hp : forall p, Zpos p < 2 ^ 53 -> fits p e).
  { intros p Hp. pose proof (digits_bounds p) as [Hlo _].
    assert (Hd : Zpos (digits2_pos p) - 1 < 53).
    { apply (Z.pow_lt_mono_r_iff 2); lia. }
    unfold fits. lia. }
  destruct z as [|p|p]; simpl; [exact I | |]; apply Hp; lia.
Qed.

Lemma repr_add x y z1 z2 e :
  repr x z1 e -> repr y z2 e ->
  fitsZ z1 e -> fitsZ z2 e -> fitsZ (z1 + z2) e ->
  repr (x + y)%float (z1 + z2) e.
Proof.
  unfold repr. intros Hx Hy H1 H2 H12.
  rewrite FloatAxioms.add_spec, Hx, Hy. apply SFadd_normZ; assumption.
Qed.

Lemma repr_sub x y z1 z2 e :
  repr x z1 e -> repr y z2 e ->
  fitsZ z1 e -> fitsZ z2 e -> fitsZ (z1 - z2) e ->
  repr (x - y)%float (z1 - z2) e.
Proof.
  unfold repr. intros Hx Hy H1 H2 H12.
  rewrite FloatAxioms.sub_spec, Hx, Hy. apply SFsub_normZ; assumption.
Qed.

Lemma repr_half x z e :
  repr x z e -> fitsZ z e -> fitsZ z (e - 1) -> repr (x / 2)%float z (e - 1).
Proof.
  unfold repr. intros Hx H H'.
  rewrite FloatAxioms.div_spec, Hx. apply SFdiv_normZ; assumption.
Qed.

Lemma repr_shift x z e k :
  repr x z e -> fitsZ z e -> repr x (z * 2 ^ Z.of_nat k) (e - Z.of_nat k).
Proof. unfold repr. intros Hx H. rewrite normZ_shift; assumption. Qed.

Lemma repr_ltb x y z1 z2 e :
  repr x z1 e -> repr y z2 e -> fitsZ z1 e -> fitsZ z2 e ->
  (x <? y)%float = (z1 <? z2).
Proof.
  unfold repr. intros Hx Hy H1 H2.
  rewrite FloatAxioms.ltb_spec, Hx, Hy. apply SFltb_normZ; assumption.
Qed.

Lemma pow2_le (k n : nat) : (k <= n)%nat -> 2 ^ Z.of_nat k <= 2 ^ Z.of_nat n.
Proof. intros H. apply Z.pow_le_mono_r; lia. Qed.

Lemma pow2_47 : 2 ^ Z.of_nat 47 = 140737488355328.
Proof. reflexivity. Qed.

(** One bit on one axis: the error is halved and the midpoint moves by the
    halved error, all exactly, as long as at most 46 bits came before. *)
Lemma axis_step (e0 : Z) (k : nat) (v err : float) (down : bool) :
  -50 <= e0 <= 50 -> (k <= 46)%nat ->
  axisExact e0 k v err ->
  axisExact e0 (S k)
    (if down then (v - err / 2)%float else (v + err / 2)%float) (err / 2)%float.
Proof.
  intros He0 Hk (a & Hv & Ha & Herr).
  pose proof (pow2_le k 46 Hk) as Hpow. change (2 ^ Z.of_nat 46) with 70368744177664 in Hpow.
  assert (Hk' : 2 ^ Z.of_nat (S k) = 2 * 2 ^ Z.of_nat k)
    by (rewrite Nat2Z.inj_succ, Z.pow_succ_r; lia).
  assert (Hfit : forall z e, Z.abs z < 2 ^ 53 -> -100 <= e <= 100 -> fitsZ z e)
    by (intros; apply fitsZ_small; lia).
  change (2 ^ 53) with 9007199254740992 in Hfit.
  assert (Herr' : repr (err / 2)%float 45 (e0 - Z.of_nat (S k))).
  { replace (e0 - Z.of_nat (S k)) with (e0 - Z.of_nat k - 1) by lia.
    apply repr_half; [exact Herr | |]; apply Hfit; lia. }
  assert (Hv' : repr v (45 * a * 2) (e0 - Z.of_nat (S k))).
  { replace (e0 - Z.of_nat (S k)) with (e0 - Z.of_nat k - Z.of_nat 1) by lia.
    apply (repr_shift v (45 * a) _ 1 Hv). apply Hfit; lia. }
  destruct down.
  - exists (2 * a - 1). split; [|split; [lia | exact Herr']].
    replace (45 * (2 * a - 1)) with (45 * a * 2 - 45) by lia.
    apply repr_sub; [exact Hv' | exact Herr' | | |]; apply Hfit; lia.
  - exists (2 * a + 1). split; [|split; [lia | exact Herr']].
    replace (45 * (2 * a + 1)) with (45 * a * 2 + 45) by lia.
    apply repr_add; [exact Hv' | exact Herr' | | |]; apply Hfit; lia.
Qed.

Lemma exact_to_tail (e0 : Z) (v err : float) :
  -50 <= e0 <= 50 -> axisExact e0 47 v err -> axisTail e0 47 v err.
Proof.
  intros He0 (a & Hv & Ha & Herr). rewrite pow2_47 in Ha.
  exists (45 * a), (e0 - Z.of_nat 47).
  split; [exact Hv |]. split; [apply fitsZ_small; lia |]. split; [lia |].
  split; [|exact Herr].
  replace (e0 - Z.of_nat 47 - (e0 - 51)) with 4 by lia.
  unfold tailBound. simpl. lia.
Qed.

(** What the rounded sum of the midpoint and the halved error satisfies,
    whichever way it was computed. *)
Lemma tail_after (e0 : Z) (k : nat) (z e Z0 z' e' : Z) (r : nat) :
  -50 <= e0 <= 50 -> (47 <= k <= 49)%nat ->
  e0 - 51 <= e <= e0 + 10 ->
  Z.abs z * 2 ^ (e - (e0 - 51)) <= tailBound k ->
  let E0 := Z.min e (e0 - Z.of_nat (S k)) in
  Z.abs Z0 <= Z.abs z * 2 ^ (e - E0) + 45 * 2 ^ (e0 - Z.of_nat (S k) - E0) ->
  fitsZ z' e' -> E0 <= e' ->
  Z.abs z' * 2 ^ (e' - E0) <= Z.abs Z0 + 2 ^ Z.of_nat r ->
  (r = 0%nat \/ 2 ^ (52 + Z.of_nat r) <= Z.abs Z0) ->
  exists z'' e'', normZ z' e' = normZ z'' e'' /\ fitsZ z'' e'' /\
    e0 - 51 <= e'' <= e0 + 10 /\
    Z.abs z'' * 2 ^ (e'' - (e0 - 51)) <= tailBound (S k).
Proof.
  intros He0 Hk He Hz E0 HZ0 Hfit He' Hval Hr.
  set (G := e0 - 51) in *.
  assert (HE0 : G <= E0) by (unfold E0, G; lia).
  assert (HE0' : E0 - G <= 3) by (unfold E0, G; lia).
  assert (Hu : 0 < 2 ^ (E0 - G)) by (apply Z.pow_pos_nonneg; lia).
  assert (Hu8 : 2 ^ (E0 - G) <= 2 ^ 3) by (apply Z.pow_le_mono_r; lia).
  change (2 ^ 3) with 8 in Hu8.
  (* everything in units of [2^G] *)
  assert (Hz' : Z.abs z * 2 ^ (e - E0) * 2 ^ (E0 - G) = Z.abs z * 2 ^ (e - G)).
  { rewrite <- Z.mul_assoc, <- Z.pow_add_r by lia. do 2 f_equal. lia. }
  assert (Herr : 45 * 2 ^ (e0 - Z.of_nat (S k) - E0) * 2 ^ (E0 - G) =
                 45 * 2 ^ (50 - Z.of_nat k)).
  { rewrite <- Z.mul_assoc, <- Z.pow_add_r by lia. do 2 f_equal. unfold G. lia. }
  assert (Hsum : Z.abs Z0 * 2 ^ (E0 - G) <= tailBound k + 45 * 2 ^ (50 - Z.of_nat k)).
  { rewrite <- Herr. apply (Z.mul_le_mono_nonneg_r _ _ (2 ^ (E0 - G))) in HZ0; [|lia].
    rewrite Z.mul_add_distr_r, Hz' in HZ0. lia. }
  assert (Hulp : 2 ^ Z.of_nat r * 2 ^ (E0 - G) <= 23).
  { destruct Hr as [-> | Hr]; [simpl; lia |].
    rewrite Z.pow_add_r in Hr by lia.
    apply (Z.mul_le_mono_nonneg_r _ _ (2 ^ (E0 - G))) in Hr; [|lia].
    assert (Hb : tailBound k + 45 * 2 ^ (50 - Z.of_nat k) < 90 * 2 ^ 50).
    { unfold tailBound.
      assert (Hk' : k = 47%nat \/ k = 48%nat \/ k = 49%nat) by lia.
      destruct Hk' as [-> | [-> | ->]]; simpl; lia. }
    change (2 ^ 52) with 4503599627370496 in Hr.
    change (90 * 2 ^ 50) with 101330991615836160 in Hb. nia. }
  assert (Hnew : Z.abs z' * 2 ^ (e' - G) <= tailBound (S k)).
  { replace (e' - G) with (e' - E0 + (E0 - G)) by lia.
    rewrite Z.pow_add_r, Z.mul_assoc by lia.
    apply (Z.mul_le_mono_nonneg_r _ _ (2 ^ (E0 - G))) in Hval; [|lia].
    rewrite Z.mul_add_distr_r in Hval.
    assert (Hstep : tailBound k + 45 * 2 ^ (50 - Z.of_nat k) + 23 <= tailBound (S k)).
    { unfold tailBound.
      assert (Hk' : k = 47%nat \/ k = 48%nat \/ k = 49%nat) by lia.
      destruct Hk' as [-> | [-> | ->]]; simpl; lia. }
    lia. }
  destruct (Z.eq_dec z' 0) as [-> | Hne].
  - exists 0, G. split; [reflexivity |]. split; [exact I |]. split; [lia |].
    simpl. unfold tailBound.
    assert (Hk' : k = 47%nat \/ k = 48%nat \/ k = 49%nat) by lia.
    destruct Hk' as [-> | [-> | ->]]; simpl; lia.
  - exists z', e'. split; [reflexivity |]. split; [exact Hfit |].
    split; [|exact Hnew]. split; [lia |].
    assert (Hpow : 2 ^ (e' - G) < 2 ^ 57).
    { assert (Hb : tailBound (S k) < 2 ^ 57).
      { unfold tailBound.
        assert (Hk' : k = 47%nat \/ k = 48%nat \/ k = 49%nat) by lia.
        destruct Hk' as [-> | [-> | ->]]; simpl; lia. }
      assert (0 < 2 ^ (e' - G)) by (apply Z.pow_pos_nonneg; lia).
      nia. }
    apply Z.pow_lt_mono_r_iff in Hpow; unfold G in *; lia.
Qed.

Lemma tail_step (e0 : Z) (k : nat) (v err : float) (down : bool) :
  -50 <= e0 <= 50 -> (47 <= k <= 49)%nat ->
  axisTail e0 k v err ->
  axisTail e0 (S k)
    (if down then (v - err / 2)%float else (v + err / 2)%float) (err / 2)%float.
Proof.
  intros He0 Hk (z & e & Hv & Hfit & He & Hz & Herr).
  assert (H45 : forall e1, -100 <= e1 <= 100 -> fitsZ 45 e1)
    by (intros; apply fitsZ_small; [simpl |]; lia).
  assert (Herr' : repr (err / 2)%float 45 (e0 - Z.of_nat (S k))).
  { replace (e0 - Z.of_nat (S k)) with (e0 - Z.of_nat k - 1) by lia.
    apply repr_half; [exact Herr | |]; apply H45; lia. }
  assert (Htri : forall x y : Z, Z.abs (x + y) <= Z.abs x + Z.abs y /\
                                 Z.abs (x - y) <= Z.abs x + Z.abs y) by (intros; lia).
  set (E0 := Z.min e (e0 - Z.of_nat (S k))).
  assert (Hp1 : 0 < 2 ^ (e - E0)) by (apply Z.pow_pos_nonneg; unfold E0; lia).
  assert (Hp2 : 0 < 2 ^ (e0 - Z.of_nat (S k) - E0)) by (apply Z.pow_pos_nonneg; unfold E0; lia).
  destruct down.
  - destruct (SFsub_faithful z e 45 (e0 - Z.of_nat (S k)) Hfit (H45 (e0 - Z.of_nat (S k)) ltac:(lia))
                ltac:(lia) ltac:(lia)) as (z' & e' & r & Heq & Hfit' & He' & Hval & Hr).
    fold E0 in Heq, He', Hval, Hr.
    destruct (tail_after e0 k z e (z * 2 ^ (e - E0) - 45 * 2 ^ (e0 - Z.of_nat (S k) - E0)) z' e' r He0 Hk He Hz) as (z'' & e'' & Hn & Hf & Hrange & Hb);
      try assumption.
    { fold E0. pose proof (Htri (z * 2 ^ (e - E0)) (45 * 2 ^ (e0 - Z.of_nat (S k) - E0))) as [_ Ht].
      rewrite !Z.abs_mul, !(Z.abs_eq (2 ^ _)) in Ht by lia. simpl Z.abs in Ht. exact Ht. }
    exists z'', e''. split; [|auto].
    unfold repr in *. rewrite FloatAxioms.sub_spec, Hv, Herr'. rewrite <- Hn. exact Heq.
  - destruct (SFadd_faithful z e 45 (e0 - Z.of_nat (S k)) Hfit (H45 (e0 - Z.of_nat (S k)) ltac:(lia))
                ltac:(lia) ltac:(lia)) as (z' & e' & r & Heq & Hfit' & He' & Hval & Hr).
    fold E0 in Heq, He', Hval, Hr.
    destruct (tail_after e0 k z e (z * 2 ^ (e - E0) + 45 * 2 ^ (e0 - Z.of_nat (S k) - E0)) z' e' r He0 Hk He Hz) as (z'' & e'' & Hn & Hf & Hrange & Hb);
      try assumption.
    { fold E0. pose proof (Htri (z * 2 ^ (e - E0)) (45 * 2 ^ (e0 - Z.of_nat (S k) - E0))) as [Ht _].
      rewrite !Z.abs_mul, !(Z.abs_eq (2 ^ _)) in Ht by lia. simpl Z.abs in Ht. exact Ht. }
    exists z'', e''. split; [|auto].
    unfold repr in *. rewrite FloatAxioms.add_spec, Hv, Herr'. rewrite <- Hn. exact Heq.
Qed.

Lemma axisOK_step (e0 : Z) (k : nat) (v err : float) (down : bool) :
  -50 <= e0 <= 50 -> (k <= 49)%nat ->
  axisOK e0 k v err ->
  axisOK e0 (S k)
    (if down then (v - err / 2)%float else (v + err / 2)%float) (err / 2)%float.
Proof.
  intros He0 Hk [[Hk' H]|[Hk' H]].
  - destruct (Nat.eq_dec k 47%nat) as [-> | Hne].
    + right. split; [lia |]. apply tail_step; [lia | lia |].
      apply exact_to_tail; assumption.
    + left. split; [lia |]. apply axis_step; [lia | lia | exact H].
  - right. split; [lia |]. apply tail_step; [lia | lia | exact H].
Qed.

Abbreviation bitStep64 :=
  (bitStep (fun x => (x / 2)%float) PrimFloat.add PrimFloat.sub).

Lemma stateOK_bitStep (cd j : Z) (kl kg : nat) (st : Dec.state float) :
  stateOK kl kg st -> (kl + kg < 100)%nat ->
  exists kl' kg', stateOK kl' kg' (bitStep64 cd st j) /\
                  (kl' + kg' = S (kl + kg))%nat.
Proof.
  intros (Hlat & Hlng & [[Heven ->] | [Heven ->]]) Hn; unfold bitStep; rewrite Heven.
  - exists kl, (S kl). split; [|lia].
    split; [exact Hlat |]. split; [|right; auto]. cbn [Dec.lng Dec.lngErr].
    apply (axisOK_step 2 kl _ _ (Z.land cd (Z.shiftl 1 j) =? 0)); [lia | lia | exact Hlng].
  - exists (S kl), (S kl). split; [|lia].
    split; [|split; [exact Hlng | left; auto]]. cbn [Dec.lat Dec.latErr].
    apply (axisOK_step 1 kl _ _ (Z.land cd (Z.shiftl 1 j) =? 0)); [lia | lia | exact Hlat].
Qed.

Lemma stateOK_charStep (cd : Z) (kl kg : nat) (st : Dec.state float) :
  stateOK kl kg st -> (kl + kg + 5 <= 100)%nat ->
  exists kl' kg',
    stateOK kl' kg'
      (charStep (fun x => (x / 2)%float) PrimFloat.add PrimFloat.sub cd st) /\
    (kl' + kg' = kl + kg + 5)%nat.
Proof.
  intros H0 Hn. unfold charStep. cbn [fold_left].
  destruct (stateOK_bitStep cd 4 _ _ _ H0) as (l1 & g1 & H1 & E1); [lia |].
  destruct (stateOK_bitStep cd 3 _ _ _ H1) as (l2 & g2 & H2 & E2); [lia |].
  destruct (stateOK_bitStep cd 2 _ _ _ H2) as (l3 & g3 & H3 & E3); [lia |].
  destruct (stateOK_bitStep cd 1 _ _ _ H3) as (l4 & g4 & H4 & E4); [lia |].
  destruct (stateOK_bitStep cd 0 _ _ _ H4) as (l5 & g5 & H5 & E5); [lia |].
  exists l5, g5. split; [exact H5 | lia].
Qed.

Lemma stateOK_decodeLoop (geohash : string) (kl kg : nat) (st st' : Dec.state float) :
  stateOK kl kg st -> (kl + kg + 5 * String.length geohash <= 100)%nat ->
  decodeLoop (fun x => (x / 2)%float) PrimFloat.add PrimFloat.sub geohash st = Some st' ->
  exists kl' kg', stateOK kl' kg' st' /\ (kl' + kg' <= 100)%nat.
Proof.
  revert kl kg st. induction geohash as [|c rest IH]; intros kl kg st Hst Hn; cbn [decodeLoop].
  - intros [= <-]. exists kl, kg. simpl in Hn. split; [exact Hst | lia].
  - destruct (indexOf base32 c =? -1); [discriminate |].
    cbn [String.length] in Hn.
    destruct (stateOK_charStep (indexOf base32 c) kl kg st Hst) as (l & g & H & E); [lia |].
    apply (IH l g _ H). lia.
Qed.

Lemma stateOK_init : stateOK 0 0 (decodeInit 0%float 90%float 180%float).
Proof.
  split; [|split; [|left; auto]]; left; (split; [lia |]);
    exists 0; repeat split; vm_compute; reflexivity.
Qed.

(** An exact axis value lies strictly between the bounds. *)
Lemma axisExact_bounds (e0 : Z) (k : nat) (v err lo hi : float) :
  -50 <= e0 <= 50 -> (k <= 47)%nat ->
  repr hi 45 e0 -> repr lo (-45) e0 ->
  axisExact e0 k v err ->
  (lo <? v)%float = true /\ (v <? hi)%float = true.
Proof.
  intros He0 Hk Hhi Hlo (a & Hv & Ha & _).
  pose proof (pow2_le k 47 Hk) as Hpow. rewrite pow2_47 in Hpow.
  assert (Hfit : forall z e, Z.abs z < 2 ^ 53 -> -100 <= e <= 100 -> fitsZ z e)
    by (intros; apply fitsZ_small; lia).
  change (2 ^ 53) with 9007199254740992 in Hfit.
  assert (H45 : forall z, Z.abs z = 45 -> fitsZ z e0) by (intros; apply Hfit; lia).
  apply (repr_shift _ _ _ k) in Hhi; [|apply H45; reflexivity].
  apply (repr_shift _ _ _ k) in Hlo; [|apply H45; reflexivity].
  split.
  - rewrite (repr_ltb _ _ _ _ _ Hlo Hv); [apply Z.ltb_lt; lia | |]; apply Hfit; lia.
  - rewrite (repr_ltb _ _ _ _ _ Hv Hhi); [apply Z.ltb_lt; lia | |]; apply Hfit; lia.
Qed.

(** So does a value of the rounded phase. *)
Lemma axisTail_bounds (e0 : Z) (k : nat) (v err lo hi : float) :
  -50 <= e0 <= 50 -> (47 <= k <= 50)%nat ->
  repr hi 45 e0 -> repr lo (-45) e0 ->
  axisTail e0 k v err ->
  (lo <? v)%float = true /\ (v <? hi)%float = true.
Proof.
  intros He0 Hk Hhi Hlo (z & e & Hv & Hfit & He & Hz & _).
  assert (H45 : forall z, Z.abs z = 45 -> fitsZ z e0)
    by (intros; apply fitsZ_small; lia).
  assert (Hb : tailBound k < 45 * 2 ^ 51).
  { unfold tailBound.
    assert (Hk' : k = 47%nat \/ k = 48%nat \/ k = 49%nat \/ k = 50%nat) by lia.
    destruct Hk' as [->|[-> | [-> | ->]]]; simpl; lia. }
  assert (Hp : 0 < 2 ^ (e - (e0 - 51))) by (apply Z.pow_pos_nonneg; lia).
  unfold repr in *. rewrite !FloatAxioms.ltb_spec, Hv, Hhi, Hlo. split.
  - apply (SFltb_value _ _ _ _ (e0 - 51)); [apply H45; reflexivity | exact Hfit | lia | lia |].
    replace (e0 - (e0 - 51)) with 51 by lia. lia.
  - apply (SFltb_value _ _ _ _ (e0 - 51)); [exact Hfit | apply H45; reflexivity | lia | lia |].
    replace (e0 - (e0 - 51)) with 51 by lia. lia.
Qed.

Lemma axisOK_bounds (e0 : Z) (k : nat) (v err lo hi : float) :
  -50 <= e0 <= 50 ->
  repr hi 45 e0 -> repr lo (-45) e0 ->
  axisOK e0 k v err ->
  (lo <? v)%float = true /\ (v <? hi)%float = true.
Proof.
  intros He0 Hhi Hlo [[Hk H]|[Hk H]].
  - apply (axisExact_bounds e0 k v err); assumption.
  - apply (axisTail_bounds e0 k v err); assumption.
Qed.
End DecoderExact.

(** ** The geocell decoder: range of the result *)

(** The claim C9 read literally, in the arithmetic the code runs in: after 21
    characters [z] the longitude is exactly 180, after 22 the latitude is
    exactly 90 (and -180, -90 for [0]): the halved error has become smaller
    than half a unit in the last place and the sums round to the bound. *)
Lemma decodeGeohash_bounds_counterexample :
  (exists p, decodeGeohash "zzzzzzzzzzzzzzzzzzzzz" = Some p /\
     PrimFloat.eqb (lng p) 180 = true /\ PrimFloat.ltb (lng p) 180 = false) /\
  (exists p, decodeGeohash "zzzzzzzzzzzzzzzzzzzzzz" = Some p /\
     PrimFloat.eqb (lat p) 90 = true /\ PrimFloat.ltb (lat p) 90 = false) /\
  (exists p, decodeGeohash "0000000000000000000000" = Some p /\
     PrimFloat.eqb (lat p) (-90) = true /\ PrimFloat.ltb (-90) (lat p) = false).
Proof.
  split; [|split]; (eexists; split; [vm_compute; reflexivity |]); split; reflexivity.
Qed.


Lemma Qhalf (x : Q) : (x / 2 == x * (1 # 2))%Q.
Proof. reflexivity. Qed.

Lemma withinErr_bitStep (cd j : Z) (st : Dec.state Q) :
  withinErr st -> withinErr (bitStep (fun x => (x / 2)%Q) Qplus Qminus cd st j).
Proof.
  unfold withinErr, bitStep. intros (H1 & H2 & H3 & H4 & H5 & H6).
  pose proof (Qhalf (Dec.latErr st)) as Hlat.
  pose proof (Qhalf (Dec.lngErr st)) as Hlng.
  destruct (Dec.isEven st), (Z.land cd (Z.shiftl 1 j) =? 0)%Z;
    cbn [Dec.lat Dec.lng Dec.latErr Dec.lngErr];
    revert Hlat Hlng;
    generalize (Dec.latErr st / 2)%Q, (Dec.lngErr st / 2)%Q; intros hlat hlng Hlat Hlng;
    (split; [|split; [|split; [|split; [|split]]]]); lra.
Qed.

Lemma withinErr_charStep (cd : Z) (st : Dec.state Q) :
  withinErr st -> withinErr (charStep (fun x => (x / 2)%Q) Qplus Qminus cd st).
Proof.
  intros H. unfold charStep. simpl. auto 10 using withinErr_bitStep.
Qed.

Lemma withinErr_decodeLoop (geohash : string) (st st' : Dec.state Q) :
  withinErr st ->
  decodeLoop (fun x => (x / 2)%Q) Qplus Qminus geohash st = Some st' ->
  withinErr st'.
Proof.
  revert st. induction geohash as [|c rest IH]; intros st Hst; simpl.
  - intros [= <-]. exact Hst.
  - destruct (indexOf base32 c =? -1)%Z; [discriminate |].
    apply IH, withinErr_charStep, Hst.
Qed.

(** In exact arithmetic the bounds are strict for every string. *)
Lemma decodeGeohashExact_bounds (geohash : string) (p : LatLng Q) :
  decodeGeohashExact geohash = Some p ->
  (-90 < lat p /\ lat p < 90 /\ -180 < lng p /\ lng p < 180)%Q.
Proof.
  unfold decodeGeohashExact, decodeWith.
  destruct (decodeLoop _ _ _ geohash _) as [st|] eqn:Hloop; [|discriminate].
  intros [= <-].
  apply withinErr_decodeLoop in Hloop.
  - destruct Hloop as (H1 & H2 & H3 & H4 & H5 & H6).
    cbn [lat lng]. split; [|split; [|split]]; lra.
  - unfold withinErr, decodeInit. cbn [Dec.lat Dec.lng Dec.latErr Dec.lngErr].
    split; [|split; [|split; [|split; [|split]]]]; lra.
Qed.

Lemma decodeGeohashExact_bounds_witness :
  (-90 < 180 # 8 /\ 180 # 8 < 90 /\ -180 < 1440 # 64 /\ 1440 # 64 < 180)%Q.
Proof.
  exact (decodeGeohashExact_bounds "s" {| lat := 180 # 8; lng := 1440 # 64 |} eq_refl).
Defined.

(** C9 (amended).  For every input string of at most 20 characters on which
    the decoder succeeds, the returned latitude is strictly between -90 and
    90 and the returned longitude strictly between -180 and 180.  (Up to 47
    bits of an axis every operation is exact in binary64; the three bits
    that 19 and 20 characters add round by at most one unit in the last
    place each, which does not reach the bound.) *)
Theorem decodeGeohash_bounds (geohash : string) (p : LatLng float) :
  (String.length geohash <= 20)%nat ->
  decodeGeohash geohash = Some p ->
  (-90 <? lat p)%float = true /\ (lat p <? 90)%float = true /\
  (-180 <? lng p)%float = true /\ (lng p <? 180)%float = true.
Proof.
  intros Hlen. unfold decodeGeohash, decodeWith.
  destruct (decodeLoop _ _ _ geohash _) as [st|] eqn:Hloop; [|discriminate].
  intros [= <-]. cbn [lat lng].
  destruct (stateOK_decodeLoop geohash 0 0 _ st stateOK_init) as
    (kl & kg & (Hlat & Hlng & _) & _); [lia | exact Hloop |].
  destruct (axisOK_bounds 1 kl _ _ (-90)%float 90%float
              ltac:(lia) eq_refl eq_refl Hlat) as [H1 H2].
  destruct (axisOK_bounds 2 kg _ _ (-180)%float 180%float
              ltac:(lia) eq_refl eq_refl Hlng) as [H3 H4].
  auto.
Qed.

Lemma decodeGeohash_bounds_witness :
  (-90 <? 42.60498046875)%float = true /\ (42.60498046875 <? 90)%float = true /\
  (-180 <? -5.60302734375)%float = true /\ (-5.60302734375 <? 180)%float = true.
Proof.
  apply (decodeGeohash_bounds "ezs42"
           {| lat := 42.60498046875%float; lng := (-5.60302734375)%float |}).
  - vm_compute. lia.
  - vm_compute. reflexivity.
Defined.

(** * Properties of the further parts *)

(** ** [getTagValue] *)

Lemma find_split {A} (f : A -> bool) (l : list A) (x : A) :
  List.find f l = Some x <->
  exists pre post, l = pre ++ x :: post /\ Forall (fun y => f y = false) pre /\ f x = true.
Proof.
  induction l as [|y l IH]; simpl.
  - split; [discriminate |]. intros (pre & post & H & _). destruct pre; discriminate.
  - destruct (f y) eqn:Hy.
    + split.
      * intros [= <-]. exists [], l. auto.
      * intros (pre & post & H & Hpre & Hx). destruct pre as [|z pre]; simpl in H.
        -- congruence.
        -- injection H as <- _. apply Forall_cons in Hpre as [Hz _]. congruence.
    + rewrite IH. split.
      * intros (pre & post & -> & Hpre & Hx). exists (y :: pre), post. auto.
      * intros (pre & post & H & Hpre & Hx). destruct pre as [|z pre]; simpl in H.
        -- injection H as <- _. congruence.
        -- injection H as <- ->. apply Forall_cons in Hpre as [_ Hpre]. eauto.
Qed.

Lemma tagNamed_true tag t : tagNamed tag t = true <-> t !! 0 = Some tag.
Proof.
  destruct t as [|n t]; simpl; [split; discriminate |].
  rewrite String.eqb_eq. split; congruence.
Qed.

Lemma tagNamed_false tag t : tagNamed tag t = false <-> t !! 0 <> Some tag.
Proof. rewrite <- tagNamed_true. destruct (tagNamed tag t); split; congruence. Qed.

Lemma getTagValue_first_tag (ev : NostrEvent) (tag v : string) :
  getTagValue ev tag = Some v <->
  exists pre t post,
    tags ev = pre ++ t :: post /\
    Forall (fun u => u !! 0 <> Some tag) pre /\
    t !! 0 = Some tag /\ t !! 1 = Some v.
Proof.
  unfold getTagValue. split.
  - destruct (List.find _ _) as [t|] eqn:Hf; [|discriminate].
    intros Hv. apply find_split in Hf as (pre & post & Ht & Hpre & Hn).
    exists pre, t, post. split; [exact Ht |]. split.
    + eapply Forall_impl; [exact Hpre |]. intros u. apply tagNamed_false.
    + split; [apply tagNamed_true, Hn | exact Hv].
  - intros (pre & t & post & Ht & Hpre & Hn & Hv).
    assert (Hf : List.find (tagNamed tag) (tags ev) = Some t).
    { apply find_split. exists pre, post. split; [exact Ht |]. split.
      - eapply Forall_impl; [exact Hpre |]. intros u. apply tagNamed_false.
      - apply tagNamed_true, Hn. }
    rewrite Hf. exact Hv.
Qed.

(** X1.  Which events a room's view shows, in terms of the raw tags: those
    whose first tag named [g] has the room's geohash as second element. Tags
    after the first one named [g] are never looked at, so a first [g] tag
    without a value, or with another value, keeps the event out of the view
    whatever follows. *)
Theorem filter_view_by_first_tag (evs : list NostrEvent) (g : string) (e : NostrEvent) :
  g <> "" ->
  (exists out, filteredEvents (Some evs) (Some g) = Some out /\ e ∈ out) <->
  e ∈ evs /\
  exists pre t post,
    tags e = pre ++ t :: post /\
    Forall (fun u => u !! 0 <> Some "g") pre /\
    t !! 0 = Some "g" /\ t !! 1 = Some g.
Proof.
  intros Hg. rewrite <- getTagValue_first_tag. unfold filteredEvents.
  assert (Ht : truthy (Some g) = true) by (apply truthy_Some; eauto).
  rewrite Ht. cbn [negb]. rewrite filter_strictEq. split.
  - intros (out & [= <-] & He). apply list_elem_of_filter in He. tauto.
  - intros [He Hv]. eexists. split; [reflexivity |]. apply list_elem_of_filter. auto.
Qed.

Lemma filter_view_by_first_tag_witness :
  (exists out, filteredEvents (Some scenarioA) (Some "u4") = Some out /\ evB ∈ out) <->
  evB ∈ scenarioA /\
  exists pre t post,
    tags evB = pre ++ t :: post /\
    Forall (fun u => u !! 0 <> Some "g") pre /\
    t !! 0 = Some "g" /\ t !! 1 = Some "u4".
Proof. apply (filter_view_by_first_tag scenarioA "u4" evB). discriminate. Defined.

(** ** More about the chatroom list *)

Lemma roomFor_inj evs g1 g2 : roomFor evs g1 = roomFor evs g2 -> g1 = g2.
Proof. intros H. apply (f_equal geohash) in H. exact H. Qed.

Lemma chatrooms_keys evs :
  geohash <$> chatrooms (Some evs) ≡ₚ firstSeen evs.
Proof.
  rewrite chatrooms_closed, (arraySort_Permutation byCountDesc).
  induction (firstSeen evs) as [|g l IH]; [reflexivity |].
  simpl. rewrite IH. reflexivity.
Qed.

(** X2.  The rooms of the list have distinct geohashes (the list keys of the
    sidebar), none of them the empty string; before the first array of
    events is published, and for an empty one, the list is empty. *)
Theorem chatrooms_keys_distinct (events : option (list NostrEvent)) :
  NoDup (geohash <$> chatrooms events) /\
  Forall (fun room => geohash room <> "") (chatrooms events) /\
  chatrooms None = [] /\
  chatrooms (Some []) = [].
Proof.
  split; [| split; [| split; reflexivity]];
    (destruct events as [evs|]; [| constructor]).
  - rewrite chatrooms_keys. apply firstSeen_NoDup.
  - apply Forall_forall. intros room Hroom.
    apply elem_of_chatrooms in Hroom as (g & Hg & ->). simpl.
    eapply firstSeen_nonempty, Hg.
Qed.

Lemma countFor_cons g e evs :
  countFor g (e :: evs) =
  ((if decide (getTagValue e "g" = Some g) then 1 else 0) + countFor g evs)%nat.
Proof.
  unfold countFor. rewrite filter_cons. destruct (decide _); reflexivity.
Qed.

Lemma countFor_Permutation g evs evs' : evs ≡ₚ evs' -> countFor g evs = countFor g evs'.
Proof. intros H. unfold countFor. rewrite H. reflexivity. Qed.

Lemma countFor_submseteq g evs evs' : evs ⊆+ evs' -> (countFor g evs <= countFor g evs')%nat.
Proof.
  intros H. apply submseteq_Permutation in H as [k Hk].
  rewrite (countFor_Permutation g _ _ Hk). unfold countFor.
  rewrite filter_app, length_app. lia.
Qed.

Lemma sum_indicator (ks : list string) (v : option string) :
  NoDup ks ->
  sum_list_with (fun g => if decide (v = Some g) then 1 else 0)%nat ks =
  if decide (v ∈ Some <$> ks) then 1%nat else 0%nat.
Proof.
  induction 1 as [|g ks Hg Hnd IH].
  - rewrite decide_False; [reflexivity |]. intros H. inversion H.
  - cbn [sum_list_with]. rewrite fmap_cons, IH.
    assert (Hfresh : Some g ∉ Some <$> ks).
    { intros Hin. apply list_elem_of_fmap in Hin as (g' & [= <-] & Hin). contradiction. }
    destruct (decide (v ∈ Some <$> ks)) as [Hin|Hnin],
      (decide (v ∈ Some g :: (Some <$> ks))) as [Hin'|Hnin'],
      (decide (v = Some g)) as [->|Hne];
      try reflexivity; exfalso;
      try (apply elem_of_cons in Hin' as [?|?]); try contradiction;
      try (apply Hnin'; constructor; assumption); apply Hnin'; constructor.
Qed.

Lemma filter_iff_in {A} (P Q : A -> Prop) `{!forall x, Decision (P x), !forall x, Decision (Q x)}
    (l : list A) :
  (forall x, x ∈ l -> P x <-> Q x) -> filter P l = filter Q l.
Proof.
  induction l as [|a l IH]; intros HPQ; [reflexivity |].
  rewrite !filter_cons.
  rewrite IH by (intros x Hx; apply HPQ; constructor; exact Hx).
  pose proof (HPQ a (list_elem_of_here _ _)) as Ha.
  destruct (decide (P a)) as [Hp|Hp], (decide (Q a)) as [Hq|Hq]; tauto || reflexivity.
Qed.

Lemma sum_countFor (ks : list string) (evs : list NostrEvent) :
  NoDup ks ->
  sum_list_with (fun g => countFor g evs) ks =
  length (filter (fun e => getTagValue e "g" ∈ Some <$> ks) evs).
Proof.
  intros Hnd. induction evs as [|e evs IH].
  - simpl. induction ks as [|g ks IHks]; [reflexivity |].
    simpl. apply NoDup_cons in Hnd as [_ Hnd]. rewrite (IHks Hnd). reflexivity.
  - rewrite filter_cons.
    transitivity ((if decide (getTagValue e "g" ∈ Some <$> ks) then 1 else 0) +
                  sum_list_with (fun g => countFor g evs) ks)%nat.
    + rewrite <- (sum_indicator ks _ Hnd).
      clear. induction ks as [|g ks IHks]; [reflexivity |].
      simpl. rewrite IHks, countFor_cons. lia.
    + rewrite IH. destruct (decide _); reflexivity.
Qed.

(** X3.  The counts of the list add up to the number of events that carry a
    geocell. *)
Theorem chatrooms_total (evs : list NostrEvent) :
  sum_list_with messageCount (chatrooms (Some evs)) =
    length (filter (fun e => truthy (getTagValue e "g") = true) evs) /\
  (sum_list_with messageCount (chatrooms (Some evs)) <= length evs)%nat.
Proof.
  assert (H : sum_list_with messageCount (chatrooms (Some evs)) =
              length (filter (fun e => truthy (getTagValue e "g") = true) evs)).
  { rewrite chatrooms_closed, (arraySort_Permutation byCountDesc).
    transitivity (sum_list_with (fun g => countFor g evs) (firstSeen evs)).
    { induction (firstSeen evs) as [|g l IH]; [reflexivity |]. simpl. rewrite IH. reflexivity. }
    rewrite (sum_countFor _ _ (firstSeen_NoDup evs)). f_equal.
    apply filter_iff_in. intros e He. split.
    - intros Hin. apply list_elem_of_fmap in Hin as (g & Hg & Hin).
      apply truthy_Some. exists g. split; [exact Hg |].
      eapply firstSeen_nonempty, Hin.
    - intros Ht. apply truthy_Some in Ht as (g & Hg & Hne).
      apply list_elem_of_fmap. exists g. split; [exact Hg |].
      apply elem_of_firstSeen. exists e. split; [exact He |].
      apply geocellOf_Some. auto. }
  split; [exact H |]. rewrite H. apply length_filter.
Qed.

Lemma chatrooms_NoDup evs : NoDup (chatrooms (Some evs)).
Proof.
  rewrite chatrooms_closed, (arraySort_Permutation byCountDesc).
  apply NoDup_fmap_2_strong; [|apply firstSeen_NoDup].
  intros g1 g2 _ _. apply roomFor_inj.
Qed.

Lemma firstSeen_submseteq g evs evs' :
  evs ⊆+ evs' -> g ∈ firstSeen evs -> g ∈ firstSeen evs'.
Proof.
  intros Hsub. rewrite !elem_of_firstSeen. intros (e & He & Hg).
  exists e. split; [|exact Hg]. eapply elem_of_submseteq; eassumption.
Qed.

(** X4.  The list does not depend on the order of the timeline, except for
    the order among rooms with equal counts. *)
Theorem chatrooms_Permutation (evs evs' : list NostrEvent) :
  evs ≡ₚ evs' -> chatrooms (Some evs) ≡ₚ chatrooms (Some evs').
Proof.
  intros Hp. apply NoDup_Permutation; [apply chatrooms_NoDup .. |].
  intros room. rewrite !elem_of_chatrooms.
  assert (Hroom : forall g, roomFor evs g = roomFor evs' g).
  { intros g. unfold roomFor. rewrite (countFor_Permutation g _ _ Hp). reflexivity. }
  split; intros (g & Hg & ->); exists g; (split; [|auto]).
  - eapply firstSeen_submseteq; [|exact Hg]. rewrite Hp. reflexivity.
  - eapply firstSeen_submseteq; [|exact Hg]. rewrite Hp. reflexivity.
Qed.

Lemma chatrooms_Permutation_witness :
  chatrooms (Some [evA; evB; evC]) ≡ₚ chatrooms (Some [evC; evB; evA]).
Proof.
  apply (chatrooms_Permutation [evA; evB; evC] [evC; evB; evA]).
  change [evC; evB; evA] with (rev [evA; evB; evC]). apply Permutation_rev.
Defined.

Lemma view_of_room (evs : list NostrEvent) (room : Chatroom) :
  room ∈ chatrooms (Some evs) ->
  exists out, filteredEvents (Some evs) (Some (geohash room)) = Some out /\
    length out = messageCount room /\ out <> [] /\
    Forall (fun e => getTagValue e "g" = Some (geohash room)) out.
Proof.
  intros Hroom. apply elem_of_chatrooms in Hroom as (g & Hg & ->). simpl.
  pose proof (firstSeen_nonempty _ _ Hg) as Hne.
  apply firstSeen_countFor in Hg as [_ Hpos].
  unfold filteredEvents.
  assert (Ht : truthy (Some g) = true) by (apply truthy_Some; eauto).
  simpl in Ht. rewrite Ht. simpl. eexists. split; [reflexivity |].
  rewrite filter_strictEq. fold (countFor g evs).
  split; [reflexivity |]. split.
  - intros Hnil. unfold countFor in Hpos. rewrite Hnil in Hpos. simpl in Hpos. lia.
  - apply Forall_forall. intros e He. apply list_elem_of_filter in He as [He _]. exact He.
Qed.

(** X5.  The count shown for a room is the number of lines its filter view
    shows, and that view is not empty. *)
Theorem chatroom_count_is_view_length (evs : list NostrEvent) (room : Chatroom) :
  room ∈ chatrooms (Some evs) ->
  exists out, filteredEvents (Some evs) (Some (geohash room)) = Some out /\
    length out = messageCount room /\ out <> [] /\
    Forall (fun e => getTagValue e "g" = Some (geohash room)) out.
Proof. apply view_of_room. Qed.

Lemma chatroom_count_is_view_length_witness :
  exists out, filteredEvents (Some scenarioA) (Some "u4") = Some out /\
    length out = 2%nat /\ out <> [] /\
    Forall (fun e => getTagValue e "g" = Some "u4") out.
Proof.
  apply (chatroom_count_is_view_length scenarioA
           {| geohash := "u4"; name := "#u4"; messageCount := 2 |}).
  vm_compute. left.
Defined.

(** X6.  The sidebar shows "No chatrooms found yet..." exactly when no event
    of the timeline carries a geocell. *)
Theorem chatrooms_nil_iff (evs : list NostrEvent) :
  chatrooms (Some evs) = [] <->
  Forall (fun e => truthy (getTagValue e "g") = false) evs.
Proof.
  split.
  - intros Hnil. apply Forall_forall. intros e He.
    destruct (truthy (getTagValue e "g")) eqn:Ht; [|reflexivity]. exfalso.
    apply truthy_Some in Ht as (g & Hg & Hne).
    assert (Hin : roomFor evs g ∈ chatrooms (Some evs)).
    { apply elem_of_chatrooms. exists g. split; [|reflexivity].
      apply elem_of_firstSeen. exists e. split; [exact He |].
      apply geocellOf_Some. auto. }
    rewrite Hnil in Hin. inversion Hin.
  - intros Hall. destruct (chatrooms (Some evs)) as [|room l] eqn:Hc; [reflexivity |].
    exfalso. assert (Hin : room ∈ chatrooms (Some evs)) by (rewrite Hc; left).
    apply elem_of_chatrooms in Hin as (g & Hg & _).
    apply elem_of_firstSeen in Hg as (e & He & Hg).
    apply geocellOf_Some in Hg as [Hg Hne].
    rewrite Forall_forall in Hall. specialize (Hall e He).
    assert (Ht : truthy (getTagValue e "g") = true) by (apply truthy_Some; eauto).
    congruence.
Qed.

Lemma room_kept (evs evs' : list NostrEvent) (room : Chatroom) :
  evs ⊆+ evs' -> room ∈ chatrooms (Some evs) ->
  exists room', room' ∈ chatrooms (Some evs') /\
    geohash room' = geohash room /\ name room' = name room /\
    (messageCount room <= messageCount room')%nat /\
    (messageCount room' - messageCount room <= length evs' - length evs)%nat.
Proof.
  intros Hsub Hroom. apply elem_of_chatrooms in Hroom as (g & Hg & ->).
  exists (roomFor evs' g). split.
  - apply elem_of_chatrooms. exists g. split; [|reflexivity].
    eapply firstSeen_submseteq; eassumption.
  - simpl. split; [reflexivity |]. split; [reflexivity |].
    pose proof (countFor_submseteq g _ _ Hsub) as Hle. split; [exact Hle |].
    apply submseteq_Permutation in Hsub as [k Hk].
    rewrite (countFor_Permutation g _ _ Hk), Hk. unfold countFor.
    rewrite filter_app, !length_app.
    pose proof (length_filter (fun e => getTagValue e "g" = Some g) k). lia.
Qed.

(** X7.  New events never remove a room and never lower a count; a count
    grows by at most the number of new events. *)
Theorem chatrooms_grow (evs evs' : list NostrEvent) (room : Chatroom) :
  evs ⊆+ evs' -> room ∈ chatrooms (Some evs) ->
  exists room', room' ∈ chatrooms (Some evs') /\
    geohash room' = geohash room /\ name room' = name room /\
    (messageCount room <= messageCount room')%nat /\
    (messageCount room' - messageCount room <= length evs' - length evs)%nat.
Proof. apply room_kept. Qed.

Lemma chatrooms_grow_witness :
  exists room', room' ∈ chatrooms (Some [evC; evA; evB]) /\
    geohash room' = "u4" /\ name room' = "#u4" /\
    (1 <= messageCount room')%nat /\
    (messageCount room' - 1 <= 3 - 2)%nat.
Proof.
  apply (chatrooms_grow [evA; evC] [evC; evA; evB]
           {| geohash := "u4"; name := "#u4"; messageCount := 1 |}).
  - transitivity [evC; evA]; [apply submseteq_swap |].
    do 2 apply submseteq_skip. apply submseteq_nil_l.
  - vm_compute. left.
Defined.

(** ** [mapPoints] *)

Lemma decodeGeohash_Some (g : string) :
  inAlphabet g <-> exists p, decodeGeohash g = Some p.
Proof.
  unfold inAlphabet. rewrite Forall_forall. split.
  - intros Hall. destruct (decodeGeohash g) as [p|] eqn:Hd; [eauto |]. exfalso.
    apply decodeWith_None in Hd as (c & Hc & Hn). apply Hn, Hall, Hc.
  - intros [p Hp] c Hc.
    destruct (decide (c ∈ list_ascii_of_string base32)) as [Hin|Hn]; [exact Hin |].
    exfalso. assert (Hd : decodeGeohash g = None) by (apply decodeWith_None; eauto).
    congruence.
Qed.

Lemma mapPoints_rooms (rooms : list Chatroom) :
  roomOfPoint <$> mapPoints rooms = filter (fun room => inAlphabet (geohash room)) rooms.
Proof.
  unfold mapPoints. induction rooms as [|room rooms IH]; [reflexivity |].
  rewrite filter_cons. cbn [omap list_omap]. unfold toMapPoint at 1.
  destruct (decodeGeohash (geohash room)) as [p|] eqn:Hd.
  - rewrite decide_True by (apply decodeGeohash_Some; eauto).
    rewrite fmap_cons, IH. f_equal. destruct room; reflexivity.
  - rewrite decide_False; [exact IH |].
    intros Hin. apply decodeGeohash_Some in Hin as [p Hp]. congruence.
Qed.

(** X8.  The map has one point for each room whose geohash consists of
    alphabet characters, in the order of the room list, with the room's name
    and count and the decoded coordinates; the other rooms are left out. *)
Theorem mapPoints_decodable_rooms (rooms : list Chatroom) :
  roomOfPoint <$> mapPoints rooms =
    filter (fun room => inAlphabet (geohash room)) rooms /\
  Forall (fun p => decodeGeohash (point_geohash p) =
                   Some {| lat := point_lat p; lng := point_lng p |})
         (mapPoints rooms) /\
  (length (mapPoints rooms) <= length rooms)%nat.
Proof.
  split; [apply mapPoints_rooms |]. split.
  - apply Forall_forall. intros p Hp. unfold mapPoints in Hp.
    apply list_elem_of_omap in Hp as (room & _ & Hp). unfold toMapPoint in Hp.
    destruct (decodeGeohash (geohash room)) as [[la lo]|] eqn:Hd; [|discriminate].
    injection Hp as <-. exact Hd.
  - rewrite <- (length_fmap roomOfPoint), mapPoints_rooms. apply length_filter.
Qed.

(** X9.  The markers of the map have distinct keys. *)
Theorem mapPoints_keys_distinct (events : option (list NostrEvent)) :
  NoDup (point_geohash <$> mapPoints (chatrooms events)).
Proof.
  assert (H : point_geohash <$> mapPoints (chatrooms events) =
              geohash <$> (roomOfPoint <$> mapPoints (chatrooms events))).
  { rewrite <- list_fmap_compose. reflexivity. }
  rewrite H, mapPoints_rooms.
  apply (sublist_NoDup _ (geohash <$> chatrooms events));
    [|apply fmap_sublist, sublist_filter].
  destruct events as [evs|]; [|constructor].
  rewrite chatrooms_keys. apply firstSeen_NoDup.
Qed.

(** ** [ChatLine] *)

Lemma badge_Some (show : bool) (e : NostrEvent) (b : string) :
  geohashBadge show e = Some b <->
  show = true /\ exists g, geocellOf e = Some g /\ b = ("#" ++ g)%string.
Proof.
  unfold geohashBadge, geocellOf. destruct show; simpl; [|split; [discriminate | intros [? _]; discriminate]].
  destruct (truthy (getTagValue e "g")) eqn:Ht.
  - apply truthy_Some in Ht as (g & Hg & Hne). rewrite Hg. split.
    + intros [= <-]. eauto.
    + intros (_ & g' & [= <-] & ->). reflexivity.
  - split; [discriminate | intros (_ & g & Hg & _); discriminate].
Qed.

(** X11.  In the view without a selection a line carries a badge exactly
    when the event is counted in a room of the list, and the badge is that
    room's name; in a filter view no line carries a badge. *)
Theorem badge_is_room_name (evs : list NostrEvent) (sel : option string) (e : NostrEvent) :
  e ∈ evs ->
  match geohashBadge (negb (truthy sel)) e with
  | Some b =>
      truthy sel = false /\
      exists room, room ∈ chatrooms (Some evs) /\ name room = b /\
                   getTagValue e "g" = Some (geohash room)
  | None =>
      truthy sel = true \/
      forall room, room ∈ chatrooms (Some evs) ->
                   getTagValue e "g" <> Some (geohash room)
  end.
Proof.
  intros He. destruct (geohashBadge _ e) as [b|] eqn:Hb.
  - apply badge_Some in Hb as (Hsel & g & Hg & ->).
    split; [destruct (truthy sel); [discriminate | reflexivity] |].
    exists (roomFor evs g). split; [|split; [reflexivity |]].
    + apply elem_of_chatrooms. exists g. split; [|reflexivity].
      apply elem_of_firstSeen. eauto.
    + simpl. apply geocellOf_Some in Hg as [Hg _]. exact Hg.
  - destruct (truthy sel) eqn:Hsel; [left; reflexivity | right].
    intros room Hroom Hg.
    apply elem_of_chatrooms in Hroom as (g & Hin & ->). simpl in Hg.
    pose proof (firstSeen_nonempty _ _ Hin) as Hne.
    assert (Hsome : geohashBadge (negb false) e = Some ("#" ++ g)%string).
    { apply badge_Some. split; [reflexivity |]. exists g.
      split; [apply geocellOf_Some; auto | reflexivity]. }
    congruence.
Qed.

Lemma badge_is_room_name_witness :
  match geohashBadge (negb (truthy None)) evA with
  | Some b =>
      truthy None = false /\
      exists room, room ∈ chatrooms (Some scenarioA) /\ name room = b /\
                   getTagValue evA "g" = Some (geohash room)
  | None =>
      truthy None = true \/
      forall room, room ∈ chatrooms (Some scenarioA) ->
                   getTagValue evA "g" <> Some (geohash room)
  end.
Proof. apply (badge_is_room_name scenarioA None evA). vm_compute. left. Defined.

(** ** The view state *)

Lemma handle_selection (evs : list NostrEvent) (st : UiState) (a : Action) (g : string) :
  offered (Some evs) st a ->
  (forall g0, selectedChatroom st = Some g0 ->
     exists room, room ∈ chatrooms (Some evs) /\ geohash room = g0) ->
  selectedChatroom (handle st a) = Some g ->
  exists room, room ∈ chatrooms (Some evs) /\ geohash room = g.
Proof.
  intros Hoff Hinv. destruct a as [room| |point| |]; simpl.
  - destruct Hoff as [_ Hroom]. destruct (strictEq _ _); [discriminate |].
    intros [= <-]. eauto.
  - apply Hinv.
  - destruct Hoff as [_ Hp]. intros [= <-].
    apply elem_of_mapPoints in Hp as (room & Hroom & Hg & _). eauto.
  - discriminate.
  - discriminate.
Qed.

Lemma reachable_room (evs : list NostrEvent) (st : UiState) (g : string) :
  reachable evs st -> selectedChatroom st = Some g ->
  exists room, room ∈ chatrooms (Some evs) /\ geohash room = g.
Proof.
  intros Hr. revert g. induction Hr as [|evs evs' st Hr IH Hsub|evs st a Hr IH Hoff]; intros g.
  - discriminate.
  - intros Hsel. destruct (IH g Hsel) as (room & Hroom & Hg).
    destruct (room_kept evs evs' room Hsub Hroom) as (room' & Hroom' & Hg' & _).
    exists room'. split; [exact Hroom' | congruence].
  - apply (handle_selection evs st a g Hoff IH).
Qed.

(** X12.  While the timeline only gains events, whatever the user clicks, a
    selected room is a room of the current list: the selection is never the
    empty string, its filter view shows as many lines as the room's count,
    at least one, and the notice "No messages in ..." is never shown. *)
Theorem reachable_selection (evs : list NostrEvent) (st : UiState) (g : string) :
  reachable evs st -> selectedChatroom st = Some g ->
  g <> "" /\
  exists room out, room ∈ chatrooms (Some evs) /\ geohash room = g /\
    filteredEvents (Some evs) (selectedChatroom st) = Some out /\
    out = filter (fun e => getTagValue e "g" = Some g) evs /\
    length out = messageCount room /\ out <> [] /\
    mainArea (Some evs) (selectedChatroom st) = ChatLines out false.
Proof.
  intros Hr Hsel. destruct (reachable_room evs st g Hr Hsel) as (room & Hroom & <-).
  assert (Hne : geohash room <> "").
  { apply elem_of_chatrooms in Hroom as (g & Hg & ->). simpl.
    eapply firstSeen_nonempty, Hg. }
  split; [exact Hne |].
  destruct (view_of_room evs room Hroom) as (out & Hout & Hlen & Hnil & _).
  exists room, out. rewrite Hsel.
  assert (Ht : truthy (Some (geohash room)) = true) by (apply truthy_Some; eauto).
  split; [exact Hroom |]. split; [reflexivity |]. split; [exact Hout |]. split.
  { unfold filteredEvents in Hout. rewrite Ht in Hout. simpl in Hout.
    injection Hout as <-. apply filter_strictEq. }
  split; [exact Hlen |]. split; [exact Hnil |].
  unfold mainArea. rewrite Hout, Ht. destruct out; [congruence | reflexivity].
Qed.

Lemma reachable_selection_witness :
  "u4" <> "" /\
  exists room out, room ∈ chatrooms (Some scenarioA) /\ geohash room = "u4" /\
    filteredEvents (Some scenarioA) (Some "u4") = Some out /\
    out = filter (fun e => getTagValue e "g" = Some "u4") scenarioA /\
    length out = messageCount room /\ out <> [] /\
    mainArea (Some scenarioA) (Some "u4") = ChatLines out false.
Proof.
  apply (reachable_selection scenarioA
           (handle uiInit (RoomClick {| geohash := "u4"; name := "#u4"; messageCount := 2 |}))
           "u4").
  - apply reach_step.
    + apply (reach_grow [] scenarioA); [apply reach_init | apply submseteq_nil_l].
    + split; [reflexivity |]. vm_compute. left.
  - reflexivity.
Defined.

Section IconFacts.
Import SpecFloat.
Local Open Scope Z_scope.

Lemma SFcompare_refl (x : spec_float) :
  x <> S754_nan -> SFcompare x x = Some Eq.
Proof.
  destruct x as [s|s| |s m e]; intros H; try reflexivity; [destruct s; reflexivity | congruence |].
  simpl. rewrite Z.compare_refl, Pos.compare_cont_refl. destruct s; reflexivity.
Qed.

Lemma SFcompare_antisym (x y : spec_float) :
  SFcompare y x = option_map CompOpp (SFcompare x y).
Proof.
  destruct x as [s1|s1| |s1 m1 e1], y as [s2|s2| |s2 m2 e2]; simpl; try reflexivity;
    try (destruct s1; reflexivity); try (destruct s2; reflexivity);
    try (destruct s1, s2; reflexivity).
  rewrite (Z.compare_antisym e1 e2).
  change (Pos.compare_cont Eq m2 m1) with (Pos.compare_cont (CompOpp Eq) m2 m1).
  rewrite <- (Pos.compare_cont_antisym m1 m2 Eq).
  destruct s1, s2; simpl; try reflexivity;
    destruct (e1 ?= e2); simpl; try reflexivity;
    destruct (Pos.compare_cont Eq m1 m2); reflexivity.
Qed.

Lemma is_nan_spec (x : float) : is_nan x = false <-> Prim2SF x <> S754_nan.
Proof.
  unfold is_nan. rewrite FloatAxioms.eqb_spec. unfold SFeqb. split.
  - intros H Hn. rewrite Hn in H. discriminate.
  - intros H. rewrite (SFcompare_refl _ H). reflexivity.
Qed.

Lemma ltb_leb (x y : float) : (x <? y)%float = true -> (x <=? y)%float = true.
Proof.
  rewrite FloatAxioms.ltb_spec, FloatAxioms.leb_spec. unfold SFltb, SFleb.
  destruct (SFcompare _ _) as [[]|]; congruence.
Qed.

Lemma not_ltb_leb (x y : float) :
  is_nan x = false -> is_nan y = false ->
  (x <? y)%float = false -> (y <=? x)%float = true.
Proof.
  rewrite !is_nan_spec, FloatAxioms.ltb_spec, FloatAxioms.leb_spec.
  unfold SFltb, SFleb. rewrite (SFcompare_antisym (Prim2SF x) (Prim2SF y)).
  intros Hx Hy.
  destruct (SFcompare (Prim2SF x) (Prim2SF y)) as [[]|] eqn:Hc; simpl; try congruence.
  exfalso. destruct (Prim2SF x), (Prim2SF y); simpl in Hc; congruence.
Qed.

Lemma leb_refl (x : float) : is_nan x = false -> (x <=? x)%float = true.
Proof.
  rewrite is_nan_spec, FloatAxioms.leb_spec. intros H. unfold SFleb.
  rewrite (SFcompare_refl _ H). reflexivity.
Qed.

(** Rounding a non-negative mantissa never gives [NaN]. *)
Lemma shr_m_nonneg mrs e n : 0 <= shr_m mrs -> 0 <= shr_m (fst (shr mrs e n)).
Proof.
  intros H. unfold shr. destruct n as [|p|p]; simpl; try exact H.
  rewrite iter_pos_nat, shr_m_iter by exact H.
  apply Z.div_pos; [exact H |]. apply Z.pow_pos_nonneg; lia.
Qed.

Lemma shr_fexp_nonneg m e l : 0 <= m -> 0 <= shr_m (fst (shr_fexp prec emax m e l)).
Proof.
  intros H. unfold shr_fexp. apply shr_m_nonneg.
  unfold shr_record_of_loc. destruct l as [|[]]; simpl; exact H.
Qed.

Lemma binary_round_aux_not_nan s m e l :
  0 <= m -> binary_round_aux prec emax s m e l <> S754_nan.
Proof.
  intros H. unfold binary_round_aux.
  pose proof (shr_fexp_nonneg m e l H) as H1.
  destruct (shr_fexp prec emax m e l) as [mrs' e'] eqn:E1. simpl in H1.
  pose proof (round_nearest_even_bounds (shr_m mrs') (loc_of_shr_record mrs')) as [H2 _].
  pose proof (shr_fexp_nonneg _ e' loc_Exact (Z.le_trans _ _ _ H1 H2)) as H3.
  destruct (shr_fexp prec emax (round_nearest_even _ _) e' loc_Exact) as [mrs'' e''] eqn:E2.
  simpl in H3. destruct (shr_m mrs'') as [|p|p]; [discriminate | | lia].
  destruct (e'' <=? emax - prec); discriminate.
Qed.

Lemma binary_normalize_not_nan m e : binary_normalize prec emax m e false <> S754_nan.
Proof.
  destruct m as [|p|p]; simpl; [discriminate | |];
    unfold binary_round; destruct (shl_align _ _ _) as [mz ez];
    apply binary_round_aux_not_nan; lia.
Qed.

Lemma SFadd_not_nan s m e y :
  y <> S754_nan -> SFadd prec emax (S754_finite s m e) y <> S754_nan.
Proof.
  destruct y as [sy|sy| |sy my ey]; intros H; simpl; try discriminate; [congruence |].
  apply binary_normalize_not_nan.
Qed.

Lemma SFdiv_not_nan x s m e :
  x <> S754_nan -> SFdiv prec emax x (S754_finite s m e) <> S754_nan.
Proof.
  destruct x as [sx|sx| |sx mx ex]; intros H; simpl; try discriminate; [congruence |].
  unfold SFdiv_core_binary.
  set (m' := match _ with Z0 => _ | Zpos _ => _ | Zneg _ => _ end).
  assert (Hm : 0 <= m').
  { unfold m'. destruct (_ - _ - _) as [|p|p]; [lia | | lia].
    apply Z.shiftl_nonneg. lia. }
  pose proof (Z.div_eucl_eq m' (Zpos m) ltac:(lia)) as Hdiv.
  pose proof (Z_div_mod m' (Zpos m) ltac:(lia)) as Hmod.
  destruct (Z.div_eucl m' (Zpos m)) as [q r].
  apply binary_round_aux_not_nan. nia.
Qed.

Lemma add_not_nan (c y : float) s m e :
  Prim2SF c = S754_finite s m e -> is_nan y = false -> is_nan (c + y)%float = false.
Proof.
  rewrite !is_nan_spec, FloatAxioms.add_spec. intros -> H. apply SFadd_not_nan, H.
Qed.

Lemma div_not_nan (x c : float) s m e :
  Prim2SF c = S754_finite s m e -> is_nan x = false -> is_nan (x / c)%float = false.
Proof.
  rewrite !is_nan_spec, FloatAxioms.div_spec. intros -> H. apply SFdiv_not_nan, H.
Qed.

Lemma mathMin_bound (c x : float) :
  is_nan c = false -> is_nan x = false ->
  is_nan (mathMin c x) = false /\ (mathMin c x <=? c)%float = true /\
  (mathMin c x <=? x)%float = true.
Proof.
  intros Hc Hx. unfold mathMin. rewrite Hc, Hx. simpl.
  destruct (c <? x)%float eqn:H1.
  - split; [exact Hc |]. split; [apply leb_refl, Hc | apply ltb_leb, H1].
  - destruct (x <? c)%float eqn:H2.
    + split; [exact Hx |]. split; [apply ltb_leb, H2 | apply leb_refl, Hx].
    + destruct (is_zero c && get_sign c).
      * split; [exact Hc |]. split; [apply leb_refl, Hc | apply not_ltb_leb; assumption].
      * split; [exact Hx |]. split; [apply not_ltb_leb; assumption | apply leb_refl, Hx].
Qed.

Lemma mathMax_bound (c x hi : float) :
  is_nan c = false -> is_nan x = false ->
  (c <=? hi)%float = true -> (x <=? hi)%float = true ->
  is_nan (mathMax c x) = false /\ (c <=? mathMax c x)%float = true /\
  (x <=? mathMax c x)%float = true /\ (mathMax c x <=? hi)%float = true.
Proof.
  intros Hc Hx Hchi Hxhi. unfold mathMax. rewrite Hc, Hx. simpl.
  destruct (c <? x)%float eqn:H1.
  - split; [exact Hx |]. split; [apply ltb_leb, H1 |]. split; [apply leb_refl, Hx | exact Hxhi].
  - destruct (x <? c)%float eqn:H2.
    + split; [exact Hc |]. split; [apply leb_refl, Hc |].
      split; [apply ltb_leb, H2 | exact Hchi].
    + destruct (is_zero c && get_sign c).
      * split; [exact Hx |]. split; [apply not_ltb_leb; assumption |].
        split; [apply leb_refl, Hx | exact Hxhi].
      * split; [exact Hc |]. split; [apply leb_refl, Hc |].
        split; [apply not_ltb_leb; assumption | exact Hchi].
Qed.
End IconFacts.

(** X13.  Whatever the message count, the icon's diameter is a number
    between 20 and 40 and its font size is a number, at least 10. *)
Theorem createChatroomIcon_bounds (messageCount : float) :
  is_nan messageCount = false ->
  let icon := createChatroomIcon messageCount in
  is_nan (icon_size icon) = false /\
  (20 <=? icon_size icon)%float = true /\ (icon_size icon <=? 40)%float = true /\
  is_nan (icon_fontSize icon) = false /\ (10 <=? icon_fontSize icon)%float = true.
Proof.
  intros Hmc. cbn zeta. unfold createChatroomIcon. cbn [icon_size icon_fontSize].
  assert (Hq : is_nan (messageCount / 5)%float = false)
    by (eapply div_not_nan; [vm_compute; reflexivity | exact Hmc]).
  assert (Hx : is_nan (20 + messageCount / 5)%float = false)
    by (eapply add_not_nan; [vm_compute; reflexivity | exact Hq]).
  destruct (mathMin_bound 40 _ eq_refl Hx) as (Hm & Hm40 & _).
  destruct (mathMax_bound 20 _ 40 eq_refl Hm eq_refl Hm40) as (Hs & Hs20 & _ & Hs40).
  assert (Hs3 : is_nan (mathMax 20 (mathMin 40 (20 + messageCount / 5)) / 3)%float = false)
    by (eapply div_not_nan; [vm_compute; reflexivity | exact Hs]).
  split; [exact Hs |]. split; [exact Hs20 |]. split; [exact Hs40 |].
  unfold mathMax at 1 3. rewrite Hs3. simpl.
  destruct (10 <? _)%float eqn:H1; [split; [exact Hs3 | apply ltb_leb, H1] |].
  destruct (_ <? 10)%float; split; reflexivity.
Qed.

Lemma createChatroomIcon_bounds_witness :
  let icon := createChatroomIcon 7 in
  is_nan (icon_size icon) = false /\
  (20 <=? icon_size icon)%float = true /\ (icon_size icon <=? 40)%float = true /\
  is_nan (icon_fontSize icon) = false /\ (10 <=? icon_fontSize icon)%float = true.
Proof. apply (createChatroomIcon_bounds 7). reflexivity. Defined.

Section LinkFacts.
Import UrlRegex.


Lemma stripPrefix_Some pre s r : stripPrefix pre s = Some r <-> s = pre ++ r.
Proof.
  revert s. induction pre as [|a pre IH]; intros s; simpl.
  - split; congruence.
  - destruct s as [|b s]; [split; discriminate |].
    destruct (N.eqb_spec a b) as [->|Hne].
    + rewrite IH. split; congruence.
    + split; [discriminate | congruence].
Qed.

Lemma nonSpaceRun_le s : nonSpaceRun s <= length s.
Proof. induction s as [|c s IH]; simpl; [lia |]. destruct (isWhiteSpace c); simpl; lia. Qed.

Lemma nonSpaceRun_take s : nonSpaceRun (take (nonSpaceRun s) s) = nonSpaceRun s.
Proof.
  induction s as [|c s IH]; simpl; [reflexivity |].
  destruct (isWhiteSpace c) eqn:Hc; simpl; [reflexivity |]. rewrite Hc, IH. reflexivity.
Qed.

Lemma nonSpaceRun_take_le m s : nonSpaceRun (take m s) <= nonSpaceRun s.
Proof.
  revert m. induction s as [|c s IH]; intros [|m]; simpl; try lia.
  destruct (isWhiteSpace c); [lia |]. specialize (IH m). lia.
Qed.

Lemma nonSpaceRun_Forall s :
  Forall (fun c => isWhiteSpace c = false) (take (nonSpaceRun s) s).
Proof.
  induction s as [|c s IH]; simpl; [constructor |].
  destruct (isWhiteSpace c) eqn:Hc; simpl; constructor; assumption.
Qed.

Lemma nonSpaceRun_all s :
  Forall (fun c => isWhiteSpace c = false) s -> nonSpaceRun s = length s.
Proof. induction 1 as [|c s Hc _ IH]; simpl; [reflexivity |]. rewrite Hc, IH. reflexivity. Qed.

Lemma matchRest_Some s n :
  matchRest s = Some n <->
  exists r, s = str_colonSlashes ++ r /\ n = 3 + nonSpaceRun r /\ 0 < nonSpaceRun r.
Proof.
  unfold matchRest. destruct (stripPrefix str_colonSlashes s) as [r|] eqn:Hs.
  - apply stripPrefix_Some in Hs. subst s.
    destruct (Nat.eqb_spec (nonSpaceRun r) 0) as [H0|H0].
    + split; [discriminate |]. intros (r' & Hr & _ & Hpos).
      apply app_inv_head in Hr. subst r'. lia.
    + split.
      * intros [= <-]. exists r. repeat split; lia.
      * intros (r' & Hr & -> & _). apply app_inv_head in Hr. subst r'. reflexivity.
  - split; [discriminate |]. intros (r & Hr & _).
    apply stripPrefix_Some in Hr. congruence.
Qed.

(** What a match is: one of the two schemes followed by the longest run
    without white space, which is not empty. *)
Lemma matchUrlAt_Some s n :
  matchAt s = Some n <->
  exists r, 0 < nonSpaceRun r /\
    (s = str_http ++ str_colonSlashes ++ r /\ n = 7 + nonSpaceRun r \/
     s = str_http ++ chr_s :: str_colonSlashes ++ r /\ n = 8 + nonSpaceRun r).
Proof.
  unfold matchAt. destruct (stripPrefix str_http s) as [r|] eqn:Hs.
  - apply stripPrefix_Some in Hs. subst s.
    destruct r as [|c r'].
    + simpl. split; [discriminate |].
      intros (r & _ & [[H _]|[H _]]); discriminate.
    + destruct (N.eqb_spec c chr_s) as [->|Hc].
      * destruct (matchRest r') as [n'|] eqn:Hm.
        -- apply matchRest_Some in Hm as (r & -> & -> & Hpos). split.
           ++ intros [= <-]. exists r. split; [exact Hpos |]. right. split; [reflexivity | lia].
           ++ intros (r0 & Hpos0 & [[H _]|[H ->]]); cbn in H; simplify_eq;
              try (f_equal; lia).
        -- assert (Hm' : matchRest (chr_s :: r') = None) by reflexivity.
           rewrite Hm'. split; [discriminate |].
           intros (r0 & Hpos0 & [[H _]|[H _]]); cbn in H; simplify_eq.
           assert (Hsome : matchRest (str_colonSlashes ++ r0) = Some (3 + nonSpaceRun r0))
             by (apply matchRest_Some; eauto).
           cbn in Hsome, Hm. congruence.
      * destruct (matchRest (c :: r')) as [n'|] eqn:Hm.
        -- apply matchRest_Some in Hm as (r & Hr & -> & Hpos). rewrite Hr. split.
           ++ intros [= <-]. exists r. split; [exact Hpos |]. left. split; [reflexivity | lia].
           ++ intros (r0 & Hpos0 & [[H ->]|[H _]]); cbn in H; simplify_eq;
              try (f_equal; lia).
        -- split; [discriminate |].
           intros (r0 & Hpos0 & [[H _]|[H _]]); cbn in H; simplify_eq.
           assert (Hsome : matchRest (str_colonSlashes ++ r0) = Some (3 + nonSpaceRun r0))
             by (apply matchRest_Some; eauto).
           cbn in Hsome, Hm. congruence.
  - split; [discriminate |].
    intros (r & _ & [[H _]|[H _]]);
      assert (Hs' : stripPrefix str_http s = Some (drop 4 s))
        by (apply stripPrefix_Some; rewrite H; reflexivity);
      congruence.
Qed.

Lemma nonSpaceRun_app_le r x : nonSpaceRun r <= nonSpaceRun (r ++ x).
Proof.
  induction r as [|c r IH]; simpl; [lia |]. destruct (isWhiteSpace c); lia.
Qed.

Lemma matchUrlAt_length s n : matchAt s = Some n -> 0 < n <= length s.
Proof.
  intros H. apply matchUrlAt_Some in H as (r & Hpos & [[-> ->]|[-> ->]]);
    pose proof (nonSpaceRun_le r); cbn [length app str_http str_colonSlashes]; lia.
Qed.

Lemma matchUrlAt_nil : matchAt [] = None.
Proof. reflexivity. Qed.

(** A match in a prefix of a string is a match in the string. *)
Lemma matchUrlAt_take m s n :
  matchAt (take m s) = Some n -> exists n', matchAt s = Some n'.
Proof.
  intros H. apply matchUrlAt_Some in H as (r & Hpos & Hs).
  pose proof (nonSpaceRun_app_le r (drop m s)) as Hle.
  rewrite <- (take_drop m s).
  destruct Hs as [[-> _]|[-> _]]; eexists; apply matchUrlAt_Some;
    exists (r ++ drop m s); (split; [lia |]); [left | right];
    (split; [|reflexivity]); cbn; rewrite <- ?app_assoc; reflexivity.
Qed.

(** The matched text is a URL, and matches as a whole. *)
Lemma matchUrlAt_isUrl s n : matchAt s = Some n -> isUrl (take n s).
Proof.
  intros H. apply matchUrlAt_Some in H as (r & Hpos & Hs).
  exists (take (nonSpaceRun r) r).
  split; [|split; [|apply nonSpaceRun_Forall]].
  - destruct Hs as [[-> ->]|[-> ->]]; [left | right]; reflexivity.
  - destruct r as [|c r]; [simpl in Hpos; lia |]. simpl in *.
    destruct (isWhiteSpace c); [lia | discriminate].
Qed.

Lemma isUrl_match u : isUrl u -> matchAt u = Some (length u).
Proof.
  intros (r & Hu & Hne & Hall). pose proof (nonSpaceRun_all r Hall) as Hrun.
  apply matchUrlAt_Some. exists r. split.
  - rewrite Hrun. destruct r; [congruence | simpl; lia].
  - destruct Hu as [-> | ->]; [left | right]; (split; [reflexivity |]);
      cbn [length app str_http str_colonSlashes]; rewrite ?length_app; simpl; lia.
Qed.

Lemma noUrl_drop i s : noUrl s -> noUrl (drop i s).
Proof. intros H j. rewrite drop_drop. apply H. Qed.

Lemma execFrom_noUrl i s : noUrl s -> execFrom i s = None.
Proof.
  revert i. induction s as [|c s IH]; intros i H; simpl.
  - reflexivity.
  - pose proof (H 0) as H0. rewrite drop_0 in H0. rewrite H0.
    apply IH. intros j. apply (H (S j)).
Qed.

Lemma test_noUrl lastIndex s : noUrl s -> test lastIndex s = (false, 0).
Proof.
  intros H. unfold test. destruct (_ <? _)%nat; [reflexivity |].
  rewrite execFrom_noUrl by (apply noUrl_drop, H). reflexivity.
Qed.

Lemma test_isUrl u : isUrl u -> test 0 u = (true, length u).
Proof.
  intros H. unfold test. simpl. destruct u as [|c u].
  - apply isUrl_match in H. discriminate.
  - simpl. rewrite (isUrl_match _ H). reflexivity.
Qed.

Lemma substring_noUrl (str : list N) (p q : nat) :
  (forall j, p <= j < q -> matchAt (drop j str) = None) ->
  noUrl (substring p q str).
Proof.
  intros H i. unfold substring.
  destruct (le_lt_dec (q - p) i) as [Hi|Hi].
  - rewrite drop_ge by (rewrite length_take; lia). reflexivity.
  - destruct (matchAt (drop i (take (q - p) (drop p str)))) as [n|] eqn:Hm; [|reflexivity].
    exfalso.
    replace (drop i (take (q - p) (drop p str)))
      with (take (q - p - i) (drop (p + i) str)) in Hm.
    + apply matchUrlAt_take in Hm as [n' Hn']. rewrite H in Hn' by lia. discriminate.
    + rewrite <- drop_drop, (take_drop_commute (drop p str)). f_equal. f_equal. lia.
Qed.

Lemma mjoin_cons {A} (x : list A) (l : list (list A)) : mjoin (x :: l) = x ++ mjoin l.
Proof. reflexivity. Qed.

Lemma splitLoop_spec (fuel : nat) (str : list N) (p q : nat) :
  p <= q <= length str -> length str - q < fuel ->
  (forall j, p <= j < q -> matchAt (drop j str) = None) ->
  mjoin (splitLoop fuel str p q) = drop p str /\ Parts (splitLoop fuel str p q).
Proof.
  revert p q. induction fuel as [|fuel IH]; intros p q Hpq Hfuel Hno; [lia |].
  cbn [splitLoop]. destruct (Nat.leb_spec (length str) q) as [Hq|Hq].
  - assert (q = length str) by lia. subst q. split.
    + unfold substring. simpl. rewrite app_nil_r.
      apply take_ge. rewrite length_drop. lia.
    + constructor. apply substring_noUrl. exact Hno.
  - destruct (matchAt (drop q str)) as [n|] eqn:Hm.
    + pose proof (matchUrlAt_length _ _ Hm) as Hn. rewrite length_drop in Hn.
      replace (Nat.min (q + n) (length str)) with (q + n) by lia.
      destruct (Nat.eqb_spec (q + n) p) as [Heq|_]; [lia |].
      destruct (IH (q + n) (q + n)) as [Hjoin Hparts]; [lia | lia | intros j Hj; lia |].
      split.
      * rewrite !mjoin_cons, Hjoin. unfold substring.
        replace (q + n - q) with n by lia.
        rewrite <- (drop_drop str n q), (take_drop n (drop q str)).
        replace (drop q str) with (drop (q - p) (drop p str))
          by (rewrite drop_drop; f_equal; lia).
        apply take_drop.
      * constructor; [apply substring_noUrl, Hno | | exact Hparts].
        unfold substring. replace (q + n - q) with n by lia.
        eapply matchUrlAt_isUrl, Hm.
    + apply IH; [lia | lia |].
      intros j Hj. destruct (Nat.eq_dec j q) as [->|Hne]; [exact Hm | apply Hno; lia].
Qed.

Lemma split_spec (text : list N) : mjoin (split text) = text /\ Parts (split text).
Proof.
  unfold split. destruct text as [|c text].
  - simpl. split; [reflexivity |]. constructor. intros i. destruct i; reflexivity.
  - cbn [length Nat.eqb].
    destruct (splitLoop_spec (S (length (c :: text))) (c :: text) 0 0) as [Hj Hp];
      [simpl; lia | simpl; lia | intros j Hj; lia |].
    split; [exact Hj | exact Hp].
Qed.

Lemma renderParts_text (lastIndex index : nat) (parts : list (list N)) :
  nodeText <$> renderParts lastIndex index parts = parts.
Proof.
  revert lastIndex index. induction parts as [|part rest IH]; intros li idx; [reflexivity |].
  cbn [renderParts]. destruct (test li part) as [b li']. rewrite fmap_cons, IH.
  destruct b; reflexivity.
Qed.

Lemma renderParts_Parts (parts : list (list N)) :
  Parts parts -> forall lastIndex index i node,
  renderParts lastIndex index parts !! i = Some node ->
  match node with
  | Anchor key href => key = index + i /\ isUrl href
  | Text s => noUrl s
  end.
Proof.
  induction 1 as [t Ht|t u rest Ht Hu _ IH]; intros li idx i node.
  - cbn [renderParts]. rewrite (test_noUrl li t Ht).
    destruct i as [|i]; simpl; [intros [= <-]; exact Ht | destruct i; discriminate].
  - cbn [renderParts]. rewrite (test_noUrl li t Ht), (test_isUrl u Hu).
    destruct i as [|[|i]]; simpl.
    + intros [= <-]. exact Ht.
    + intros [= <-]. split; [lia | exact Hu].
    + intros Hnode. apply IH in Hnode. destruct node as [key href|s]; [|exact Hnode].
      destruct Hnode as [-> Hurl]. split; [lia | exact Hurl].
Qed.

(** X16.  The rendered parts, put together again, are the text: nothing is
    lost, added or reordered. *)
Theorem renderTextWithLinks_text (text : list N) :
  mjoin (nodeText <$> renderTextWithLinks text) = text.
Proof.
  unfold renderTextWithLinks. rewrite renderParts_text. apply split_spec.
Qed.

(** X17.  Every link is a URL ([http://] or [https://] and a non-empty run
    without white space) and carries its position as key; no URL is left
    inside a part rendered as text. (The [lastIndex] that the global
    [urlRegex] keeps between the calls of [test] never makes a call miss.) *)
Theorem renderTextWithLinks_links (text : list N) (i : nat) (node : Node) :
  renderTextWithLinks text !! i = Some node ->
  match node with
  | Anchor key href => key = i /\ isUrl href
  | Text s => noUrl s
  end.
Proof.
  intros H. unfold renderTextWithLinks in H.
  apply (renderParts_Parts _ (proj2 (split_spec text)) 0 0 i node) in H. exact H.
Qed.

Lemma renderTextWithLinks_links_witness :
  1%nat = 1%nat /\
  isUrl [104; 116; 116; 112; 115; 58; 47; 47; 97; 46; 98]%N.
Proof.
  apply (renderTextWithLinks_links
           [104; 105; 32; 104; 116; 116; 112; 115; 58; 47; 47; 97; 46; 98; 32; 99]%N 1
           (Anchor 1 [104; 116; 116; 112; 115; 58; 47; 47; 97; 46; 98]%N)).
  vm_compute. reflexivity.
Defined.
End LinkFacts.

Section DecoderCodes.
Import SpecFloat.
Local Open Scope Z_scope.

Lemma SFltb_irrefl (x : spec_float) : SFltb x x = false.
Proof.
  unfold SFltb. destruct x as [s|s| |s m e]; simpl; try reflexivity;
    [destruct s; reflexivity |].
  rewrite Z.compare_refl, Pos.compare_cont_refl. destruct s; reflexivity.
Qed.

(** A binary64 number has one value. *)
Lemma repr_unique (x : float) (z1 e1 z2 e2 g : Z) :
  repr x z1 e1 -> repr x z2 e2 -> fitsZ z1 e1 -> fitsZ z2 e2 ->
  g <= e1 -> g <= e2 ->
  z1 * 2 ^ (e1 - g) = z2 * 2 ^ (e2 - g).
Proof.
  unfold repr. intros H1 H2 F1 F2 G1 G2.
  destruct (Z.lt_trichotomy (z1 * 2 ^ (e1 - g)) (z2 * 2 ^ (e2 - g))) as [Hlt|[Heq|Hgt]].
  - pose proof (SFltb_value z1 e1 z2 e2 g F1 F2 G1 G2 Hlt) as H.
    rewrite <- H1, <- H2, SFltb_irrefl in H. discriminate.
  - exact Heq.
  - pose proof (SFltb_value z2 e2 z1 e1 g F2 F1 G2 G1 Hgt) as H.
    rewrite <- H1, <- H2, SFltb_irrefl in H. discriminate.
Qed.

Lemma pow2_S (k : nat) : 2 ^ Z.of_nat (S k) = 2 * 2 ^ Z.of_nat k.
Proof. rewrite Nat2Z.inj_succ, Z.pow_succ_r; lia. Qed.

Lemma pow2_pos (k : nat) : 0 < 2 ^ Z.of_nat k.
Proof. apply Z.pow_pos_nonneg; lia. Qed.

Lemma axisCode_fits (e0 : Z) (k : nat) (B : Z) :
  -50 <= e0 <= 50 -> (k <= 47)%nat -> 0 <= B < 2 ^ Z.of_nat k ->
  fitsZ (45 * (2 * B - 2 ^ Z.of_nat k + 1)) (e0 - Z.of_nat k).
Proof.
  intros He0 Hk HB. pose proof (pow2_le k 47 Hk) as Hpow. rewrite pow2_47 in Hpow.
  apply fitsZ_small; [|lia]. change (2 ^ 53) with 9007199254740992. lia.
Qed.

(** The value of an axis tells the number of its bits and the bits. *)
Lemma axisCode_unique (e0 : Z) (k1 k2 : nat) (B1 B2 : Z) (v err1 err2 : float) :
  -50 <= e0 <= 50 -> (k1 <= 47)%nat -> (k2 <= 47)%nat ->
  axisCode e0 k1 B1 v err1 -> axisCode e0 k2 B2 v err2 ->
  k1 = k2 /\ B1 = B2.
Proof.
  intros He0 Hk1 Hk2 (HB1 & Hv1 & _) (HB2 & Hv2 & _).
  pose proof (axisCode_fits e0 k1 B1 He0 Hk1 HB1) as F1.
  pose proof (axisCode_fits e0 k2 B2 He0 Hk2 HB2) as F2.
  destruct (lt_eq_lt_dec k1 k2) as [[Hlt|Heq]|Hgt].
  - exfalso.
    pose proof (repr_unique v _ _ _ _ (e0 - Z.of_nat k2) Hv1 Hv2 F1 F2 ltac:(lia) ltac:(lia)) as H.
    replace (e0 - Z.of_nat k2 - (e0 - Z.of_nat k2)) with 0 in H by lia.
    replace (e0 - Z.of_nat k1 - (e0 - Z.of_nat k2)) with (Z.of_nat (S (k2 - k1 - 1))) in H by lia.
    destruct k2 as [|k2']; [lia |].
    rewrite (pow2_S (S k2' - k1 - 1)), (pow2_S k2') in H.
    set (X := 2 ^ Z.of_nat (S k2' - k1 - 1)) in H.
    set (Y := (2 * B1 - 2 ^ Z.of_nat k1 + 1) * X).
    assert (HY : 45 * (2 * B1 - 2 ^ Z.of_nat k1 + 1) * (2 * X) = 90 * Y) by (unfold Y; ring).
    rewrite HY in H. simpl in H. lia.
  - subst k2. split; [reflexivity |].
    pose proof (repr_unique v _ _ _ _ (e0 - Z.of_nat k1) Hv1 Hv2 F1 F2 ltac:(lia) ltac:(lia)) as H.
    replace (e0 - Z.of_nat k1 - (e0 - Z.of_nat k1)) with 0 in H by lia.
    simpl in H. lia.
  - exfalso.
    pose proof (repr_unique v _ _ _ _ (e0 - Z.of_nat k1) Hv1 Hv2 F1 F2 ltac:(lia) ltac:(lia)) as H.
    replace (e0 - Z.of_nat k1 - (e0 - Z.of_nat k1)) with 0 in H by lia.
    replace (e0 - Z.of_nat k2 - (e0 - Z.of_nat k1)) with (Z.of_nat (S (k1 - k2 - 1))) in H by lia.
    destruct k1 as [|k1']; [lia |].
    rewrite (pow2_S (S k1' - k2 - 1)), (pow2_S k1') in H.
    set (X := 2 ^ Z.of_nat (S k1' - k2 - 1)) in H.
    set (Y := (2 * B2 - 2 ^ Z.of_nat k2 + 1) * X).
    assert (HY : 45 * (2 * B2 - 2 ^ Z.of_nat k2 + 1) * (2 * X) = 90 * Y) by (unfold Y; ring).
    rewrite HY in H. simpl in H. lia.
Qed.

(** One bit on one axis, with the number spelled so far. *)
Lemma axisCode_step (e0 : Z) (k : nat) (B : Z) (v err : float) (b : bool) :
  -50 <= e0 <= 50 -> (k <= 46)%nat ->
  axisCode e0 k B v err ->
  axisCode e0 (S k) (2 * B + Z.b2z b)
    (if b then (v + err / 2)%float else (v - err / 2)%float) (err / 2)%float.
Proof.
  intros He0 Hk (HB & Hv & Herr).
  pose proof (pow2_le k 46 Hk) as Hpow. change (2 ^ Z.of_nat 46) with 70368744177664 in Hpow.
  pose proof (pow2_S k) as Hk'.
  assert (Hfit : forall z e, Z.abs z < 2 ^ 53 -> -100 <= e <= 100 -> fitsZ z e)
    by (intros; apply fitsZ_small; lia).
  change (2 ^ 53) with 9007199254740992 in Hfit.
  assert (Herr' : repr (err / 2)%float 45 (e0 - Z.of_nat (S k))).
  { replace (e0 - Z.of_nat (S k)) with (e0 - Z.of_nat k - 1) by lia.
    apply repr_half; [exact Herr | |]; apply Hfit; lia. }
  assert (Hv' : repr v (45 * (2 * B - 2 ^ Z.of_nat k + 1) * 2) (e0 - Z.of_nat (S k))).
  { replace (e0 - Z.of_nat (S k)) with (e0 - Z.of_nat k - Z.of_nat 1) by lia.
    apply (repr_shift v _ _ 1 Hv). apply Hfit; lia. }
  split; [destruct b; simpl; lia |]. split; [|exact Herr'].
  destruct b; simpl Z.b2z.
  - replace (45 * (2 * (2 * B + 1) - 2 ^ Z.of_nat (S k) + 1))
      with (45 * (2 * B - 2 ^ Z.of_nat k + 1) * 2 + 45) by lia.
    apply repr_add; [exact Hv' | exact Herr' | | |]; apply Hfit; lia.
  - replace (45 * (2 * (2 * B + 0) - 2 ^ Z.of_nat (S k) + 1))
      with (45 * (2 * B - 2 ^ Z.of_nat k + 1) * 2 - 45) by lia.
    apply repr_sub; [exact Hv' | exact Herr' | | |]; apply Hfit; lia.
Qed.

Lemma even_half (i : nat) : Nat.even i = true -> i = (2 * (i / 2))%nat.
Proof.
  intros H. apply Nat.even_spec in H as [m ->].
  rewrite (Nat.mul_comm 2 m), Nat.div_mul by lia. lia.
Qed.

Lemma odd_half (i : nat) : Nat.even i = false -> i = (2 * (i / 2) + 1)%nat.
Proof.
  intros H. rewrite <- Nat.negb_odd in H. apply negb_false_iff, Nat.odd_spec in H as [m ->].
  replace (2 * m + 1)%nat with (1 + m * 2)%nat by lia.
  rewrite Nat.div_add by lia. simpl. lia.
Qed.

Lemma testbit_shift (B : Z) (b : bool) (n : nat) :
  Z.testbit (2 * B + Z.b2z b) (Z.of_nat (S n)) = Z.testbit B (Z.of_nat n).
Proof. rewrite Nat2Z.inj_succ. apply Z.testbit_succ_r. lia. Qed.

Lemma stateCode_bitStep (cd j : Z) (bs : list bool) (st : Dec.state float) :
  stateCode bs st -> (length bs < 94)%nat ->
  stateCode (bs ++ [codeBit cd j])
    (bitStep (fun x => (x / 2)%float) PrimFloat.add PrimFloat.sub cd st j).
Proof.
  intros (kl & kg & Bl & Bg & Hlat & Hlng & Hlen & Hpar & Hbits) Hn.
  unfold bitStep, codeBit.
  set (b := negb (Z.land cd (Z.shiftl 1 j) =? 0)).
  assert (Hb : (Z.land cd (Z.shiftl 1 j) =? 0) = negb b) by (unfold b; rewrite negb_involutive; reflexivity).
  rewrite Hb. destruct Hpar as [[Heven ->]|[Heven ->]]; rewrite Heven.
  - exists kl, (S kl), Bl, (2 * Bg + Z.b2z b). cbn [Dec.lat Dec.lng Dec.latErr Dec.lngErr Dec.isEven].
    split; [exact Hlat |]. split.
    { pose proof (axisCode_step 2 kl Bg _ _ b ltac:(lia) ltac:(lia) Hlng) as H.
      destruct b; exact H. }
    split; [rewrite length_app; simpl; lia |]. split; [right; auto |].
    intros i b' Hi. destruct (lt_dec i (length bs)) as [Hlt|Hge].
    + rewrite lookup_app_l in Hi by exact Hlt. rewrite (Hbits i b' Hi).
      destruct (Nat.even i) eqn:Hev; [|reflexivity].
      pose proof (even_half i Hev) as Hi2.
      replace (S kl - 1 - i / 2)%nat with (S (kl - 1 - i / 2)) by lia.
      rewrite testbit_shift. reflexivity.
    + apply lookup_lt_Some in Hi as Hi'. rewrite length_app in Hi'. simpl in Hi'.
      assert (i = length bs) by lia. subst i.
      rewrite lookup_app_r, Nat.sub_diag in Hi by lia. injection Hi as <-.
      assert (Hev : Nat.even (length bs) = true)
        by (apply Nat.even_spec; exists kl; lia).
      assert (Hdiv : (length bs / 2 = kl)%nat)
        by (symmetry; apply (Nat.div_unique _ 2 kl 0); lia).
      rewrite Hev, Hdiv.
      replace (S kl - 1 - kl)%nat with 0%nat by lia.
      symmetry. apply Z.testbit_0_r.
  - exists (S kl), (S kl), (2 * Bl + Z.b2z b), Bg. cbn [Dec.lat Dec.lng Dec.latErr Dec.lngErr Dec.isEven].
    split.
    { pose proof (axisCode_step 1 kl Bl _ _ b ltac:(lia) ltac:(lia) Hlat) as H.
      destruct b; exact H. }
    split; [exact Hlng |].
    split; [rewrite length_app; simpl; lia |]. split; [left; auto |].
    intros i b' Hi. destruct (lt_dec i (length bs)) as [Hlt|Hge].
    + rewrite lookup_app_l in Hi by exact Hlt. rewrite (Hbits i b' Hi).
      destruct (Nat.even i) eqn:Hev; [reflexivity |].
      pose proof (odd_half i Hev) as Hi2.
      replace (S kl - 1 - i / 2)%nat with (S (kl - 1 - i / 2)) by lia.
      rewrite testbit_shift. reflexivity.
    + apply lookup_lt_Some in Hi as Hi'. rewrite length_app in Hi'. simpl in Hi'.
      assert (i = length bs) by lia. subst i.
      rewrite lookup_app_r, Nat.sub_diag in Hi by lia. injection Hi as <-.
      assert (Hev : Nat.even (length bs) = false).
      { rewrite <- Nat.negb_odd. apply negb_false_iff, Nat.odd_spec. exists kl. lia. }
      assert (Hdiv : (length bs / 2 = kl)%nat)
        by (symmetry; apply (Nat.div_unique _ 2 kl 1); lia).
      rewrite Hev, Hdiv.
      replace (S kl - 1 - kl)%nat with 0%nat by lia.
      symmetry. apply Z.testbit_0_r.
Qed.

Lemma stateCode_charStep (cd : Z) (bs : list bool) (st : Dec.state float) :
  stateCode bs st -> (length bs + 5 <= 94)%nat ->
  stateCode (bs ++ codeBits cd)
    (charStep (fun x => (x / 2)%float) PrimFloat.add PrimFloat.sub cd st).
Proof.
  intros H0 Hn. unfold charStep, codeBits. cbn [fold_left map].
  pose proof (stateCode_bitStep cd 4 _ _ H0 ltac:(lia)) as H1.
  pose proof (stateCode_bitStep cd 3 _ _ H1 ltac:(rewrite length_app; simpl; lia)) as H2.
  pose proof (stateCode_bitStep cd 2 _ _ H2 ltac:(rewrite !length_app; simpl; lia)) as H3.
  pose proof (stateCode_bitStep cd 1 _ _ H3 ltac:(rewrite !length_app; simpl; lia)) as H4.
  pose proof (stateCode_bitStep cd 0 _ _ H4 ltac:(rewrite !length_app; simpl; lia)) as H5.
  rewrite <- !app_assoc in H5. exact H5.
Qed.

Lemma length_geohashBits (g : string) : length (geohashBits g) = (5 * String.length g)%nat.
Proof. induction g as [|c g IH]; simpl; [reflexivity |]. rewrite IH. lia. Qed.

Lemma stateCode_decodeLoop (g : string) (bs : list bool) (st st' : Dec.state float) :
  stateCode bs st -> (length bs + 5 * String.length g <= 94)%nat ->
  decodeLoop (fun x => (x / 2)%float) PrimFloat.add PrimFloat.sub g st = Some st' ->
  stateCode (bs ++ geohashBits g) st'.
Proof.
  revert bs st. induction g as [|c rest IH]; intros bs st Hst Hn; cbn [decodeLoop geohashBits].
  - intros [= <-]. rewrite app_nil_r. exact Hst.
  - destruct (indexOf base32 c =? -1); [discriminate |].
    cbn [String.length] in Hn. intros Hloop.
    rewrite app_assoc. apply (IH _ _ (stateCode_charStep (indexOf base32 c) bs st Hst ltac:(lia))).
    + rewrite length_app. simpl. lia.
    + exact Hloop.
Qed.

Lemma stateCode_init : stateCode [] (decodeInit 0%float 90%float 180%float).
Proof.
  exists 0%nat, 0%nat, 0, 0. split; [|split; [|split; [reflexivity | split; [left; auto |]]]].
  - repeat split; try (simpl; lia); vm_compute; reflexivity.
  - repeat split; try (simpl; lia); vm_compute; reflexivity.
  - intros i b Hi. destruct i; discriminate.
Qed.

(** The final state tells the bits. *)
Lemma stateCode_unique (bs1 bs2 : list bool) (st1 st2 : Dec.state float) :
  (length bs1 <= 94)%nat -> (length bs2 <= 94)%nat ->
  stateCode bs1 st1 -> stateCode bs2 st2 ->
  Dec.lat st1 = Dec.lat st2 -> Dec.lng st1 = Dec.lng st2 ->
  bs1 = bs2.
Proof.
  intros Hn1 Hn2 (kl1 & kg1 & Bl1 & Bg1 & Hlat1 & Hlng1 & Hlen1 & Hpar1 & Hbits1)
         (kl2 & kg2 & Bl2 & Bg2 & Hlat2 & Hlng2 & Hlen2 & Hpar2 & Hbits2) Elat Elng.
  rewrite Elat in Hlat1. rewrite Elng in Hlng1.
  destruct (axisCode_unique 1 kl1 kl2 Bl1 Bl2 _ _ _ ltac:(lia) ltac:(lia) ltac:(lia) Hlat1 Hlat2)
    as [-> ->].
  destruct (axisCode_unique 2 kg1 kg2 Bg1 Bg2 _ _ _ ltac:(lia) ltac:(lia) ltac:(lia) Hlng1 Hlng2)
    as [-> ->].
  apply list_eq. intros i.
  destruct (bs1 !! i) as [b1|] eqn:H1, (bs2 !! i) as [b2|] eqn:H2.
  - rewrite (Hbits1 i b1 H1), (Hbits2 i b2 H2). reflexivity.
  - apply lookup_lt_Some in H1. apply lookup_ge_None in H2. lia.
  - apply lookup_ge_None in H1. apply lookup_lt_Some in H2. lia.
  - reflexivity.
Qed.
End DecoderCodes.

(** A character of the alphabet is told by its five bits. *)
Lemma indexOfFrom_get (s : string) (c : ascii) (i : Z) :
  (0 <= i)%Z -> indexOfFrom i c s <> (-1)%Z ->
  String.get (Z.to_nat (indexOfFrom i c s - i)) s = Some c.
Proof.
  revert i. induction s as [|d s IH]; intros i Hi; simpl; [congruence |].
  destruct (Ascii.eqb_spec d c) as [->|Hne].
  - intros _. rewrite Z.sub_diag. reflexivity.
  - intros H. specialize (IH (i + 1)%Z ltac:(lia) H).
    destruct (indexOfFrom_spec s c (i + 1)) as [[[H1 _]|[H1 _]]|H1]; [congruence | | lia].
    replace (Z.to_nat (indexOfFrom (i + 1) c s - i)) with (S (Z.to_nat (indexOfFrom (i + 1) c s - (i + 1))))
      by lia.
    exact IH.
Qed.

Lemma codeBits_inj_range :
  forallb (fun a => forallb (fun b =>
    implb (bool_decide (codeBits a = codeBits b)) (a =? b)%Z)
    (Z.of_nat <$> seq 0 32)) (Z.of_nat <$> seq 0 32) = true.
Proof. vm_compute. reflexivity. Qed.

Lemma codeBits_inj (a b : Z) :
  (0 <= a < 32)%Z -> (0 <= b < 32)%Z -> codeBits a = codeBits b -> a = b.
Proof.
  intros Ha Hb Heq. pose proof codeBits_inj_range as H.
  rewrite forallb_forall in H.
  assert (Hin : forall x, (0 <= x < 32)%Z -> In x (Z.of_nat <$> seq 0 32)).
  { intros x Hx. apply list_elem_of_In, list_elem_of_fmap. exists (Z.to_nat x).
    split; [lia |]. apply list_elem_of_In, in_seq. lia. }
  specialize (H a (Hin a Ha)). rewrite forallb_forall in H. specialize (H b (Hin b Hb)).
  rewrite bool_decide_eq_true_2 in H by exact Heq. simpl in H.
  apply Z.eqb_eq, H.
Qed.

Lemma indexOf_inj (c1 c2 : ascii) :
  indexOf base32 c1 <> (-1)%Z -> indexOf base32 c1 = indexOf base32 c2 -> c1 = c2.
Proof.
  unfold indexOf. intros H1 Heq.
  pose proof (indexOfFrom_get base32 c1 0 ltac:(lia) H1) as G1.
  pose proof (indexOfFrom_get base32 c2 0 ltac:(lia) ltac:(congruence)) as G2.
  rewrite Heq in G1. congruence.
Qed.

Lemma geohashBits_inj (g1 g2 : string) :
  inAlphabet g1 -> inAlphabet g2 -> geohashBits g1 = geohashBits g2 -> g1 = g2.
Proof.
  unfold inAlphabet. revert g2. induction g1 as [|c1 g1 IH]; intros [|c2 g2] H1 H2 Heq.
  - reflexivity.
  - discriminate.
  - discriminate.
  - simpl in H1, H2. apply Forall_cons in H1 as [Hc1 H1]. apply Forall_cons in H2 as [Hc2 H2].
    cbn [geohashBits] in Heq.
    assert (Hi1 : indexOf base32 c1 <> (-1)%Z) by (rewrite indexOf_base32; tauto).
    assert (Hi2 : indexOf base32 c2 <> (-1)%Z) by (rewrite indexOf_base32; tauto).
    assert (Hr : forall c, indexOf base32 c <> (-1)%Z -> (0 <= indexOf base32 c < 32)%Z).
    { intros c Hc. unfold indexOf in *.
      destruct (indexOfFrom_spec base32 c 0) as [[[? _]|[Hrange _]]|?]; [congruence | | lia].
      change (Z.of_nat (String.length base32)) with 32%Z in Hrange. lia. }
    apply app_inj_1 in Heq as [Hbits Hrest]; [|reflexivity].
    apply codeBits_inj in Hbits; [|auto ..].
    apply indexOf_inj in Hbits; [|exact Hi1]. subst c2.
    f_equal. apply IH; assumption.
Qed.

(** X18.  Up to 18 characters, two geohashes that decode to the same point
    are the same string: no two rooms share a position on the map. *)
Theorem decodeGeohash_injective (g1 g2 : string) (p : LatLng float) :
  (String.length g1 <= 18)%nat -> (String.length g2 <= 18)%nat ->
  decodeGeohash g1 = Some p -> decodeGeohash g2 = Some p -> g1 = g2.
Proof.
  intros Hn1 Hn2 Hd1 Hd2.
  assert (Ha1 : inAlphabet g1) by (apply decodeGeohash_Some; eauto).
  assert (Ha2 : inAlphabet g2) by (apply decodeGeohash_Some; eauto).
  apply geohashBits_inj; [exact Ha1 | exact Ha2 |].
  unfold decodeGeohash, decodeWith in Hd1, Hd2.
  destruct (decodeLoop _ _ _ g1 _) as [st1|] eqn:Hl1; [|discriminate].
  destruct (decodeLoop _ _ _ g2 _) as [st2|] eqn:Hl2; [|discriminate].
  injection Hd1 as <-. injection Hd2 as Elat Elng.
  pose proof (stateCode_decodeLoop g1 [] _ st1 stateCode_init ltac:(simpl; lia) Hl1) as S1.
  pose proof (stateCode_decodeLoop g2 [] _ st2 stateCode_init ltac:(simpl; lia) Hl2) as S2.
  simpl in S1, S2.
  apply (stateCode_unique _ _ st1 st2); try assumption; try congruence;
    rewrite length_geohashBits; lia.
Qed.

Lemma decodeGeohash_injective_witness : "ezs42" = "ezs42".
Proof.
  apply (decodeGeohash_injective "ezs42" "ezs42"
           {| lat := 42.60498046875%float; lng := (-5.60302734375)%float |}).
  - vm_compute. lia.
  - vm_compute. lia.
  - vm_compute. reflexivity.
  - vm_compute. reflexivity.
Defined.

Section DecoderRational.
Import SpecFloat.
Local Open Scope Z_scope.

Lemma Qpow2_succ (e : Z) : (2 ^ (e + 1) == 2 * 2 ^ e)%Q.
Proof. rewrite Qpower_plus by discriminate. change (2 ^ 1)%Q with 2%Q. ring. Qed.

Lemma Qpow2_nat (n : nat) : (inject_Z (2 ^ Z.of_nat n) == 2 ^ Z.of_nat n)%Q.
Proof. rewrite Zpower_Qpower by lia. reflexivity. Qed.

Lemma Qpow2_split (e : Z) (n : nat) :
  (2 ^ Z.of_nat n * 2 ^ (e - Z.of_nat n) == 2 ^ e)%Q.
Proof.
  rewrite <- Qpower_plus by discriminate.
  replace (Z.of_nat n + (e - Z.of_nat n)) with e by lia. reflexivity.
Qed.

(** The value of the binary64 number [z * 2^e]. *)
Lemma repr_value (x : float) (z e : Z) :
  repr x z e -> fitsZ z e ->
  exists v, floatValue x = Some v /\ (v == inject_Z z * 2 ^ e)%Q.
Proof.
  unfold repr, floatValue. intros Hx Hfit. rewrite Hx.
  destruct (Z.eq_dec z 0) as [->|Hz].
  - exists 0%Q. split; [reflexivity |]. ring.
  - destruct (Z_signed z Hz) as (s & p & ->).
    apply fitsZ_signed in Hfit. rewrite (normZ_signed s p e Hfit).
    unfold canon. eexists. split; [reflexivity |].
    destruct Hfit as (Hd & _ & _).
    set (n := Z.to_nat (53 - Zpos (digits2_pos p))).
    replace (e + Zpos (digits2_pos p) - 53) with (e - Z.of_nat n) by lia.
    assert (Hm : (inject_Z (cond_Zopp s (Zpos (shlN p n))) ==
                  inject_Z (signed s p) * 2 ^ Z.of_nat n)%Q).
    { rewrite <- Qpow2_nat, <- inject_Z_mult. unfold signed.
      rewrite cond_Zopp_mul, Zpos_shlN. reflexivity. }
    rewrite Hm, <- Qmult_assoc, Qpow2_split. reflexivity.
Qed.

Lemma axisCodeQ_step (e0 : Z) (k : nat) (B : Z) (v err : Q) (b : bool) :
  axisCodeQ e0 k B v err ->
  axisCodeQ e0 (S k) (2 * B + Z.b2z b)
    (if b then (v + err / 2)%Q else (v - err / 2)%Q) (err / 2)%Q.
Proof.
  intros [Hv Herr]. unfold axisCodeQ.
  assert (Hp : (2 ^ (e0 - Z.of_nat k) == 2 * 2 ^ (e0 - Z.of_nat (S k)))%Q).
  { rewrite <- Qpow2_succ. replace (e0 - Z.of_nat (S k) + 1) with (e0 - Z.of_nat k) by lia.
    reflexivity. }
  rewrite Hp in Hv, Herr. set (X := (2 ^ (e0 - Z.of_nat (S k)))%Q) in *.
  rewrite pow2_S. set (a := 2 * B - 2 ^ Z.of_nat k + 1) in *.
  split; [|rewrite Herr; field].
  destruct b; simpl Z.b2z.
  - replace (45 * (2 * (2 * B + 1) - 2 * 2 ^ Z.of_nat k + 1)) with (2 * (45 * a) + 45)
      by (unfold a; lia).
    rewrite inject_Z_plus, inject_Z_mult, Hv, Herr. change (inject_Z 2) with 2%Q.
    change (inject_Z 45) with 45%Q. field.
  - replace (45 * (2 * (2 * B + 0) - 2 * 2 ^ Z.of_nat k + 1)) with (2 * (45 * a) + - (45))
      by (unfold a; lia).
    rewrite inject_Z_plus, inject_Z_mult, Hv, Herr. change (inject_Z 2) with 2%Q.
    change (inject_Z (- (45))) with (-45)%Q. field.
Qed.

Lemma stateBoth_bitStep (cd j : Z) (n : nat) (st : Dec.state float) (stQ : Dec.state Q) :
  stateBoth n st stQ -> (n < 94)%nat ->
  stateBoth (S n)
    (bitStep (fun x => (x / 2)%float) PrimFloat.add PrimFloat.sub cd st j)
    (bitStep (fun x => (x / 2)%Q) Qplus Qminus cd stQ j).
Proof.
  intros (kl & kg & Bl & Bg & Hlat & Hlng & HlatQ & HlngQ & Hlen & HevQ & Hpar) Hn.
  unfold bitStep. rewrite HevQ.
  set (b := negb (Z.land cd (Z.shiftl 1 j) =? 0)).
  assert (Hb : (Z.land cd (Z.shiftl 1 j) =? 0) = negb b) by (unfold b; rewrite negb_involutive; reflexivity).
  rewrite Hb. destruct Hpar as [[Heven ->]|[Heven ->]]; rewrite Heven.
  - exists kl, (S kl), Bl, (2 * Bg + Z.b2z b).
    cbn [Dec.lat Dec.lng Dec.latErr Dec.lngErr Dec.isEven].
    split; [exact Hlat |]. split.
    { pose proof (axisCode_step 2 kl Bg _ _ b ltac:(lia) ltac:(lia) Hlng) as H.
      destruct b; exact H. }
    split; [exact HlatQ |]. split.
    { pose proof (axisCodeQ_step 2 kl Bg _ _ b HlngQ) as H. destruct b; exact H. }
    split; [lia |]. split; [reflexivity | right; auto].
  - exists (S kl), (S kl), (2 * Bl + Z.b2z b), Bg.
    cbn [Dec.lat Dec.lng Dec.latErr Dec.lngErr Dec.isEven].
    split.
    { pose proof (axisCode_step 1 kl Bl _ _ b ltac:(lia) ltac:(lia) Hlat) as H.
      destruct b; exact H. }
    split; [exact Hlng |]. split.
    { pose proof (axisCodeQ_step 1 kl Bl _ _ b HlatQ) as H. destruct b; exact H. }
    split; [exact HlngQ |].
    split; [lia |]. split; [reflexivity | left; auto].
Qed.

Lemma stateBoth_charStep (cd : Z) (n : nat) (st : Dec.state float) (stQ : Dec.state Q) :
  stateBoth n st stQ -> (n + 5 <= 94)%nat ->
  stateBoth (n + 5)
    (charStep (fun x => (x / 2)%float) PrimFloat.add PrimFloat.sub cd st)
    (charStep (fun x => (x / 2)%Q) Qplus Qminus cd stQ).
Proof.
  intros H0 Hn. unfold charStep. cbn [fold_left].
  replace (n + 5)%nat with (S (S (S (S (S n))))) by lia.
  repeat (apply stateBoth_bitStep; [|lia]). exact H0.
Qed.

Lemma stateBoth_decodeLoop (g : string) (n : nat) (st st' : Dec.state float)
    (stQ : Dec.state Q) :
  stateBoth n st stQ -> (n + 5 * String.length g <= 94)%nat ->
  decodeLoop (fun x => (x / 2)%float) PrimFloat.add PrimFloat.sub g st = Some st' ->
  exists stQ',
    decodeLoop (fun x => (x / 2)%Q) Qplus Qminus g stQ = Some stQ' /\
    stateBoth (n + 5 * String.length g) st' stQ'.
Proof.
  revert n st stQ. induction g as [|c rest IH]; intros n st stQ Hst Hn; cbn [decodeLoop].
  - intros [= <-]. exists stQ. simpl. rewrite Nat.add_0_r. auto.
  - destruct (indexOf base32 c =? -1); [discriminate |].
    cbn [String.length] in *. intros Hloop.
    replace (n + 5 * S (String.length rest))%nat with (n + 5 + 5 * String.length rest)%nat by lia.
    apply (IH (n + 5)%nat _ _ (stateBoth_charStep (indexOf base32 c) n st stQ Hst ltac:(lia)));
      [lia | exact Hloop].
Qed.

Lemma stateBoth_init :
  stateBoth 0 (decodeInit 0%float 90%float 180%float) (decodeInit 0%Q 90%Q 180%Q).
Proof.
  exists 0%nat, 0%nat, 0, 0.
  split; [|split; [|split; [|split; [|split; [reflexivity | split; [reflexivity | left; auto]]]]]].
  - repeat split; try (simpl; lia); vm_compute; reflexivity.
  - repeat split; try (simpl; lia); vm_compute; reflexivity.
  - split; vm_compute; reflexivity.
  - split; vm_compute; reflexivity.
Qed.

Lemma axis_value (e0 : Z) (k : nat) (B : Z) (v err : float) (vQ errQ : Q) :
  -50 <= e0 <= 50 -> (k <= 47)%nat ->
  axisCode e0 k B v err -> axisCodeQ e0 k B vQ errQ ->
  exists x, floatValue v = Some x /\ (x == vQ)%Q.
Proof.
  intros He0 Hk (HB & Hv & _) [HvQ _].
  destruct (repr_value v _ _ Hv (axisCode_fits e0 k B He0 Hk HB)) as (x & Hx & Heq).
  exists x. split; [exact Hx |]. rewrite Heq, HvQ. reflexivity.
Qed.
End DecoderRational.

(** X19.  Up to 18 characters the decoder computes without rounding: the
    binary64 numbers it returns are exactly the rationals that the same
    recurrence gives in exact arithmetic. *)
Theorem decodeGeohash_exact (g : string) (p : LatLng float) :
  (String.length g <= 18)%nat -> decodeGeohash g = Some p ->
  exists (q : LatLng Q) (la lo : Q),
    decodeGeohashExact g = Some q /\
    floatValue (lat p) = Some la /\ floatValue (lng p) = Some lo /\
    (la == lat q)%Q /\ (lo == lng q)%Q.
Proof.
  intros Hn Hd. unfold decodeGeohash, decodeGeohashExact, decodeWith in *.
  destruct (decodeLoop _ _ _ g _) as [st|] eqn:Hl; [|discriminate].
  injection Hd as <-.
  destruct (stateBoth_decodeLoop g 0 _ st _ stateBoth_init ltac:(simpl; lia) Hl)
    as (stQ & HlQ & (kl & kg & Bl & Bg & Hlat & Hlng & HlatQ & HlngQ & Hlen & _ & Hpar)).
  rewrite HlQ.
  destruct (axis_value 1 kl Bl _ _ _ _ ltac:(lia) ltac:(lia) Hlat HlatQ) as (la & Hla & Ela).
  destruct (axis_value 2 kg Bg _ _ _ _ ltac:(lia) ltac:(lia) Hlng HlngQ) as (lo & Hlo & Elo).
  eexists _, la, lo. split; [reflexivity |]. cbn [lat lng]. auto.
Qed.

Lemma decodeGeohash_exact_witness :
  exists (q : LatLng Q) (la lo : Q),
    decodeGeohashExact "s" = Some q /\
    floatValue 22.5%float = Some la /\ floatValue 22.5%float = Some lo /\
    (la == lat q)%Q /\ (lo == lng q)%Q.
Proof.
  apply (decodeGeohash_exact "s" {| lat := 22.5%float; lng := 22.5%float |}).
  - vm_compute. lia.
  - vm_compute. reflexivity.
Defined.

Section CenterFacts.
Import SpecFloat.
Local Open Scope Z_scope.

Lemma SFdiv_one s q T :
  Zpos (digits2_pos q) = 53 -> -1072 <= T <= 971 ->
  SFdiv prec emax (S754_finite s q T) (S754_finite false 4503599627370496 (-52)) =
  S754_finite s q T.
Proof.
  intros Hq HT. unfold SFdiv, SFdiv_core_binary.
  cbn [Zdigits2]. rewrite Hq.
  change (Zpos (digits2_pos 4503599627370496)) with 53.
  replace (53 + T - (53 + -52)) with (T + 52) by lia.
  rewrite fexp_normal by lia.
  replace (Z.min (T + 52 - 53) (T - -52)) with (T - 1) by lia.
  replace (T - -52 - (T - 1)) with 53 by lia.
  cbv iota. rewrite Z.shiftl_mul_pow2 by lia.
  replace (Zpos q * 2 ^ 53) with (Zpos q~0 * 4503599627370496) by lia.
  rewrite div_eucl_mul by lia.
  change (new_location 4503599627370496 0) with loc_Exact.
  rewrite Bool.xorb_false_r.
  change (q~0)%positive with (shlN q 1).
  replace (T - 1) with (T - Z.of_nat 1) by lia.
  apply binary_round_aux_canon; [exact Hq | lia].
Qed.

(** Adding a number to [0] and dividing it by [1] give the number back. *)
Lemma zero_plus_div_one (x : float) (z e : Z) :
  repr x z e -> fitsZ z e -> ((0 + x) / numberOfNat 1)%float = x.
Proof.
  unfold repr. intros Hx Hfit. apply FloatAxioms.Prim2SF_inj.
  rewrite FloatAxioms.div_spec, FloatAxioms.add_spec, Hx.
  change (Prim2SF (numberOfNat 1)) with (S754_finite false 4503599627370496 (-52)).
  change (Prim2SF 0) with (S754_zero false).
  destruct (Z.eq_dec z 0) as [->|Hz]; [reflexivity |].
  destruct (Z_signed z Hz) as (s & p & ->). apply fitsZ_signed in Hfit.
  rewrite (normZ_signed s p e Hfit).
  destruct (canon_digits s p e Hfit) as (q & -> & Hq).
  cbn [SFadd]. apply SFdiv_one; [exact Hq |]. destruct Hfit as (? & ? & ?). lia.
Qed.

Lemma axisOK_repr (e0 : Z) (k : nat) (v err : float) :
  -50 <= e0 <= 50 -> axisOK e0 k v err -> exists z e, repr v z e /\ fitsZ z e.
Proof.
  intros He0 [[Hk (a & Hv & Ha & _)]|[_ (z & e & Hv & Hfit & _)]].
  - exists (45 * a), (e0 - Z.of_nat k). split; [exact Hv |].
    pose proof (pow2_le k 47 Hk) as Hpow. rewrite pow2_47 in Hpow.
    apply fitsZ_small; [|lia]. change (2 ^ 53) with 9007199254740992. lia.
  - eauto.
Qed.
End CenterFacts.

(** X15.  With a single point on the map, the map is centred on it (for a
    geohash of up to 20 characters). *)
Theorem mapCenter_single (room : Chatroom) (p : MapPoint) :
  (String.length (geohash room) <= 20)%nat ->
  toMapPoint room = Some p ->
  mapCenter (mapPoints [room]) = (point_lat p, point_lng p) /\
  mapCenter [] = (0%float, 0%float).
Proof.
  intros Hlen Hp. split; [|reflexivity].
  unfold mapPoints. cbn [omap list_omap]. rewrite Hp. unfold mapCenter. cbn [length Nat.eqb fold_left].
  unfold toMapPoint, decodeGeohash, decodeWith in Hp.
  destruct (decodeLoop _ _ _ (geohash room) _) as [st|] eqn:Hloop; [|discriminate].
  injection Hp as <-. cbn [point_lat point_lng lat lng].
  destruct (stateOK_decodeLoop (geohash room) 0 0 _ st stateOK_init ltac:(lia) Hloop)
    as (kl & kg & (Hlat & Hlng & _) & _).
  destruct (axisOK_repr 1 kl _ _ ltac:(lia) Hlat) as (zl & el & Hl & Fl).
  destruct (axisOK_repr 2 kg _ _ ltac:(lia) Hlng) as (zg & eg & Hg & Fg).
  rewrite (zero_plus_div_one _ _ _ Hl Fl), (zero_plus_div_one _ _ _ Hg Fg). reflexivity.
Qed.

Lemma mapCenter_single_witness :
  mapCenter (mapPoints [ {| geohash := "s"; name := "#s"; messageCount := 3 |} ]) =
    (22.5%float, 22.5%float) /\
  mapCenter [] = (0%float, 0%float).
Proof.
  apply (mapCenter_single {| geohash := "s"; name := "#s"; messageCount := 3 |}
           {| point_geohash := "s"; point_name := "#s"; point_messageCount := 3;
              point_lat := 22.5%float; point_lng := 22.5%float |}).
  - vm_compute. lia.
  - vm_compute. reflexivity.
Defined.

Section DecoderFactsApp.
Context {N : Type}.
Context (half : N -> N) (add sub : N -> N -> N).

Lemma decodeLoop_app (g h : string) (st : Dec.state N) :
  decodeLoop half add sub (g ++ h) st =
  match decodeLoop half add sub g st with
  | Some st' => decodeLoop half add sub h st'
  | None => None
  end.
Proof.
  revert st. induction g as [|c g IH]; intros st; [reflexivity |].
  change (String c g ++ h)%string with (String c (g ++ h)%string).
  cbn [decodeLoop]. destruct (indexOf base32 c =? -1)%Z; [reflexivity | apply IH].
Qed.
End DecoderFactsApp.

Lemma insideCell_bitStep (cd j : Z) (st st' : Dec.state Q) :
  insideCell st st' ->
  insideCell st (bitStep (fun x => (x / 2)%Q) Qplus Qminus cd st' j).
Proof.
  unfold insideCell, bitStep. intros (H1 & H2 & H3 & H4 & H5 & H6).
  pose proof (Qhalf (Dec.latErr st')) as Hlat.
  pose proof (Qhalf (Dec.lngErr st')) as Hlng.
  destruct (Dec.isEven st'), (Z.land cd (Z.shiftl 1 j) =? 0)%Z;
    cbn [Dec.lat Dec.lng Dec.latErr Dec.lngErr];
    revert Hlat Hlng;
    generalize (Dec.latErr st' / 2)%Q, (Dec.lngErr st' / 2)%Q; intros hlat hlng Hlat Hlng;
    (split; [|split; [|split; [|split; [|split]]]]); lra.
Qed.

Lemma insideCell_decodeLoop (h : string) (st st' st'' : Dec.state Q) :
  insideCell st st' ->
  decodeLoop (fun x => (x / 2)%Q) Qplus Qminus h st' = Some st'' ->
  insideCell st st''.
Proof.
  revert st'. induction h as [|c rest IH]; intros st' Hst; simpl.
  - intros [= <-]. exact Hst.
  - destruct (indexOf base32 c =? -1)%Z; [discriminate |].
    apply IH. unfold charStep. simpl. auto 10 using insideCell_bitStep.
Qed.

Lemma Qpow2_pos (e : Z) : (0 < 2 ^ e)%Q.
Proof. apply Qpower_0_lt. reflexivity. Qed.

Lemma err_of_bits (e0 : Z) (k : nat) :
  (45 * 2 ^ (e0 - Z.of_nat k) == 45 * 2 ^ e0 / 2 ^ Z.of_nat k)%Q.
Proof.
  pose proof (Qpow2_split e0 k) as H. pose proof (Qpow2_pos (Z.of_nat k)) as Hk.
  rewrite <- H. field. intros H0. rewrite H0 in Hk. apply (Qlt_irrefl 0), Hk.
Qed.

(** X20.  Up to 18 characters: a geohash that continues [g] decodes to a
    point strictly inside the cell of [g], the rectangle around the point of
    [g] with half height [90 / 2^kl] and half width [180 / 2^kg], where [kl]
    and [kg] are the numbers of latitude and longitude bits of [g]. *)
Theorem decodeGeohash_refines (g h : string) (p p' : LatLng float) :
  (String.length (g ++ h) <= 18)%nat ->
  decodeGeohash g = Some p -> decodeGeohash (g ++ h) = Some p' ->
  exists la lo la' lo' : Q,
    floatValue (lat p) = Some la /\ floatValue (lng p) = Some lo /\
    floatValue (lat p') = Some la' /\ floatValue (lng p') = Some lo' /\
    (la - 90 / 2 ^ Z.of_nat (5 * String.length g / 2) < la' /\
     la' < la + 90 / 2 ^ Z.of_nat (5 * String.length g / 2) /\
     lo - 180 / 2 ^ Z.of_nat ((5 * String.length g + 1) / 2) < lo' /\
     lo' < lo + 180 / 2 ^ Z.of_nat ((5 * String.length g + 1) / 2))%Q.
Proof.
  intros Hlen Hd Hd'.
  assert (Hlen' : (String.length g <= String.length (g ++ h))%nat).
  { clear. induction g as [|c g IH]; simpl; lia. }
  unfold decodeGeohash, decodeWith in Hd, Hd'.
  destruct (decodeLoop _ _ _ g _) as [st|] eqn:Hl; [|discriminate].
  destruct (decodeLoop _ _ _ (g ++ h) _) as [st'|] eqn:Hl'; [|discriminate].
  injection Hd as <-. injection Hd' as <-. cbn [lat lng].
  destruct (stateBoth_decodeLoop g 0 _ st _ stateBoth_init ltac:(simpl; lia) Hl)
    as (stQ & HlQ & (kl & kg & Bl & Bg & Hlat & Hlng & HlatQ & HlngQ & Hn & _ & Hpar)).
  destruct (stateBoth_decodeLoop (g ++ h) 0 _ st' _ stateBoth_init ltac:(simpl; lia) Hl')
    as (stQ' & HlQ' & (kl' & kg' & Bl' & Bg' & Hlat' & Hlng' & HlatQ' & HlngQ' & Hn' & _ & Hpar')).
  rewrite decodeLoop_app, HlQ in HlQ'.
  destruct (axis_value 1 kl Bl _ _ _ _ ltac:(lia) ltac:(lia) Hlat HlatQ) as (la & Hla & Ela).
  destruct (axis_value 2 kg Bg _ _ _ _ ltac:(lia) ltac:(lia) Hlng HlngQ) as (lo & Hlo & Elo).
  destruct (axis_value 1 kl' Bl' _ _ _ _ ltac:(lia) ltac:(lia) Hlat' HlatQ') as (la' & Hla' & Ela').
  destruct (axis_value 2 kg' Bg' _ _ _ _ ltac:(lia) ltac:(lia) Hlng' HlngQ') as (lo' & Hlo' & Elo').
  exists la, lo, la', lo'. repeat (split; [assumption |]).
  assert (Hkl : (5 * String.length g / 2 = kl)%nat).
  { symmetry. destruct Hpar as [[_ ->]|[_ ->]].
    - apply (Nat.div_unique _ 2 kl 0); lia.
    - apply (Nat.div_unique _ 2 kl 1); lia. }
  assert (Hkg : ((5 * String.length g + 1) / 2 = kg)%nat).
  { symmetry. destruct Hpar as [[_ ->]|[_ ->]].
    - apply (Nat.div_unique _ 2 kl 1); lia.
    - apply (Nat.div_unique _ 2 (S kl) 0); lia. }
  rewrite Hkl, Hkg.
  destruct HlatQ as [_ HerrL]. destruct HlngQ as [_ HerrG].
  rewrite err_of_bits in HerrL, HerrG.
  change (45 * 2 ^ 1)%Q with 90%Q in HerrL. change (45 * 2 ^ 2)%Q with 180%Q in HerrG.
  assert (Hin : insideCell stQ stQ').
  { apply (insideCell_decodeLoop h stQ stQ stQ'); [|exact HlQ'].
    pose proof (Qpow2_pos (Z.of_nat kl)) as HpL. pose proof (Qpow2_pos (Z.of_nat kg)) as HpG.
    assert (HL : (0 < Dec.latErr stQ)%Q).
    { rewrite HerrL. apply Qlt_shift_div_l; [exact HpL | lra]. }
    assert (HG : (0 < Dec.lngErr stQ)%Q).
    { rewrite HerrG. apply Qlt_shift_div_l; [exact HpG | lra]. }
    unfold insideCell. repeat split; try assumption; lra. }
  destruct Hin as (H1 & H2 & H3 & H4 & H5 & H6).
  rewrite <- HerrL, <- HerrG, Ela, Elo, Ela', Elo'.
  repeat split; lra.
Qed.

Lemma decodeGeohash_refines_witness :
  exists la lo la' lo' : Q,
    floatValue 22.5%float = Some la /\ floatValue 22.5%float = Some lo /\
    floatValue 2.8125%float = Some la' /\ floatValue 5.625%float = Some lo' /\
    (la - 90 / 2 ^ Z.of_nat (5 * String.length "s" / 2) < la' /\
     la' < la + 90 / 2 ^ Z.of_nat (5 * String.length "s" / 2) /\
     lo - 180 / 2 ^ Z.of_nat ((5 * String.length "s" + 1) / 2) < lo' /\
     lo' < lo + 180 / 2 ^ Z.of_nat ((5 * String.length "s" + 1) / 2))%Q.
Proof.
  apply (decodeGeohash_refines "s" "0" {| lat := 22.5%float; lng := 22.5%float |}
           {| lat := 2.8125%float; lng := 5.625%float |}).
  - vm_compute. lia.
  - vm_compute. reflexivity.
  - vm_compute. reflexivity.
Defined.

Section RoundingBelow.
Import SpecFloat.
Local Open Scope Z_scope.

Lemma shr_record_of_loc_m m l : shr_m (shr_record_of_loc m l) = m.
Proof. destruct l as [|[]]; reflexivity. Qed.

(** The first shift of [binary_round_aux] on a mantissa of [53 + r]
    digits. *)
Lemma shr_fexp_digits (P : positive) (e : Z) (l : location) (r : nat) :
  Zpos (digits2_pos P) = 53 + Z.of_nat r -> -1074 <= e + Z.of_nat r ->
  exists mrs, shr_fexp prec emax (Zpos P) e l = (mrs, e + Z.of_nat r) /\
              shr_m mrs = Zpos P / 2 ^ Z.of_nat r.
Proof.
  intros HD He. unfold shr_fexp. cbn [Zdigits2]. rewrite HD, fexp_normal by lia.
  replace (53 + Z.of_nat r + e - 53 - e) with (Z.of_nat r) by lia.
  destruct r as [|r].
  - cbn [Z.of_nat shr]. rewrite Z.add_0_r. eexists. split; [reflexivity |].
    rewrite shr_record_of_loc_m. simpl. rewrite Z.div_1_r. reflexivity.
  - rewrite shr_nat by lia. eexists. split; [reflexivity |].
    rewrite shr_m_iter by (rewrite shr_record_of_loc_m; lia).
    rewrite shr_record_of_loc_m. reflexivity.
Qed.

(** Rounding to nearest does not go below a binary64 number that the exact
    value is not below. *)
Lemma round_aux_ge (P : positive) (e : Z) (l : location) (r : nat) (B : positive) (eB g : Z) :
  Zpos (digits2_pos P) = 53 + Z.of_nat r -> Zpos (digits2_pos B) = 53 ->
  -1074 <= e + Z.of_nat r -> e + Z.of_nat r + 1 <= 971 ->
  g <= e -> g <= eB ->
  Zpos B * 2 ^ (eB - g) <= Zpos P * 2 ^ (e - g) ->
  exists m e', binary_round_aux prec emax false (Zpos P) e l = S754_finite false m e' /\
    Zpos (digits2_pos m) = 53 /\ e + Z.of_nat r <= e' <= e + Z.of_nat r + 1 /\
    (eB < e' \/ e' = eB /\ Zpos B <= Zpos m).
Proof.
  intros HD HB He He' Hg HgB Hle.
  pose proof (digits_bounds P) as [Plo Phi]. rewrite HD in Plo, Phi.
  pose proof (digits_bounds B) as [Blo Bhi]. rewrite HB in Blo, Bhi.
  assert (Hpow : 0 < 2 ^ Z.of_nat r) by (apply Z.pow_pos_nonneg; lia).
  (* the exponents *)
  assert (HeB : eB <= e + Z.of_nat r).
  { assert (HX : 0 < 2 ^ (eB - g)) by (apply Z.pow_pos_nonneg; lia).
    assert (HY : 0 < 2 ^ (e - g)) by (apply Z.pow_pos_nonneg; lia).
    assert (H : 2 ^ (53 - 1) * 2 ^ (eB - g) < 2 ^ (53 + Z.of_nat r) * 2 ^ (e - g)) by nia.
    rewrite <- !Z.pow_add_r in H by lia.
    apply Z.pow_lt_mono_r_iff in H; lia. }
  unfold binary_round_aux.
  destruct (shr_fexp_digits P e l r HD He) as (mrs & -> & Hm).
  set (m := Zpos P / 2 ^ Z.of_nat r) in *.
  assert (Hmlo : 2 ^ 52 <= m).
  { unfold m. apply Z.div_le_lower_bound; [lia |].
    rewrite <- Z.pow_add_r by lia.
    replace (Z.of_nat r + 52) with (53 + Z.of_nat r - 1) by lia. exact Plo. }
  assert (Hmhi : m < 2 ^ 53).
  { unfold m. apply Z.div_lt_upper_bound; [lia |].
    rewrite <- Z.pow_add_r by lia.
    replace (Z.of_nat r + 53) with (53 + Z.of_nat r) by lia. exact Phi. }
  assert (HBm : eB = e + Z.of_nat r -> Zpos B <= m).
  { intros ->. unfold m. apply Z.div_le_lower_bound; [lia |].
    replace (e + Z.of_nat r - g) with (Z.of_nat r + (e - g)) in Hle by lia.
    rewrite Z.pow_add_r in Hle by lia.
    assert (0 < 2 ^ (e - g)) by (apply Z.pow_pos_nonneg; lia). nia. }
  rewrite Hm.
  pose proof (round_nearest_even_bounds m (loc_of_shr_record mrs)) as Hrnd.
  set (m1 := round_nearest_even m (loc_of_shr_record mrs)) in *.
  change (2 ^ 52) with 4503599627370496 in Hmlo.
  change (2 ^ 53) with 9007199254740992 in Hmhi.
  change (2 ^ (53 - 1)) with 4503599627370496 in Blo.
  change (2 ^ 53) with 9007199254740992 in Bhi.
  destruct m1 as [|q|q] eqn:Hq; try lia.
  destruct (Z.eq_dec (Zpos q) 9007199254740992) as [Heq|Hne].
  - injection Heq as ->.
    exists 4503599627370496%positive, (e + Z.of_nat r + 1).
    change 9007199254740992%positive with (shlN 4503599627370496 1).
    replace (e + Z.of_nat r) with (e + Z.of_nat r + 1 - Z.of_nat 1) at 1 by lia.
    rewrite shr_fexp_exact by (try reflexivity; lia).
    cbn [shr_m rec0]. change (emax - prec) with 971.
    destruct (Z.leb_spec (e + Z.of_nat r + 1) 971) as [_|?]; [|lia].
    split; [reflexivity |]. split; [reflexivity |]. split; [lia |]. left. lia.
  - assert (Hd : Zpos (digits2_pos q) = 53).
    { apply digits_of_bounds; [|lia].
      change (2 ^ (53 - 1)) with 4503599627370496.
      change (2 ^ 53) with 9007199254740992. lia. }
    exists q, (e + Z.of_nat r).
    pose proof (shr_fexp_exact q 0 (e + Z.of_nat r) Hd ltac:(lia)) as H0.
    change (shlN q 0) with q in H0. rewrite Z.sub_0_r in H0. rewrite H0.
    cbn [shr_m rec0]. change (emax - prec) with 971.
    destruct (Z.leb_spec (e + Z.of_nat r) 971) as [_|?]; [|lia].
    split; [reflexivity |]. split; [exact Hd |]. split; [lia |].
    destruct (Z.eq_dec eB (e + Z.of_nat r)) as [Heq|Hneq]; [right | left; lia].
    split; [lia |]. specialize (HBm Heq). lia.
Qed.

Lemma valid_canon s p e : fits p e -> valid_binary prec emax (canon s p e) = true.
Proof.
  intros (Hd & Hlo & Hhi). unfold canon, valid_binary, bounded, canonical_mantissa.
  rewrite digits_shlN, Z2Nat.id by lia.
  replace (Zpos (digits2_pos p) + (53 - Zpos (digits2_pos p)) + (e + Zpos (digits2_pos p) - 53))
    with (e + Zpos (digits2_pos p)) by lia.
  rewrite fexp_normal by lia. rewrite Z.eqb_refl. simpl.
  change (emax - prec) with 971. apply Z.leb_le. lia.
Qed.

Lemma fits_count (p : positive) : Zpos p < 2 ^ 53 -> fits p 0.
Proof.
  intros Hp. pose proof (digits_le p 53 Hp ltac:(lia)).
  assert (0 < Zpos (digits2_pos p)) by lia. unfold fits. lia.
Qed.

(** The number holding a count below [2^53] is the count. *)
Lemma numberOfNat_spec (n : nat) :
  (0 < n)%nat -> Z.of_nat n < 2 ^ 53 ->
  Prim2SF (numberOfNat n) = canon false (Pos.of_nat n) 0.
Proof.
  intros Hn Hlt. unfold numberOfNat.
  assert (Hp : Z.of_nat n = Zpos (Pos.of_nat n)) by lia.
  rewrite Hp. rewrite Hp in Hlt. pose proof (fits_count _ Hlt) as Hfit.
  rewrite (normZ_pos _ _ Hfit). apply FloatAxioms.Prim2SF_SF2Prim, valid_canon, Hfit.
Qed.

Lemma numberOfNat_not_nan (n : nat) : Z.of_nat n < 2 ^ 53 -> is_nan (numberOfNat n) = false.
Proof.
  intros Hlt. destruct n as [|n]; [reflexivity |].
  apply is_nan_spec. rewrite numberOfNat_spec by lia. discriminate.
Qed.

(** A fifth of a count of at least 100 is at least 20, also after
    rounding. *)
Lemma fifth_ge_20 (p : positive) :
  100 <= Zpos p < 2 ^ 53 ->
  exists m e,
    SFdiv prec emax (canon false p 0) (S754_finite false 5629499534213120 (-50)) =
      S754_finite false m e /\
    Zpos (digits2_pos m) = 53 /\ -56 <= e <= -1 /\
    (-48 < e \/ e = -48 /\ 5629499534213120 <= Zpos m).
Proof.
  intros [Hlo Hhi]. pose proof (fits_count p Hhi) as (Hd & _).
  assert (Hd0 : 0 < Zpos (digits2_pos p)) by lia.
  set (d := Zpos (digits2_pos p)) in *.
  unfold canon. fold d. set (M := shlN p (Z.to_nat (53 - d))).
  assert (HM : Zpos M = Zpos p * 2 ^ (53 - d)).
  { unfold M. rewrite Zpos_shlN, Z2Nat.id by lia. reflexivity. }
  assert (HdM : Zpos (digits2_pos M) = 53).
  { unfold M. rewrite digits_shlN, Z2Nat.id by lia. fold d. lia. }
  pose proof (digits_bounds M) as [Mlo Mhi]. rewrite HdM in Mlo, Mhi.
  change (2 ^ (53 - 1)) with 4503599627370496 in Mlo.
  change (2 ^ 53) with 9007199254740992 in Mhi.
  unfold SFdiv, SFdiv_core_binary. cbn [Zdigits2]. rewrite HdM.
  change (Zpos (digits2_pos 5629499534213120)) with 53.
  replace (53 + (0 + d - 53) - (53 + -50)) with (d - 3) by lia.
  rewrite fexp_normal by lia.
  replace (Z.min (d - 3 - 53) (0 + d - 53 - -50)) with (d - 56) by lia.
  replace (0 + d - 53 - -50 - (d - 56)) with 53 by lia.
  cbv iota. rewrite Z.shiftl_mul_pow2 by lia.
  change (2 ^ 53) with 9007199254740992.
  pose proof (Z_div_mod (Zpos M * 9007199254740992) 5629499534213120 ltac:(lia)) as Hdiv.
  destruct (Z.div_eucl (Zpos M * 9007199254740992) 5629499534213120) as [Q R].
  destruct Hdiv as [Hdiv HR].
  assert (HQlo : 5629499534213120 <= Q) by nia.
  assert (HQhi : Q < 2 * 9007199254740992) by nia.
  destruct Q as [|Pq|Pq]; try lia.
  set (r := if Z.ltb (Zpos Pq) 9007199254740992 then 0%nat else 1%nat).
  assert (HdQ : Zpos (digits2_pos Pq) = 53 + Z.of_nat r).
  { unfold r. destruct (Z.ltb_spec (Zpos Pq) 9007199254740992).
    - apply digits_of_bounds; [|lia]. change (2 ^ (53 + Z.of_nat 0 - 1)) with 4503599627370496.
      change (2 ^ (53 + Z.of_nat 0)) with 9007199254740992. lia.
    - apply digits_of_bounds; [|lia]. change (2 ^ (53 + Z.of_nat 1 - 1)) with 9007199254740992.
      change (2 ^ (53 + Z.of_nat 1)) with 18014398509481984. lia. }
  assert (Hr : (r <= 1)%nat) by (unfold r; destruct (_ <? _); lia).
  destruct (round_aux_ge Pq (d - 56) (new_location 5629499534213120 R) r
              5629499534213120 (-48) (Z.min (d - 56) (-48)) HdQ eq_refl)
    as (m & e & Hres & Hdm & He & Hcmp); try lia.
  - destruct (Z.le_gt_cases d 8) as [Hd8|Hd8].
    + replace (Z.min (d - 56) (-48)) with (d - 56) by lia.
      replace (d - 56 - (d - 56)) with 0 by lia.
      replace (-48 - (d - 56)) with (8 - d) by lia.
      assert (HX : 0 < 2 ^ (8 - d)) by (apply Z.pow_pos_nonneg; lia).
      assert (Hsplit : 2 ^ (53 - d) = 35184372088832 * 2 ^ (8 - d)).
      { change 35184372088832 with (2 ^ 45). rewrite <- Z.pow_add_r by lia. f_equal. lia. }
      rewrite Hsplit in HM. set (X := 2 ^ (8 - d)) in *. simpl (2 ^ 0). nia.
    + replace (Z.min (d - 56) (-48)) with (-48) by lia.
      replace (-48 - -48) with 0 by lia.
      assert (HX : 1 <= 2 ^ (d - 56 - -48)).
      { assert (0 < 2 ^ (d - 56 - -48)) by (apply Z.pow_pos_nonneg; lia). lia. }
      simpl (2 ^ 0). nia.
  - exists m, e. cbn [xorb]. rewrite Hres. split; [reflexivity |]. split; [exact Hdm |].
    split; [lia | exact Hcmp].
Qed.

(** 20 plus a number of at least 20 is at least 40, also after rounding. *)
Lemma twenty_plus_ge_40 (m : positive) (e : Z) :
  Zpos (digits2_pos m) = 53 -> -56 <= e <= -1 ->
  (-48 < e \/ e = -48 /\ 5629499534213120 <= Zpos m) ->
  exists m' e',
    SFadd prec emax (S754_finite false 5629499534213120 (-48)) (S754_finite false m e) =
      S754_finite false m' e' /\
    Zpos (digits2_pos m') = 53 /\
    (-47 < e' \/ e' = -47 /\ 5629499534213120 <= Zpos m').
Proof.
  intros Hdm He Hcmp.
  pose proof (digits_bounds m) as [mlo mhi]. rewrite Hdm in mlo, mhi.
  change (2 ^ (53 - 1)) with 4503599627370496 in mlo.
  change (2 ^ 53) with 9007199254740992 in mhi.
  unfold SFadd. replace (Z.min (-48) e) with (-48) by lia.
  rewrite !shl_align_spec. rewrite Z.ltb_irrefl. cbn [fst cond_Zopp].
  set (X := fst (if -48 <? e then (shlN m (Z.to_nat (e - -48)), -48) else (m, e))).
  assert (HX : Zpos X = Zpos m * 2 ^ (e + 48)).
  { unfold X. destruct (Z.ltb_spec (-48) e) as [Hlt|Hge]; cbn [fst].
    - rewrite Zpos_shlN, Z2Nat.id by lia. replace (e - -48) with (e + 48) by lia. reflexivity.
    - replace (e + 48) with 0 by lia. simpl. lia. }
  assert (HXlo : 5629499534213120 <= Zpos X).
  { rewrite HX. destruct Hcmp as [Hlt|[-> Hm]].
    - assert (2 ^ 1 <= 2 ^ (e + 48)) by (apply Z.pow_le_mono_r; lia).
      change (2 ^ 1) with 2 in *. nia.
    - simpl. lia. }
  assert (HXhi : Zpos X < 2 ^ 101).
  { rewrite HX. assert (2 ^ (e + 48) <= 2 ^ 47) by (apply Z.pow_le_mono_r; lia).
    change (2 ^ 47) with 140737488355328 in *.
    change (2 ^ 101) with 2535301200456458802993406410752. nia. }
  change (Zpos 5629499534213120 + Zpos X) with (Zpos (5629499534213120 + X)).
  set (S := (5629499534213120 + X)%positive).
  assert (HS : Zpos S = 5629499534213120 + Zpos X) by (unfold S; lia).
  cbn [binary_normalize]. unfold binary_round.
  set (D := Zpos (digits2_pos S)).
  assert (HD : 54 <= D <= 102).
  { pose proof (digits_bounds S) as [Slo Shi]. fold D in Slo, Shi. split.
    - assert (H : 2 ^ 53 < 2 ^ D).
      { change (2 ^ 53) with 9007199254740992. lia. }
      apply Z.pow_lt_mono_r_iff in H; lia.
    - assert (H : 2 ^ (D - 1) < 2 ^ 102).
      { change (2 ^ 102) with 5070602400912917605986812821504.
        change (2 ^ 101) with 2535301200456458802993406410752 in HXhi. lia. }
      apply Z.pow_lt_mono_r_iff in H; lia. }
  rewrite fexp_normal by lia. rewrite shl_align_spec.
  destruct (Z.ltb_spec (D + -48 - 53) (-48)) as [Hlt|_]; [lia |].
  destruct (round_aux_ge S (-48) loc_Exact (Z.to_nat (D - 53)) 5629499534213120 (-47) (-48))
    as (m' & e' & Hres & Hdm' & He' & Hcmp'); try lia; try reflexivity.
  exists m', e'. split; [exact Hres |]. split; [exact Hdm' | exact Hcmp'].
Qed.
End RoundingBelow.

Lemma icon_size_le_40 (messageCount : float) :
  is_nan messageCount = false ->
  (icon_size (createChatroomIcon messageCount) <=? 40)%float = true.
Proof.
  intros Hmc. unfold createChatroomIcon. cbn [icon_size].
  assert (Hq : is_nan (messageCount / 5)%float = false)
    by (eapply div_not_nan; [vm_compute; reflexivity | exact Hmc]).
  assert (Hx : is_nan (20 + messageCount / 5)%float = false)
    by (eapply add_not_nan; [vm_compute; reflexivity | exact Hq]).
  destruct (mathMin_bound 40 _ eq_refl Hx) as (Hm & Hm40 & _).
  destruct (mathMax_bound 20 _ 40 eq_refl Hm eq_refl Hm40) as (_ & _ & _ & Hs40).
  exact Hs40.
Qed.

(** From 100 messages on the diameter is 40. *)
Lemma icon_size_saturated (n : nat) :
  (100 <= n)%nat -> (Z.of_nat n < 2 ^ 53)%Z ->
  icon_size (createChatroomIcon (numberOfNat n)) = 40%float.
Proof.
  intros Hn Hlt. unfold createChatroomIcon. cbn [icon_size].
  pose proof (numberOfNat_spec n ltac:(lia) Hlt) as Hx.
  destruct (fifth_ge_20 (Pos.of_nat n) ltac:(lia)) as (m & e & Hy & Hdm & He & Hcmp).
  destruct (twenty_plus_ge_40 m e Hdm He Hcmp) as (m' & e' & Hz & Hdm' & Hcmp').
  set (z := (20 + numberOfNat n / 5)%float).
  assert (HPz : Prim2SF z = SpecFloat.S754_finite false m' e').
  { unfold z. rewrite FloatAxioms.add_spec, FloatAxioms.div_spec, Hx.
    change (Prim2SF 5) with (SpecFloat.S754_finite false 5629499534213120 (-50)).
    change (Prim2SF 20) with (SpecFloat.S754_finite false 5629499534213120 (-48)).
    unfold FloatAxioms.SF64div, FloatAxioms.SF64add.
    exact (eq_trans (f_equal (SpecFloat.SFadd prec emax _) Hy) Hz). }
  assert (Hnan : is_nan z = false) by (apply is_nan_spec; rewrite HPz; discriminate).
  assert (Hmin : mathMin 40 z = 40%float).
  { clearbody z. unfold mathMin. rewrite Hnan. cbn [is_nan orb].
    change (is_nan 40) with false. cbn [orb].
    rewrite !FloatAxioms.ltb_spec, HPz.
    change (Prim2SF 40) with (SpecFloat.S754_finite false 5629499534213120 (-47)).
    unfold SpecFloat.SFltb. cbn [SpecFloat.SFcompare].
    destruct Hcmp' as [Hlt'|[-> Hge]].
    - rewrite (proj2 (Z.compare_lt_iff (-47) e') Hlt'). reflexivity.
    - rewrite !Z.compare_refl.
      pose proof (Pos.compare_spec 5629499534213120 m') as Hs. unfold Pos.compare in Hs.
      destruct Hs as [Heq|Hlt'|Hgt];
        [| reflexivity | exfalso; apply Pos2Z.pos_lt_pos in Hgt; clear - Hgt Hge; lia].
      subst m'. rewrite Pos.compare_cont_refl.
      change (is_zero 40 && get_sign 40) with false. cbn iota.
      apply FloatAxioms.Prim2SF_inj. rewrite HPz. reflexivity. }
  rewrite Hmin. vm_compute. reflexivity.
Qed.

Lemma icon_size_small_range :
  forallb (fun n => Leibniz.eqb (icon_size (createChatroomIcon (numberOfNat n)))
                                 (20 + numberOfNat n / 5)%float) (seq 0 100) = true.
Proof. vm_compute. reflexivity. Qed.

Lemma icon_size_monotone_range :
  forallb (fun m => forallb (fun n =>
    (icon_size (createChatroomIcon (numberOfNat n)) <=?
     icon_size (createChatroomIcon (numberOfNat m)))%float) (seq 0 (S m))) (seq 0 100) = true.
Proof. vm_compute. reflexivity. Qed.

(** X14.  The marker of a room with [m] messages (below [2^53]) has diameter
    [20 + m / 5] up to 99 messages and 40 from 100 messages on, and a room
    with fewer messages never has a larger marker. *)
Theorem markerIcon_size (n m : nat) :
  (n <= m)%nat -> (Z.of_nat m < 2 ^ 53)%Z ->
  (icon_size (createChatroomIcon (numberOfNat n)) <=?
   icon_size (createChatroomIcon (numberOfNat m)))%float = true /\
  ((m < 100)%nat ->
   icon_size (createChatroomIcon (numberOfNat m)) = (20 + numberOfNat m / 5)%float) /\
  ((100 <= m)%nat -> icon_size (createChatroomIcon (numberOfNat m)) = 40%float).
Proof.
  intros Hnm Hm. split; [|split].
  - destruct (le_lt_dec 100 m) as [Hbig|Hsmall].
    + rewrite (icon_size_saturated m Hbig Hm).
      apply icon_size_le_40, numberOfNat_not_nan. lia.
    + pose proof icon_size_monotone_range as H. rewrite forallb_forall in H.
      specialize (H m ltac:(apply in_seq; lia)). rewrite forallb_forall in H.
      apply (H n). apply in_seq. lia.
  - intros Hsmall. pose proof icon_size_small_range as H. rewrite forallb_forall in H.
    apply FloatAxioms.Leibniz.eqb_spec, (H m). apply in_seq. lia.
  - intros Hbig. apply icon_size_saturated; assumption.
Qed.

Lemma markerIcon_size_witness :
  (icon_size (createChatroomIcon (numberOfNat 7)) <=?
   icon_size (createChatroomIcon (numberOfNat 250)))%float = true /\
  ((250 < 100)%nat ->
   icon_size (createChatroomIcon (numberOfNat 250)) = (20 + numberOfNat 250 / 5)%float) /\
  ((100 <= 250)%nat -> icon_size (createChatroomIcon (numberOfNat 250)) = 40%float).
Proof. apply (markerIcon_size 7 250); [lia | vm_compute; reflexivity]. Defined.
